(** * Langact: the action registry, its scheduler and the two command bars

    A shallow embedding of the TypeScript sources

      - [src/langact/LangactContext.tsx]  (the registration context),
      - [src/langact/useAiAction.ts]      (the hook that registers),
      - [src/components/CommandBar.tsx]   (keyword scoring; and the variant
                                           that asks a completion endpoint),
      - [src/langact/Langact.tsx]         (tree walker, semantic structure,
                                           action extractor, action map,
                                           debounced re-indexing),
      - [src/components/TodoList.tsx]     (the task list of the sample),

    together with the properties of them that the specification states,
    and further properties that the code itself shows.  The functions
    embedded are [registerAction], [unregisterAction], [useAiAction] with
    its effect, [findAndExecuteAction], [fiberToComponentTree],
    [createSemanticStructure], [createActionRegistry],
    [createLLMActionMap], [updateActionMaps], [debouncedUpdate] with the
    observer around it, [sendQueryToLLM], [handleAddTask] and
    [handleDeleteTask]; what the components render is not.

    Conventions.  JavaScript strings are [string] (a sequence of bytes;
    the case mapping and the white-space class are the ASCII ones).  A
    JavaScript number is carried by its canonical rendering, the text
    [String(n)] returns.  A plain object or a [Map] whose iteration order
    is observable is an association list in that order; the counter table
    of the extractor, which is only looked up, is a [gmap].  The
    objects the code reads by name are plain ones: where it reads a name
    that may be any text, what every plain object inherits is part of the
    embedding (the registry read by an id the model wrote, the method
    [hasOwnProperty] called on a props object, an assignment under the
    name [__proto__]).  Code that can raise is written in an error monad,
    React state as a record that is threaded through, and the calls made
    to handlers are appended to a log; what a function that the walker
    calls returns is given by a parameter. *)

From Stdlib Require Import Ascii.
From stdpp Require Import gmap strings list fin_maps pretty.

#[local] Set Warnings "-register-all".

(** ** The JavaScript fragment the sources rely on *)
Module JS.

(** *** Strings *)

(** White space as [String.prototype.trim] and the regular expression
    class [\s] see it, restricted to ASCII: TAB, LF, VT, FF, CR, SPACE. *)
Definition is_space (c : ascii) : bool :=
  let n := nat_of_ascii c in
  (Nat.leb 9 n && Nat.leb n 13) || Nat.eqb n 32.

Fixpoint trimStart (s : string) : string :=
  match s with
  | String c s' => if is_space c then trimStart s' else s
  | EmptyString => EmptyString
  end.

Definition trimEnd (s : string) : string :=
  String.rev (trimStart (String.rev s)).

(** [s.trim()] *)
Definition trim (s : string) : string := trimEnd (trimStart s).

Definition is_empty (s : string) : bool :=
  match s with EmptyString => true | String _ _ => false end.

(** [!s.trim()]: the string is empty or white space only. *)
Definition blank (s : string) : bool := is_empty (trim s).

Definition lower_char (c : ascii) : ascii :=
  let n := nat_of_ascii c in
  if Nat.leb 65 n && Nat.leb n 90 then ascii_of_nat (n + 32) else c.

(** [s.toLowerCase()] *)
Fixpoint toLowerCase (s : string) : string :=
  match s with
  | EmptyString => EmptyString
  | String c s' => String (lower_char c) (toLowerCase s')
  end.

(** [s.includes(sub)]: [sub] occurs in [s] at some position. *)
Fixpoint includes (s sub : string) : bool :=
  String.prefix sub s
  || match s with
     | EmptyString => false
     | String _ s' => includes s' sub
     end.

(** [s.startsWith(p)] *)
Definition startsWith (s p : string) : bool := String.prefix p s.

(** [s.split(/\s+/)].  [cur] holds the piece being read, reversed;
    [in_sep] says that the previous character was white space.  A
    separator at either end of the string leaves an empty piece there,
    and the empty string splits into one empty piece. *)
Fixpoint split_from (s cur : string) (in_sep : bool) : list string :=
  match s with
  | EmptyString => [String.rev cur]
  | String c s' =>
      if is_space c then
        if in_sep then split_from s' cur true
        else String.rev cur :: split_from s' EmptyString true
      else split_from s' (String c cur) false
  end.

Definition split_ws (s : string) : list string :=
  split_from s EmptyString false.

Definition dquote : ascii := ascii_of_nat 34.

(** [s.replace(/\x22/g, empty)]: every double quote is removed. *)
Fixpoint removeQuotes (s : string) : string :=
  match s with
  | EmptyString => EmptyString
  | String c s' =>
      if Ascii.eqb c dquote then removeQuotes s' else String c (removeQuotes s')
  end.

(** [xs.join(sep)] on strings. *)
Fixpoint join (sep : string) (xs : list string) : string :=
  match xs with
  | [] => EmptyString
  | [x] => x
  | x :: xs' => x +:+ sep +:+ join sep xs'
  end.

(** *** Values *)

(** A function value: its [name], the text [toString()] returns, and a
    reference that tells closures with the same text apart. *)
Record function := Function_ {
  fn_name : string;
  fn_source : string;
  fn_ref : nat;
}.

(** [VNumber r]: the number whose rendering is [r].  [VObject c fs]: an
    object whose [constructor?.name] is [c] (empty when there is none) and
    whose own enumerable properties are [fs], in enumeration order. *)
Inductive value :=
| VUndefined
| VNull
| VBool (b : bool)
| VNumber (repr : string)
| VString (s : string)
| VArray (items : list value)
| VObject (ctor : string) (fields : list (string * value))
| VFunction (f : function).

(** ToBoolean. *)
Definition truthy (v : value) : bool :=
  match v with
  | VUndefined | VNull => false
  | VBool b => b
  | VNumber r => negb (String.eqb r "0" || String.eqb r "NaN")
  | VString s => negb (is_empty s)
  | VArray _ | VObject _ _ | VFunction _ => true
  end.

(** [a || b] *)
Definition or_else (a b : value) : value := if truthy a then a else b.

(** ToString, as a template literal and a property key apply it.  An
    array joins its elements with commas, [null] and [undefined] elements
    rendering as nothing; an object is a plain one. *)
Fixpoint to_string (v : value) : string :=
  match v with
  | VUndefined => "undefined"
  | VNull => "null"
  | VBool b => if b then "true" else "false"
  | VNumber r => r
  | VString s => s
  | VArray xs =>
      (fix joined (l : list value) : string :=
         let elem x :=
           match x with
           | VUndefined | VNull => EmptyString
           | _ => to_string x
           end in
         match l with
         | [] => EmptyString
         | [x] => elem x
         | x :: l' => elem x +:+ "," +:+ joined l'
         end) xs
  | VObject _ _ => "[object Object]"
  | VFunction f => fn_source f
  end.

(** How an evaluation ends: with a value, or by raising. *)
Inductive error :=
| TypeError
| SyntaxError
| Thrown (v : value).

Inductive result (A : Type) :=
| Ok (a : A)
| Raise (e : error).
Arguments Ok {A} a.
Arguments Raise {A} e.

Definition bind {A B : Type} (r : result A) (k : A → result B) : result B :=
  match r with
  | Ok a => k a
  | Raise e => Raise e
  end.

(** [try { r } catch { h }] *)
Definition try_catch {A : Type} (r : result A) (h : error → result A) : result A :=
  match r with
  | Ok a => Ok a
  | Raise e => h e
  end.

(** *** Objects and Maps as association lists *)

Fixpoint assoc_get {V : Type} (k : string) (m : list (string * V)) : option V :=
  match m with
  | [] => None
  | (k', v) :: m' => if String.eqb k k' then Some v else assoc_get k m'
  end.

(** [m.set(k, v)] on a [Map], [o[k] = v] on an object: a present key
    keeps its place and takes the new value, a new key goes last. *)
Fixpoint assoc_set {V : Type} (k : string) (v : V) (m : list (string * V))
  : list (string * V) :=
  match m with
  | [] => [(k, v)]
  | (k', v') :: m' =>
      if String.eqb k k' then (k, v) :: m' else (k', v') :: assoc_set k v m'
  end.

(** [m.delete(k)] *)
Fixpoint assoc_delete {V : Type} (k : string) (m : list (string * V))
  : list (string * V) :=
  match m with
  | [] => []
  | (k', v') :: m' =>
      if String.eqb k k' then assoc_delete k m' else (k', v') :: assoc_delete k m'
  end.

(** [o[k]] on an object of props: [undefined] when there is no such
    property. *)
Definition prop_get (o : list (string * value)) (k : string) : value :=
  match assoc_get k o with
  | Some v => v
  | None => VUndefined
  end.

(** [v.k] for a name [k] that no prototype defines ([choices], [message],
    [content], [actionId], [parameters]): reading a property of [null] or
    [undefined] raises, an object answers with its own property, and
    every other value has none. *)
Definition get (v : value) (k : string) : result value :=
  match v with
  | VUndefined | VNull => Raise TypeError
  | VObject _ fs => Ok (prop_get fs k)
  | _ => Ok VUndefined
  end.

(** [v[0]] *)
Definition get0 (v : value) : result value :=
  match v with
  | VUndefined | VNull => Raise TypeError
  | VObject _ fs => Ok (prop_get fs "0")
  | VArray xs => Ok (match xs with x :: _ => x | [] => VUndefined end)
  | VString s =>
      Ok (match s with
          | String c _ => VString (String c EmptyString)
          | EmptyString => VUndefined
          end)
  | _ => Ok VUndefined
  end.

(** The names a plain object inherits from [Object.prototype].  What it
    has under each of them is a function, or an object, and so truthy;
    and none of them has a property [execute]. *)
Definition objectPrototype : list string :=
  ["constructor"; "hasOwnProperty"; "isPrototypeOf"; "propertyIsEnumerable";
   "toLocaleString"; "toString"; "valueOf"; "__proto__";
   "__defineGetter__"; "__defineSetter__"; "__lookupGetter__"; "__lookupSetter__"].

(** [o[k]] on a plain object [o] whose own properties are [m]: a
    property of its own, one it inherits, or [undefined]. *)
Inductive property (V : Type) :=
| Own (v : V)
| Inherited
| Missing.
Arguments Own {V} v.
Arguments Inherited {V}.
Arguments Missing {V}.

Definition getProperty {V : Type} (k : string) (m : list (string * V)) : property V :=
  match assoc_get k m with
  | Some v => Own v
  | None => if existsb (String.eqb k) objectPrototype then Inherited else Missing
  end.

(** The arguments [f(...v)] passes: an array spreads into its elements, a
    string into its characters; a value that is not iterable raises. *)
Fixpoint chars (s : string) : list value :=
  match s with
  | EmptyString => []
  | String c s' => VString (String c EmptyString) :: chars s'
  end.

Definition spread (v : value) : result (list value) :=
  match v with
  | VArray xs => Ok xs
  | VString s => Ok (chars s)
  | _ => Raise TypeError
  end.

(** How a call ends. *)
Inductive completion :=
| Returns
| Throws (e : value).

End JS.

(** ** [src/langact/types.ts], [src/langact/LangactContext.tsx] *)
Module LangactContext.
Import JS.

Record AiAction := {
  id : string;
  description : string;
  handler : function;
}.

(** The provider's state, a [Map<string, AiAction>]: its entries in
    insertion order.  [new Map()] is the empty list. *)
Definition registerAction (action : AiAction)
    (prevActions : list (string * AiAction)) : list (string * AiAction) :=
  assoc_set (id action) action prevActions.

Definition unregisterAction (id : string)
    (prevActions : list (string * AiAction)) : list (string * AiAction) :=
  assoc_delete id prevActions.

(** [actions.values()] *)
Definition values (actions : list (string * AiAction)) : list AiAction :=
  map snd actions.

End LangactContext.

(** ** [src/components/CommandBar.tsx]: keyword scoring *)
Module CommandBar.
Import JS LangactContext.

(** The component's state, and the log of the handler calls it has made. *)
Record State := {
  query : string;
  status : string;
  invoked : list (function * list value);
}.

Definition executing_status (description : string) : string :=
  "Executing: " +:+ String dquote description +:+ String dquote EmptyString.

Definition unknown_status : string := "Sorry, I don't know how to do that.".

(** The inner loop: one point for every word the description includes. *)
Definition scoreOf (description : string) (commandWords : list string) : nat :=
  foldl (λ currentScore word,
           if includes description word then S currentScore else currentScore)
        0 commandWords.

(** One round of the outer loop over [actions.values()]; the pair is
    [(bestAction, maxScore)]. *)
Definition consider (commandWords : list string)
    (best : option AiAction * nat) (action : AiAction) : option AiAction * nat :=
  let currentScore := scoreOf (toLowerCase (description action)) commandWords in
  if Nat.ltb (snd best) currentScore then (Some action, currentScore) else best.

Definition findBest (actions : list (string * AiAction)) (command : string)
  : option AiAction * nat :=
  let commandWords := split_ws (toLowerCase command) in
  foldl (consider commandWords) (None, 0) (values actions).

Section Run.
(** What calling a function with given arguments does, as far as the
    caller sees it: it returns, or it throws. *)
Variable call : function → list value → completion.

(** [context] is [None] outside a provider.  The second component tells
    whether the function returned or let a handler's exception through. *)
Definition findAndExecuteAction (context : option (list (string * AiAction)))
    (command : string) (st : State) : State * completion :=
  match context with
  | None => (st, Returns)
  | Some actions =>
      if blank command then (st, Returns)
      else
        match fst (findBest actions command) with
        | Some bestAction =>
            let st1 :=
              {| query := query st;
                 status := executing_status (description bestAction);
                 invoked := invoked st ++ [(handler bestAction, [])] |} in
            match call (handler bestAction) [] with
            | Returns =>
                ({| query := EmptyString;
                    status := status st1;
                    invoked := invoked st1 |}, Returns)
            | Throws e => (st1, Throws e)
            end
        | None =>
            ({| query := query st;
                status := unknown_status;
                invoked := invoked st |}, Returns)
        end
  end.

End Run.

End CommandBar.

(** ** [src/langact/Langact.tsx] *)
Module Langact.
Import JS.

(** *** The raw tree *)

(** What [getDisplayName] reads of [elementType]: a tag, a function with
    its [displayName] and [name] (empty when unset), an object with the
    [displayName] and [name] of its [render || type] when it has one, or
    anything else. *)
Inductive ElementType :=
| ETString (tag : string)
| ETFunction (displayName name : string)
| ETObject (render : option (string * string))
| ETOther.

(** [FiberNode | null].  A prop source is [None] when the field is
    [undefined] or [null]. *)
Inductive FiberNode :=
| Null
| Fiber (elementType : ElementType)
        (props memoizedProps pendingProps : option (list (string * value)))
        (child sibling : FiberNode).

(** [a || b] on strings. *)
Definition str_or (a b : string) : string := if is_empty a then b else a.

(** [node.props || node.memoizedProps || node.pendingProps || {}]: an
    object is truthy whether or not it has properties. *)
Definition propsSource (props memoizedProps pendingProps : option (list (string * value)))
  : list (string * value) :=
  match props with
  | Some o => o
  | None =>
      match memoizedProps with
      | Some o => o
      | None =>
          match pendingProps with
          | Some o => o
          | None => []
          end
      end
  end.

(** [Object.keys(o)] *)
Definition keys {V : Type} (o : list (string * V)) : list string := map fst o.

(** *** Tree walker *)

(** What a prop is stored as: a primitive as it is, a function as
    [{__type: function, __name, __toString}], an object as
    [{__type: object, __constructor, __keys}]. *)
Inductive Normalized :=
| NPrimitive (v : value)
| NFunction (__name __toString : string)
| NObject (__constructor : string) (__keys : list string).

Inductive ComponentTree :=
| Component (name : string) (props : list (string * Normalized))
            (children : list ComponentTree).

Definition ct_name (t : ComponentTree) : string :=
  match t with Component n _ _ => n end.
Definition ct_props (t : ComponentTree) : list (string * Normalized) :=
  match t with Component _ p _ => p end.
Definition ct_children (t : ComponentTree) : list ComponentTree :=
  match t with Component _ _ c => c end.

Definition walkerDisplayName (elementType : ElementType) : string :=
  match elementType with
  | ETString tag => tag
  | ETFunction displayName name => str_or displayName (str_or name "Component")
  | ETObject (Some (displayName, name)) =>
      str_or displayName (str_or name "ComplexComponent")
  | ETObject None => "Unknown"
  | ETOther => "Unknown"
  end.

(** The body of the [for ... in] loop for one value.  The keys of an
    array are its indices. *)
Definition normalize (v : value) : Normalized :=
  match v with
  | VFunction f => NFunction (str_or (fn_name f) "anonymous") (fn_source f)
  | VObject ctor fields => NObject (str_or ctor "Object") (keys fields)
  | VArray items => NObject "Array" (map pretty (seq 0 (length items)))
  | _ => NPrimitive v
  end.

Section Walker.
(** What calling a function on given arguments comes to: the value it
    returns, or the exception it raises.  The walker calls a function
    only when a props object has a property of its own named
    [hasOwnProperty]. *)
Variable invoke : function → list value → result value.

(** [propsSource.hasOwnProperty(key)] for a key the [for ... in] loop
    gives.  The props object is a plain one: unless it has a property of
    that name itself, the method is the one of [Object.prototype], and a
    key the loop gives is then the object's own.  A property of that name
    is called when it is a function, and calling anything else raises. *)
Definition hasOwnProperty (propsSource : list (string * value)) (key : string)
  : result bool :=
  match assoc_get "hasOwnProperty" propsSource with
  | None => Ok true
  | Some (VFunction f) =>
      bind (invoke f [VString key]) (λ answer, Ok (truthy answer))
  | Some _ => Raise TypeError
  end.

(** [props[key] = stored] on the object the walker builds.  Under the
    name [__proto__] the assignment goes to the setter every plain object
    inherits, which makes no property. *)
Definition store (key : string) (stored : Normalized)
    (props : list (string * Normalized)) : list (string * Normalized) :=
  if String.eqb key "__proto__" then props else assoc_set key stored props.

(** The body of the [for ... in] loop for one key. *)
Definition copyProp (propsSource : list (string * value))
    (props : list (string * Normalized)) (key : string)
  : result (list (string * Normalized)) :=
  bind (hasOwnProperty propsSource key) (λ own,
    Ok (if own then store key (normalize (prop_get propsSource key)) props
        else props)).

(** The loop itself, over the keys in enumeration order; an exception
    ends it. *)
Definition normalizeProps (source : list (string * value))
  : result (list (string * Normalized)) :=
  foldl (λ acc key, bind acc (λ props, copyProp source props key))
        (Ok []) (keys source).

(** The [while (currentChildNode)] loop of [fiberToComponentTree],
    started at the node [currentChildNode]: the conversion of that node
    (the recursive call, written out: its props, then the loop over its
    children), pushed before the conversions of its siblings. *)
Fixpoint childrenFrom (currentChildNode : FiberNode) : result (list ComponentTree) :=
  match currentChildNode with
  | Null => Ok []
  | Fiber elementType props memoizedProps pendingProps child sibling =>
      bind (normalizeProps (propsSource props memoizedProps pendingProps))
        (λ stored,
      bind (childrenFrom child) (λ children,
      bind (childrenFrom sibling) (λ rest,
      Ok (Component (walkerDisplayName elementType) stored children :: rest))))
  end.

Definition fiberToComponentTree (fiberNode : FiberNode)
  : result (option ComponentTree) :=
  match fiberNode with
  | Null => Ok None
  | Fiber elementType props memoizedProps pendingProps child _ =>
      bind (normalizeProps (propsSource props memoizedProps pendingProps))
        (λ stored,
      bind (childrenFrom child) (λ children,
      Ok (Some (Component (walkerDisplayName elementType) stored children))))
  end.

End Walker.

(** *** Action extractor *)

Record ActionRegistryEntry := {
  id : string;
  component : string;
  event : string;
  path : string;
  semanticId : string;
  identifyingProps : list (string * value);
  description : string;
  execute : function;
  functionName : string;
  toString : string;
}.

(** One call of [traverseAndExtractActions] on a node: the path it was
    given, the component name and the instance identifier it computed. *)
Record Visit := {
  visit_path : list string;
  visit_name : string;
  visit_identifier : string;
}.

(** The variables the closure [traverseAndExtractActions] shares, and a
    history of its calls.  The source keeps no such history and nothing
    below reads it; it is there to state what each call computed. *)
Record State := {
  actionRegistry : list (string * ActionRegistryEntry);
  actionId : nat;
  componentCounts : gmap string nat;
  visits : list Visit;
}.

Definition initial : State :=
  {| actionRegistry := []; actionId := 0; componentCounts := ∅; visits := [] |}.

Definition extractorDisplayName (elementType : ElementType) : string :=
  match elementType with
  | ETString tag => tag
  | ETFunction displayName name => str_or displayName (str_or name "Component")
  | _ => "Unknown"
  end.

Definition componentKeyOf (path : list string) (componentName : string) : string :=
  join ">" path +:+ ">" +:+ componentName.

Definition instanceIdentifierOf (componentName : string) (instanceNumber : nat) : string :=
  if Nat.ltb 0 instanceNumber
  then componentName +:+ "[" +:+ pretty instanceNumber +:+ "]"
  else componentName.

(** [v !== undefined] *)
Definition defined (v : value) : bool :=
  match v with VUndefined => false | _ => true end.

Definition identifyingNames : list string :=
  ["id"; "num"; "index"; "value"; "name"; "className"].

Definition identifyingPropsOf (source : list (string * value))
  : list (string * value) :=
  foldl (λ identifyingProps prop,
           if defined (prop_get source prop)
           then assoc_set prop (prop_get source prop) identifyingProps
           else identifyingProps)
        [] identifyingNames.

Definition tagged (label : string) (v : value) : string :=
  "[" +:+ label +:+ "=" +:+ to_string v +:+ "]".

Definition semanticIdOf (identifyingProps : list (string * value))
    (instanceNumber : nat) : string :=
  if defined (prop_get identifyingProps "num")
  then tagged "num" (prop_get identifyingProps "num")
  else if defined (prop_get identifyingProps "index")
  then tagged "index" (prop_get identifyingProps "index")
  else if truthy (prop_get identifyingProps "id")
  then tagged "id" (prop_get identifyingProps "id")
  else if truthy (prop_get identifyingProps "key")
  then tagged "key" (prop_get identifyingProps "key")
  else if Nat.ltb 0 instanceNumber
  then "[instance=" +:+ pretty instanceNumber +:+ "]"
  else EmptyString.

Definition functionIdOf (n : nat) : string := "action_" +:+ pretty n.

Definition descriptionOf (propKey componentName semanticId : string)
    (currentPath : list string) : string :=
  (propKey +:+ " handler on " +:+ componentName)
  +:+ (if is_empty semanticId then EmptyString else " " +:+ semanticId)
  +:+ " at " +:+ join " > " currentPath.

(** The body of [Object.keys(propsSource).forEach] for one key. *)
Definition extractHandler (componentName semanticId : string)
    (currentPath : list string) (identifyingProps source : list (string * value))
    (st : State) (propKey : string) : State :=
  match prop_get source propKey with
  | VFunction propValue =>
      if startsWith propKey "on" then
        let functionId := functionIdOf (actionId st) in
        {| actionRegistry :=
             assoc_set functionId
               {| id := functionId;
                  component := componentName;
                  event := propKey;
                  path := join " > " currentPath;
                  semanticId := semanticId;
                  identifyingProps := identifyingProps;
                  description :=
                    descriptionOf propKey componentName semanticId currentPath;
                  execute := propValue;
                  functionName := str_or (fn_name propValue) "anonymous";
                  toString := fn_source propValue |}
               (actionRegistry st);
           actionId := S (actionId st);
           componentCounts := componentCounts st;
           visits := visits st |}
      else st
  | _ => st
  end.

(** The part of [traverseAndExtractActions] before it turns to the
    children: the state after it, and [currentPath]. *)
Definition visitNode (elementType : ElementType)
    (props memoizedProps pendingProps : option (list (string * value)))
    (path : list string) (st : State) : State * list string :=
  let componentName := extractorDisplayName elementType in
  let componentKey := componentKeyOf path componentName in
  let count := default 0 (componentCounts st !! componentKey) + 1 in
  let instanceNumber := count - 1 in
  let instanceIdentifier := instanceIdentifierOf componentName instanceNumber in
  let currentPath := path ++ [instanceIdentifier] in
  let source := propsSource props memoizedProps pendingProps in
  let identifyingProps := identifyingPropsOf source in
  let semanticId := semanticIdOf identifyingProps instanceNumber in
  let st1 :=
    {| actionRegistry := actionRegistry st;
       actionId := actionId st;
       componentCounts := <[componentKey := count]> (componentCounts st);
       visits := visits st ++ [ {| visit_path := path;
                                   visit_name := componentName;
                                   visit_identifier := instanceIdentifier |} ] |} in
  (foldl (extractHandler componentName semanticId currentPath identifyingProps source)
         st1 (keys source),
   currentPath).

(** The [while (child)] loop, started at [child] with the parent's
    [currentPath]: the call on [child] (written out: its own part, then
    the loop over its children), then the loop over its siblings. *)
Fixpoint traverseChildren (child : FiberNode) (currentPath : list string)
    (st : State) : State :=
  match child with
  | Null => st
  | Fiber elementType props memoizedProps pendingProps grandchild sibling =>
      let '(st1, ownPath) :=
        visitNode elementType props memoizedProps pendingProps currentPath st in
      traverseChildren sibling currentPath (traverseChildren grandchild ownPath st1)
  end.

Definition traverseAndExtractActions (node : FiberNode) (path : list string)
    (st : State) : State :=
  match node with
  | Null => st
  | Fiber elementType props memoizedProps pendingProps child _ =>
      let '(st1, currentPath) :=
        visitNode elementType props memoizedProps pendingProps path st in
      traverseChildren child currentPath st1
  end.

(** One indexing pass, with everything the closure held at its end. *)
Definition indexingPass (fiberNode : FiberNode) : State :=
  traverseAndExtractActions fiberNode [] initial.

Definition createActionRegistry (fiberNode : FiberNode)
  : list (string * ActionRegistryEntry) :=
  actionRegistry (indexingPass fiberNode).

End Langact.

(** ** [src/langact/Langact.tsx]: the debounced re-indexing *)
Module Reindexing.
Import JS.

Inductive MutationType := attributes | childList | characterData.

Record MutationRecord := {
  type : MutationType;
  tagName : string;
}.

Definition interactive (tag : string) : bool :=
  String.eqb tag "INPUT" || String.eqb tag "BUTTON" || String.eqb tag "SELECT".

(** The loop of the observer's callback: the value [shouldUpdate] has
    when the loop is left. *)
Fixpoint shouldUpdate (mutations : list MutationRecord) : bool :=
  match mutations with
  | [] => false
  | mutation :: rest =>
      match type mutation with
      | attributes =>
          if interactive (tagName mutation) then true else shouldUpdate rest
      | childList => true
      | characterData => shouldUpdate rest
      end
  end.

(** The component and the timers of its environment.  Time is counted in
    milliseconds.  [pending] lists the armed timers in the order they
    were armed, each with the handle [setTimeout] returned (an integer
    greater than zero) and the time it is due; [passes] lists the times at
    which [updateActionMaps] ran. *)
Record State := {
  now : nat;
  nextHandle : positive;
  pending : list (positive * nat);
  updateTimeoutRef : option positive;
  observing : bool;
  passes : list nat;
}.

Definition delay : nat := 100.

(** [clearTimeout(h)] *)
Definition clearTimeout (h : positive) (timers : list (positive * nat))
  : list (positive * nat) :=
  List.filter (λ t, negb (Pos.eqb (fst t) h)) timers.

(** [if (ref.current) clearTimeout(ref.current);
     ref.current = setTimeout(updateActionMaps, 100)] *)
Definition debouncedUpdate (s : State) : State :=
  let timers :=
    match updateTimeoutRef s with
    | Some h => clearTimeout h (pending s)
    | None => pending s
    end in
  {| now := now s;
     nextHandle := Pos.succ (nextHandle s);
     pending := timers ++ [(nextHandle s, now s + delay)];
     updateTimeoutRef := Some (nextHandle s);
     observing := observing s;
     passes := passes s |}.

(** The first render: the effect that runs [updateActionMaps] at once,
    and the effect that starts the observer. *)
Definition mount (t : nat) : State :=
  {| now := t;
     nextHandle := 1%positive;
     pending := [];
     updateTimeoutRef := None;
     observing := true;
     passes := [t] |}.

(** The observer's callback on one batch of records. *)
Definition observerCallback (mutations : list MutationRecord) (s : State) : State :=
  if observing s && shouldUpdate mutations then debouncedUpdate s else s.

(** The cleanup of the second effect. *)
Definition cleanup (s : State) : State :=
  {| now := now s;
     nextHandle := nextHandle s;
     pending :=
       match updateTimeoutRef s with
       | Some h => clearTimeout h (pending s)
       | None => pending s
       end;
     updateTimeoutRef := updateTimeoutRef s;
     observing := false;
     passes := passes s |}.

(** A render with new [children]: both callbacks change, so the second
    effect is cleaned up, the first effect runs [updateActionMaps] at
    once, and the second effect starts a new observer. *)
Definition rerender (s : State) : State :=
  {| now := now s;
     nextHandle := nextHandle s;
     pending := pending (cleanup s);
     updateTimeoutRef := updateTimeoutRef s;
     observing := true;
     passes := passes s ++ [now s] |}.

(** Time passes until [t]: every timer due by then fires, at the time
    it is due, and runs [updateActionMaps]. *)
Definition advance (t : nat) (s : State) : State :=
  {| now := Nat.max (now s) t;
     nextHandle := nextHandle s;
     pending := List.filter (λ p, Nat.ltb t (snd p)) (pending s);
     updateTimeoutRef := updateTimeoutRef s;
     observing := observing s;
     passes := passes s ++ map snd (List.filter (λ p, Nat.leb (snd p) t) (pending s)) |}.

Inductive Event :=
| Mutations (time : nat) (mutations : list MutationRecord)
| Rerender (time : nat)
| Teardown (time : nat)
| Wait (time : nat).

Definition step (s : State) (e : Event) : State :=
  match e with
  | Mutations t mutations => observerCallback mutations (advance t s)
  | Rerender t => rerender (advance t s)
  | Teardown t => cleanup (advance t s)
  | Wait t => advance t s
  end.

Definition run (s : State) (events : list Event) : State := foldl step s events.

End Reindexing.

(** ** [src/components/CommandBar.tsx]: asking the completion endpoint *)
Module LLMCommandBar.
Import JS.

(** The status line, by the case that wrote it: the empty initial one,
    [Thinking...], [LLM API error: <statusText>], [Executing action: <id>
    with parameters: <JSON>], [Action execution error: <err>], [No
    suitable action found for your request.], [LLM did not return a valid
    action id.], [Error: <err>]. *)
Inductive Status :=
| Empty
| Thinking
| ApiError (statusText : string)
| Executing (actionId parameters : value)
| ExecutionError (err : error)
| NoSuitableAction
| InvalidActionId
| Failed (err : error).

Record State := {
  query : string;
  status : Status;
  loading : bool;
  invoked : list (function * list value);
}.

(** How the request ended: [fetch] rejected, or it resolved to a
    response with its [ok], its [statusText] and what [response.json()]
    settles to. *)
Inductive Outcome :=
| Rejected (err : error)
| Response (ok : bool) (statusText : string) (json : result value).

Definition setStatus (x : Status) (st : State) : State :=
  {| query := query st; status := x; loading := loading st; invoked := invoked st |}.
Definition setLoading (b : bool) (st : State) : State :=
  {| query := query st; status := status st; loading := b; invoked := invoked st |}.
Definition setQuery (q : string) (st : State) : State :=
  {| query := q; status := status st; loading := loading st; invoked := invoked st |}.
Definition record_call (f : function) (args : list value) (st : State) : State :=
  {| query := query st; status := status st; loading := loading st;
     invoked := invoked st ++ [(f, args)] |}.

(** [a && k a] *)
Definition and_then (a : result value) (k : value → result value) : result value :=
  bind a (λ v, if truthy v then k v else Ok v).

(** [data.choices && data.choices[0] && data.choices[0].message &&
     data.choices[0].message.content] *)
Definition messageContent (data : value) : result value :=
  and_then (get data "choices") (λ choices,
  and_then (get0 choices) (λ choice,
  and_then (get choice "message") (λ message,
  get message "content"))).

(** [content.trim()]: only a string has the method. *)
Definition trimOf (content : value) : result string :=
  match content with
  | VString s => Ok (trim s)
  | _ => Raise TypeError
  end.

(** [v === x] for the string literal [x]. *)
Definition is_literal (x : string) (v : value) : bool :=
  match v with
  | VString s => String.eqb s x
  | _ => false
  end.

Section Run.
Variable call : function → list value → completion.
(** [JSON.parse]: [None] when it raises a [SyntaxError]. *)
Variable JSON_parse : string → option value.

(** The body of the inner [try]: the pair [(actionId, parameters)]. *)
Definition parseResponse (content : value) : result (value * value) :=
  bind (trimOf content) (λ text,
    match JSON_parse text with
    | None => Raise SyntaxError
    | Some llmResponse =>
        bind (get llmResponse "actionId") (λ actionId,
        bind (get llmResponse "parameters") (λ parameters,
        Ok (or_else actionId (VString EmptyString), or_else parameters (VArray []))))
    end).

(** The inner [catch]. *)
Definition fallback (content : value) : result (value * value) :=
  bind (trimOf content) (λ text, Ok (VString (removeQuotes text), VArray [])).

Definition extractAction (data : value) : result (value * value) :=
  bind (messageContent data) (λ content,
    if truthy content
    then try_catch (parseResponse content) (λ _, fallback content)
    else Ok (VString EmptyString, VArray [])).

(** From the [if] on [actionId] to the end of the function.  The
    registry is a plain object, read with [actionRegistry[actionId]]: a
    name it inherits passes the test of the [if] as an entry of its own
    does; what is found under it has no [execute], so the call raises,
    whether or not the parameters can be spread. *)
Definition resolve (actionRegistry : list (string * Langact.ActionRegistryEntry))
    (actionId parameters : value) (st : State) : State :=
  let entry :=
    if truthy actionId && negb (is_literal "none" actionId)
    then getProperty (to_string actionId) actionRegistry
    else Missing in
  match entry with
  | Own action =>
      let st1 := setStatus (Executing actionId parameters) st in
      match spread parameters with
      | Raise err => setLoading false (setStatus (ExecutionError err) st1)
      | Ok args =>
          let st2 := record_call (Langact.execute action) args st1 in
          match call (Langact.execute action) args with
          | Returns => setLoading false st2
          | Throws e => setLoading false (setStatus (ExecutionError (Thrown e)) st2)
          end
      end
  | Inherited =>
      let st1 := setStatus (Executing actionId parameters) st in
      setLoading false (setStatus (ExecutionError TypeError) st1)
  | Missing =>
      if is_literal "none" actionId
      then setLoading false (setStatus NoSuitableAction st)
      else setLoading false (setStatus InvalidActionId st)
  end.

(** The outer [catch], and the [setLoading(false)] after it. *)
Definition failed (err : error) (st : State) : State :=
  setLoading false (setStatus (Failed err) st).

(** [context] is the [actionRegistry] of the context, [None] outside a
    provider (its other two fields only travel in the request). *)
Definition sendQueryToLLM
    (context : option (list (string * Langact.ActionRegistryEntry)))
    (query_ : string) (outcome : Outcome) (st : State) : State :=
  match context with
  | None => st
  | Some actionRegistry =>
      if blank query_ then st
      else
        let st1 := setStatus Thinking (setLoading true st) in
        match outcome with
        | Rejected err => failed err st1
        | Response ok statusText json =>
            if negb ok then setLoading false (setStatus (ApiError statusText) st1)
            else
              match json with
              | Raise err => failed err st1
              | Ok data =>
                  match extractAction data with
                  | Raise err => failed err st1
                  | Ok (actionId, parameters) =>
                      resolve actionRegistry actionId parameters
                              (setQuery EmptyString st1)
                  end
              end
        end
  end.

End Run.

End LLMCommandBar.

(** ** More of the JavaScript fragment: [match] and [split] on a character *)
Module JSText.
Import JS.

(** The text of [s] before its first [c] and the text after it; [None]
    when [s] holds no [c]. *)
Fixpoint cut (c : ascii) (s : string) : option (string * string) :=
  match s with
  | EmptyString => None
  | String a s' =>
      if Ascii.eqb a c then Some (EmptyString, s')
      else match cut c s' with
           | Some (before, after) => Some (String a before, after)
           | None => None
           end
  end.

(** The group of [s.match(re)] for the expression [re] of
    [createLLMActionMap]: an opening parenthesis, a group of characters
    other than the closing one, a closing parenthesis.  [None] when
    there is no match.  The leftmost match starts at the first opening
    parenthesis that has a closing one after it, which is the first one
    of [s] or none; the group runs to the first closing parenthesis from
    there. *)
Definition matchParens (s : string) : option string :=
  match cut "(" s with
  | None => None
  | Some (_, rest) =>
      match cut ")" rest with
      | None => None
      | Some (group, _) => Some group
      end
  end.

(** [s.split(c)] for a separator of one character: the empty string
    splits into one empty piece. *)
Fixpoint split (c : ascii) (s : string) : list string :=
  match s with
  | EmptyString => [EmptyString]
  | String a s' =>
      if Ascii.eqb a c then EmptyString :: split c s'
      else match split c s' with
           | [] => [String a EmptyString]
           | x :: xs => String a x :: xs
           end
  end.

End JSText.

(** ** [src/langact/Langact.tsx]: the semantic structure *)
Module Semantic.
Import JS Langact.

Record Action := {
  event : string;
  handler : string;
  path : string;
}.

(** The object [createSemanticStructure] returns.  [actions] and
    [children] are [None] once deleted; [text] and [className] are [None]
    when never assigned; [named] holds what was assigned under [id],
    [type], [value], [placeholder] and [href], in assignment order. *)
Inductive SemanticStructure :=
| Semantic (component : string)
           (actions : option (list Action))
           (children : option (list SemanticStructure))
           (text : option string)
           (className : option Normalized)
           (named : list (string * Normalized)).

Definition component (s : SemanticStructure) : string :=
  match s with Semantic c _ _ _ _ _ => c end.
Definition actions (s : SemanticStructure) : option (list Action) :=
  match s with Semantic _ a _ _ _ _ => a end.
Definition children (s : SemanticStructure) : option (list SemanticStructure) :=
  match s with Semantic _ _ c _ _ _ => c end.
Definition text (s : SemanticStructure) : option string :=
  match s with Semantic _ _ _ t _ _ => t end.
Definition className (s : SemanticStructure) : option Normalized :=
  match s with Semantic _ _ _ _ c _ => c end.
Definition named (s : SemanticStructure) : list (string * Normalized) :=
  match s with Semantic _ _ _ _ _ n => n end.

(** ToBoolean of a stored prop: the two descriptors are objects. *)
Definition truthyN (prop : Normalized) : bool :=
  match prop with
  | NPrimitive v => truthy v
  | NFunction _ _ | NObject _ _ => true
  end.

(** [props[key]] *)
Definition propOf (props : list (string * Normalized)) (key : string) : Normalized :=
  default (NPrimitive VUndefined) (assoc_get key props).

(** [props.children && typeof props.children === string] *)
Definition textOf (props : list (string * Normalized)) : option string :=
  match propOf props "children" with
  | NPrimitive (VString s) => if is_empty s then None else Some s
  | _ => None
  end.

(** [if (props.className)] *)
Definition classNameOf (props : list (string * Normalized)) : option Normalized :=
  if truthyN (propOf props "className") then Some (propOf props "className")
  else None.

Definition meaningful : list string := ["id"; "type"; "value"; "placeholder"; "href"].

(** The body of [Object.keys(props).forEach] for one key, on the pair of
    [semantic.actions] and the properties assigned so far.  The test
    [prop && prop.__type === function] holds of a function descriptor
    only: the walker stores nothing else with a [__type] of that
    value. *)
Definition extractProp (props : list (string * Normalized))
    (acc : list Action * list (string * Normalized)) (key : string)
  : list Action * list (string * Normalized) :=
  let prop := propOf props key in
  let actions :=
    match prop with
    | NFunction __name _ =>
        if startsWith key "on"
        then fst acc ++ [ {| event := key;
                             handler := str_or __name "anonymous";
                             path := "props." +:+ key |} ]
        else fst acc
    | _ => fst acc
    end in
  let named :=
    if existsb (String.eqb key) meaningful then assoc_set key prop (snd acc)
    else snd acc in
  (actions, named).

(** An array, deleted from the object when it is empty. *)
Definition unlessEmpty {A : Type} (xs : list A) : option (list A) :=
  match xs with [] => None | _ => Some xs end.

(** [createSemanticStructure] on a tree that is not [null]. *)
Fixpoint semanticOf (componentTree : ComponentTree) : SemanticStructure :=
  match componentTree with
  | Component name props children =>
      let extracted := foldl (extractProp props) ([], []) (keys props) in
      Semantic name
               (unlessEmpty (fst extracted))
               (unlessEmpty (map semanticOf children))
               (textOf props)
               (classNameOf props)
               (snd extracted)
  end.

Definition createSemanticStructure (componentTree : option ComponentTree)
  : option SemanticStructure :=
  match componentTree with
  | None => None
  | Some tree => Some (semanticOf tree)
  end.

End Semantic.

(** ** [src/langact/Langact.tsx]: the action map and [updateActionMaps] *)
Module ActionMap.
Import JS JSText Langact.

Record LLMAction := {
  description : string;
  component : string;
  event : string;
  path : string;
  semanticId : string;
  identifyingProps : list (string * value);
  parameters : list string;
  signature : string;
}.

Definition paramStringOf (functionString : string) : string :=
  match matchParens functionString with
  | Some group => trim group
  | None => EmptyString
  end.

Definition parametersOf (paramString : string) : list string :=
  if is_empty paramString then [] else map trim (split "," paramString).

(** The object filed for one action. *)
Definition entryOf (action : ActionRegistryEntry) : LLMAction :=
  let paramString := paramStringOf (Langact.toString action) in
  {| description := Langact.description action;
     component := Langact.component action;
     event := Langact.event action;
     path := Langact.path action;
     semanticId := Langact.semanticId action;
     identifyingProps := Langact.identifyingProps action;
     parameters := parametersOf paramString;
     signature := Langact.functionName action +:+ "(" +:+ paramString +:+ ")" |}.

(** The loop over [Object.keys(actionRegistry)].  A key of the registry
    always has an entry, so the other branch of the lookup is never
    taken. *)
Definition createLLMActionMap (actionRegistry : list (string * ActionRegistryEntry))
  : list (string * LLMAction) :=
  foldl (λ llmActionMap actionId,
           match assoc_get actionId actionRegistry with
           | Some action => assoc_set actionId (entryOf action) llmActionMap
           | None => llmActionMap
           end)
        [] (keys actionRegistry).

(** The three pieces of state [updateActionMaps] sets. *)
Record Maps := {
  actionRegistry : list (string * ActionRegistryEntry);
  llmActionMap : list (string * LLMAction);
  semanticStructure : option Semantic.SemanticStructure;
}.

Section Update.
Variable invoke : function → list value → result value.

(** [fiberRoot] is [children._owner?.child], [Null] when that is
    [undefined] or [null].  The state is set after the walker has
    returned: when the walker raises, so does [updateActionMaps], and
    nothing is set. *)
Definition updateActionMaps (fiberRoot : FiberNode) : result Maps :=
  match fiberRoot with
  | Null =>
      Ok {| actionRegistry := []; llmActionMap := []; semanticStructure := None |}
  | Fiber _ _ _ _ _ _ =>
      bind (fiberToComponentTree invoke fiberRoot) (λ componentTree,
        let newSemanticStructure := Semantic.createSemanticStructure componentTree in
        let newActionRegistry := createActionRegistry fiberRoot in
        let newLLMActionMap := createLLMActionMap newActionRegistry in
        Ok {| actionRegistry := newActionRegistry;
              llmActionMap := newLLMActionMap;
              semanticStructure := newSemanticStructure |})
  end.

End Update.

End ActionMap.

(** ** [src/langact/useAiAction.ts] *)
Module UseAiAction.
Import JS LangactContext.

(** What the hook returns: outside a provider it throws; inside one, an
    object with the props to spread onto the element. *)
Definition useAiAction (context : option (list (string * AiAction)))
    (action : AiAction) : result (list (string * value)) :=
  match context with
  | None =>
      Raise (Thrown (VObject "Error"
        [("message", VString "useAiAction must be used within a LangactProvider")]))
  | Some _ =>
      Ok [("onClick", VFunction (handler action));
          ("data-langact-id", VString (id action))]
  end.

(** The effect of the hook, and the cleanup it returns. *)
Definition effect (action : AiAction) (actions : list (string * AiAction))
  : list (string * AiAction) :=
  registerAction action actions.

Definition cleanup (action : AiAction) (actions : list (string * AiAction))
  : list (string * AiAction) :=
  unregisterAction (id action) actions.

(** What happens to one use of the hook: its component mounts with an
    action; renders again with another action object, so that the effect
    is cleaned up and runs anew; unmounts. *)
Inductive Event :=
| Mount (action : AiAction)
| Update (previous action : AiAction)
| Unmount (action : AiAction).

Definition step (actions : list (string * AiAction)) (e : Event)
  : list (string * AiAction) :=
  match e with
  | Mount action => effect action actions
  | Update previous action => effect action (cleanup previous actions)
  | Unmount action => cleanup action actions
  end.

Definition run (actions : list (string * AiAction)) (events : list Event)
  : list (string * AiAction) :=
  foldl step actions events.

End UseAiAction.

(** ** [src/components/TodoList.tsx] *)
Module TodoList.
Import JS.

(** [id] is a number of milliseconds, or one of the two small integers
    of the initial list. *)
Record Task := {
  id : N;
  title : string;
}.

Record State := {
  tasks : list Task;
  inputValue : string;
}.

Definition initial : State :=
  {| tasks := [ {| id := 1%N; title := "Buy groceries" |};
                {| id := 2%N; title := "Walk the dog" |} ];
     inputValue := EmptyString |}.

(** [now] is what [Date.now()] returns. *)
Definition handleAddTask (now : N) (st : State) : State :=
  if blank (inputValue st) then st
  else
    let newTask := {| id := now; title := trim (inputValue st) |} in
    {| tasks := tasks st ++ [newTask]; inputValue := EmptyString |}.

Definition handleDeleteTask (id_ : N) (st : State) : State :=
  {| tasks := List.filter (λ task, negb (N.eqb (id task) id_)) (tasks st);
     inputValue := inputValue st |}.

(** [onChange] of the input. *)
Definition setInputValue (value : string) (st : State) : State :=
  {| tasks := tasks st; inputValue := value |}.

End TodoList.

(** * The vocabulary of the statements *)

(** What the statements below are written with: the specification's own
    notions, set beside the code's; the invariants of the traversals; and
    the inputs the examples run on.  Nothing here is read by the
    definitions above. *)

(** ** The registration context *)
Module ContextTerms.
Import JS LangactContext.

Definition save_v1 : AiAction :=
  {| id := "user.save"; description := "Save the profile";
     handler := Function_ "save" "() => saveUser()" 1 |}.

Definition save_v2 : AiAction :=
  {| id := "user.save"; description := "Save the current user profile";
     handler := Function_ "save" "() => saveUser()" 2 |}.

Definition quit : AiAction :=
  {| id := "app.quit"; description := "Quit";
     handler := Function_ "quit" "() => quit()" 3 |}.

End ContextTerms.

(** ** Keyword scoring *)
Module ScoringTerms.
Import JS LangactContext CommandBar.

(** The score in the specification's words: the number of pieces of the
    lower-cased command, split at white space, that occur in the
    lower-cased description; a piece that comes twice counts twice. *)
Definition overlap (command : string) (action : AiAction) : nat :=
  length (List.filter (includes (toLowerCase (description action)))
                      (split_ws (toLowerCase command))).

(** [action] is at place [i] of [vs], scores more than zero, nothing in
    [vs] scores more, and everything before place [i] scores less. *)
Definition first_max (score : AiAction → nat) (vs : list AiAction)
    (i : nat) (action : AiAction) : Prop :=
  vs !! i = Some action
  ∧ 0 < score action
  ∧ (∀ b, b ∈ vs → score b ≤ score action)
  ∧ (∀ j b, j < i → vs !! j = Some b → score b < score action).

(** The two tasks of the sample application, under any ids and with any
    handlers. *)
Definition groceries (i : string) (h : function) : AiAction :=
  {| id := i; description := "delete task 'Buy groceries'"; handler := h |}.

Definition dog (i : string) (h : function) : AiAction :=
  {| id := i; description := "delete task 'Walk the dog'"; handler := h |}.

Definition add_task : AiAction :=
  {| id := "task.add"; description := "Add a new task";
     handler := Function_ "handleAddTask" "() => { ... }" 7 |}.

Definition run_job : AiAction :=
  {| id := "job.run"; description := "Run job XYZ123";
     handler := Function_ "runJob" "() => run()" 8 |}.

(** The bar with a command typed into it and nothing done yet. *)
Definition typed_in : State :=
  {| query := "typed"; status := EmptyString; invoked := [] |}.

End ScoringTerms.

(** ** Tree walker *)
Module WalkerTerms.
Import JS Langact.

(** The first of the given prop sets that is there at all; no props when
    none is. *)
Fixpoint firstPresent (sets : list (option (list (string * value))))
  : list (string * value) :=
  match sets with
  | [] => []
  | Some o :: _ => o
  | None :: rest => firstPresent rest
  end.

(** The nodes a loop over [node], [node.sibling], ... meets. *)
Fixpoint siblingChain (node : FiberNode) : list FiberNode :=
  match node with
  | Null => []
  | Fiber _ _ _ _ _ sibling => node :: siblingChain sibling
  end.

(** [node.child], and [null] for [null]. *)
Definition childOf (node : FiberNode) : FiberNode :=
  match node with
  | Null => Null
  | Fiber _ _ _ _ child _ => child
  end.

(** The props object has no property of its own named
    [hasOwnProperty]; so has every props object the walker reads in the
    chain that starts at [node] and below it; and so has every one it
    reads in a tree. *)
Definition unshadowed (source : list (string * value)) : Prop :=
  assoc_get "hasOwnProperty" source = None.

Fixpoint unshadowedChain (node : FiberNode) : Prop :=
  match node with
  | Null => True
  | Fiber _ props memoizedProps pendingProps child sibling =>
      unshadowed (propsSource props memoizedProps pendingProps)
      ∧ unshadowedChain child ∧ unshadowedChain sibling
  end.

Definition unshadowedFrom (root : FiberNode) : Prop :=
  match root with
  | Null => True
  | Fiber _ props memoizedProps pendingProps child _ =>
      unshadowed (propsSource props memoizedProps pendingProps)
      ∧ unshadowedChain child
  end.

(** What the loop stores when every key passes its test. *)
Definition storedProps (source : list (string * value))
  : list (string * Normalized) :=
  foldl (λ props key, store key (normalize (prop_get source key)) props)
        [] (keys source).

(** Functions that are not called, or whose answer does not matter. *)
Definition silent : function → list value → result value :=
  λ _ _, Ok VUndefined.

(** Every function answers [false]. *)
Definition denying : function → list value → result value :=
  λ _ _, Ok (VBool false).

Definition leaf (tag : string) (sibling : FiberNode) : FiberNode :=
  Fiber (ETString tag) None (Some []) None Null sibling.

Definition list_of_three : FiberNode :=
  Fiber (ETString "ul") None (Some []) None
        (leaf "li" (leaf "li" (leaf "li" Null))) Null.

(** A node whose [props] is an empty object and whose [memoizedProps]
    has a property. *)
Definition stale_props : FiberNode :=
  Fiber (ETString "div") (Some []) (Some [("title", VString "x")]) None Null Null.

(** A node one of whose props is named [hasOwnProperty] and is an
    object. *)
Definition shadowed_by_object : FiberNode :=
  Fiber (ETString "div")
        None (Some [("hasOwnProperty", VObject "Object" []); ("title", VString "x")])
        None Null Null.

Definition own_test : function := Function_ "hasOwnProperty" "() => false" 41.

Definition onClick_of_shadowed : function := Function_ "press" "() => press()" 42.

(** A node one of whose props is named [hasOwnProperty] and is a
    function, beside a click handler. *)
Definition shadowed_by_function : FiberNode :=
  Fiber (ETString "button")
        None (Some [("hasOwnProperty", VFunction own_test);
                    ("onClick", VFunction onClick_of_shadowed)])
        None Null Null.

End WalkerTerms.

(** ** Action extractor *)
Module ExtractorTerms.
Import JS Langact.

(** Membership of a given string in a given list of strings. *)
Ltac listed :=
  rewrite list_elem_of_In; simpl; intuition discriminate.

(** *** Action ids *)

(** The ids handed out so far are [action_0] up to the counter, in this
    order, and every entry is filed under its own id. *)
Definition Dense (st : State) : Prop :=
  map fst (actionRegistry st) = map functionIdOf (seq 0 (actionId st))
  ∧ Forall (λ p, id (snd p) = fst p) (actionRegistry st).

(** Traversal order in the specification's words.  The handler a node
    has under a key, if any; the handlers of a node, in the order of its
    keys; the handlers of the nodes a loop started at [node] meets, depth
    first: the node's own, those below it, then those of its siblings;
    and the handlers below and at a root. *)
Definition handlerAt (source : list (string * value)) (key : string)
  : option (string * function) :=
  match prop_get source key with
  | VFunction f => if startsWith key "on" then Some (key, f) else None
  | _ => None
  end.

Definition handlersOf (source : list (string * value)) : list (string * function) :=
  omap (handlerAt source) (keys source).

Fixpoint discovered (node : FiberNode) : list (string * function) :=
  match node with
  | Null => []
  | Fiber _ props memoizedProps pendingProps child sibling =>
      handlersOf (propsSource props memoizedProps pendingProps)
      ++ discovered child ++ discovered sibling
  end.

Definition discoveredFrom (root : FiberNode) : list (string * function) :=
  match root with
  | Null => []
  | Fiber _ props memoizedProps pendingProps child _ =>
      handlersOf (propsSource props memoizedProps pendingProps) ++ discovered child
  end.

(** The event and the function of a registry entry. *)
Definition handler_of (p : string * ActionRegistryEntry) : string * function :=
  (event (snd p), execute (snd p)).

(** *** Instance identifiers *)

Definition keyOfVisit (v : Visit) : string :=
  componentKeyOf (visit_path v) (visit_name v).

(** How many of the calls [vs] computed the key [key]. *)
Definition occurrences (key : string) (vs : list Visit) : nat :=
  length (List.filter (λ v, String.eqb (keyOfVisit v) key) vs).

(** The call [w] had the path and the name of the call [v]. *)
Definition samePair (v w : Visit) : bool :=
  bool_decide (visit_path w = visit_path v)
  && String.eqb (visit_name w) (visit_name v).

(** The counter table agrees with the history, and every call in the
    history was given the identifier that the number of earlier calls
    with its key calls for. *)
Definition Counted (st : State) : Prop :=
  (∀ key, default 0 (componentCounts st !! key) = occurrences key (visits st))
  ∧ (∀ i v, visits st !! i = Some v →
       visit_identifier v
       = instanceIdentifierOf (visit_name v)
           (occurrences (keyOfVisit v) (take i (visits st)))).

(** Every entry of the registry was filed by a call in the history, and
    its [path] is that call's path with its identifier at the end. *)
Definition Filed (st : State) : Prop :=
  Forall (λ p, ∃ v, v ∈ visits st
                    ∧ component (snd p) = visit_name v
                    ∧ path (snd p)
                      = join " > " (visit_path v ++ [visit_identifier v]))
         (actionRegistry st).

(** [s] holds a [>]. *)
Fixpoint has_gt (s : string) : bool :=
  match s with
  | EmptyString => false
  | String c s' => Ascii.eqb c ">" || has_gt s'
  end.

(** [s] is not empty and holds no [>]. *)
Definition plain (s : string) : bool := negb (is_empty s) && negb (has_gt s).

(** Every component name in the chain that starts at [node], and below
    it, is plain. *)
Fixpoint plainNames (node : FiberNode) : Prop :=
  match node with
  | Null => True
  | Fiber elementType _ _ _ child sibling =>
      plain (extractorDisplayName elementType) = true
      ∧ plainNames child ∧ plainNames sibling
  end.

(** The same of the tree handed to a pass: its root and everything below
    it. *)
Definition plainTree (root : FiberNode) : Prop :=
  match root with
  | Null => True
  | Fiber elementType _ _ _ child _ =>
      plain (extractorDisplayName elementType) = true ∧ plainNames child
  end.

Definition plainVisit (v : Visit) : Prop :=
  plain (visit_name v) = true ∧ Forall (λ x, plain x = true) (visit_path v).

(** The pieces of [s] between its [>]s. *)
Fixpoint pieces (s : string) : list string :=
  match s with
  | EmptyString => [EmptyString]
  | String c s' =>
      if Ascii.eqb c ">" then EmptyString :: pieces s'
      else match pieces s' with
           | [] => [String c EmptyString]
           | x :: xs => String c x :: xs
           end
  end.

(** *** Sample trees *)

Definition onClick_of_item : function :=
  Function_ "remove" "() => onDelete(task.id)" 1.

(** A list item with a [key] prop and a click handler. *)
Definition keyed_item : FiberNode :=
  Fiber (ETString "li")
        (Some [("key", VString "row-1"); ("onClick", VFunction onClick_of_item)])
        None None Null Null.

Definition onClick_of_row : function := Function_ "select" "() => select(row)" 2.

Definition row (sibling : FiberNode) : FiberNode :=
  Fiber (ETFunction EmptyString "Row")
        None (Some [("onClick", VFunction onClick_of_row)]) None Null sibling.

(** Two [Row]s, siblings, under a [div]. *)
Definition two_rows : FiberNode :=
  Fiber (ETString "div") None (Some []) None (row (row Null)) Null.

Definition onClick_of_entry : function := Function_ "open" "() => open()" 3.

(** A component whose display name is [Menu>Item], before a [Menu] that
    holds an [Item]. *)
Definition colliding_names : FiberNode :=
  Fiber (ETString "nav") None (Some []) None
    (Fiber (ETFunction "Menu>Item" "Wrapped")
           None (Some [("onClick", VFunction onClick_of_entry)]) None Null
       (Fiber (ETFunction EmptyString "Menu") None (Some []) None
          (Fiber (ETFunction EmptyString "Item")
                 None (Some [("onClick", VFunction onClick_of_entry)]) None
                 Null Null)
          Null))
    Null.

End ExtractorTerms.

(** ** Debounced re-indexing *)
Module ReindexingTerms.
Import JS Reindexing.

(** No timer is armed, or the one that is armed is the one the ref
    holds. *)
Definition OneTimer (s : State) : Prop :=
  pending s = []
  ∨ ∃ h due, pending s = [(h, due)] ∧ updateTimeoutRef s = Some h.

(** A burst that starts at [t]: each of the later batches qualifies and
    comes less than [delay] after the one before it. *)
Fixpoint burst (t : nat) (later : list (nat * list MutationRecord)) : Prop :=
  match later with
  | [] => True
  | (t', mutations) :: rest =>
      t ≤ t' ∧ t' < t + delay ∧ shouldUpdate mutations = true ∧ burst t' rest
  end.

(** The batches of a burst as events, and the time of its last batch. *)
Definition events_of (batches : list (nat * list MutationRecord)) : list Event :=
  map (λ b, Mutations (fst b) (snd b)) batches.

Definition last_time (t : nat) (later : list (nat * list MutationRecord)) : nat :=
  default t (last (map fst later)).

Definition added : MutationRecord := {| type := childList; tagName := "UL" |}.

Definition typed : MutationRecord := {| type := attributes; tagName := "INPUT" |}.

End ReindexingTerms.

(** ** Asking the completion endpoint *)
Module ResolverTerms.
Import JS LLMCommandBar.

(** The state in which the resolution starts once the body was read and
    the action id extracted. *)
Definition answered (st : State) : State :=
  setQuery EmptyString (setStatus Thinking (setLoading true st)).

(** A body of the shape the endpoint documents, with [content] as the
    first choice's message content. *)
Definition completion_body (content : value) : value :=
  VObject "Object"
    [("choices",
      VArray [VObject "Object"
                [("message", VObject "Object" [("content", content)])]])].

Definition quoted (s : string) : string :=
  String dquote s +:+ String dquote EmptyString.

(** The text of an object with [actionId] [action_3] and [parameters]
    holding [hello], the object, and a parser that knows this one text. *)
Definition sample_text : string :=
  "{" +:+ quoted "actionId" +:+ ":" +:+ quoted "action_3" +:+ ","
  +:+ quoted "parameters" +:+ ":[" +:+ quoted "hello" +:+ "]}".

Definition sample_object : value :=
  VObject "Object"
    [("actionId", VString "action_3"); ("parameters", VArray [VString "hello"])].

Definition sample_parse (s : string) : option value :=
  if String.eqb s sample_text then Some sample_object else None.

(** The text of an object whose [actionId] is [none], the object, and a
    parser that knows this one text. *)
Definition none_text : string :=
  "{" +:+ quoted "actionId" +:+ ":" +:+ quoted "none" +:+ "}".

Definition none_object : value := VObject "Object" [("actionId", VString "none")].

Definition none_parse (s : string) : option value :=
  if String.eqb s none_text then Some none_object else None.

Definition addTask : function := Function_ "handleAddTask" "(title) => add(title)" 4.

Definition action_3 : Langact.ActionRegistryEntry :=
  {| Langact.id := "action_3"; Langact.component := "button";
     Langact.event := "onClick"; Langact.path := "div > button";
     Langact.semanticId := EmptyString; Langact.identifyingProps := [];
     Langact.description := "onClick handler on button at div > button";
     Langact.execute := addTask;
     Langact.functionName := "handleAddTask";
     Langact.toString := "(title) => add(title)" |}.






(** The bar with a query typed into it and nothing sent yet. *)
Definition asked : State :=
  {| query := "add hello"; status := Empty; loading := false; invoked := [] |}.

End ResolverTerms.

(** ** The hook and the provider's map *)
Module HookTerms.
Import JS LangactContext UseAiAction.

(** No id is there twice, and every action is stored under its own
    id. *)
Definition Keyed (actions : list (string * AiAction)) : Prop :=
  NoDup (map fst actions) ∧ Forall (λ p, id (snd p) = fst p) actions.

Definition export_v1 : AiAction :=
  {| id := "doc.export"; description := "Export the document";
     handler := Function_ "exportDoc" "() => exportDoc()" 11 |}.

Definition export_v2 : AiAction :=
  {| id := "doc.export"; description := "Export the document as PDF";
     handler := Function_ "exportDoc" "() => exportDoc()" 12 |}.

Definition print : AiAction :=
  {| id := "doc.print"; description := "Print the document";
     handler := Function_ "printDoc" "() => printDoc()" 13 |}.

End HookTerms.

(** ** The scheduler, further *)
Module SchedulerTerms.
Import JS Reindexing.

(** A record the observer acts on: a change of the child list, or a
    change of an attribute of an input, a button or a select. *)
Definition qualifies (mutation : MutationRecord) : bool :=
  match type mutation with
  | childList => true
  | attributes => interactive (tagName mutation)
  | characterData => false
  end.

(** An event other than a render with new children. *)
Definition afterUnmount (e : Event) : bool :=
  match e with
  | Rerender _ => false
  | _ => true
  end.

Definition restyled : MutationRecord := {| type := attributes; tagName := "DIV" |}.

End SchedulerTerms.

(** ** The registry's entries *)
Module RegistryTerms.
Import JS Langact.

(** An entry hangs together: its event is a handler prop, its metadata
    are those of its function, and its description is made of its own
    event, component, semantic identifier and path. *)
Definition Consistent (entry : ActionRegistryEntry) : Prop :=
  startsWith (event entry) "on" = true
  ∧ functionName entry
    = (if is_empty (fn_name (execute entry)) then "anonymous"
       else fn_name (execute entry))
  ∧ toString entry = fn_source (execute entry)
  ∧ description entry
    = (event entry +:+ " handler on " +:+ component entry)
      +:+ (if is_empty (semanticId entry) then EmptyString
           else " " +:+ semanticId entry)
      +:+ " at " +:+ path entry.

(** The property [P] holds of every entry filed so far. *)
Definition Every (P : ActionRegistryEntry → Prop) (st : State) : Prop :=
  Forall (λ p, P (snd p)) (actionRegistry st).

End RegistryTerms.

(** ** The semantic structure *)
Module SemanticTerms.
Import JS Langact.

(** The component names of a structure, depth first. *)
Fixpoint namesOf (s : Semantic.SemanticStructure) : list string :=
  match s with
  | Semantic.Semantic component _ children _ _ _ =>
      component
      :: match children with
         | Some l => concat (map namesOf l)
         | None => []
         end
  end.

(** The actions a structure lists, depth first. *)
Fixpoint listedActions (s : Semantic.SemanticStructure) : list Semantic.Action :=
  match s with
  | Semantic.Semantic _ actions children _ _ _ =>
      default [] actions
      ++ match children with
         | Some l => concat (map listedActions l)
         | None => []
         end
  end.

(** Nowhere in the structure is there an [actions] or a [children] that
    is an empty array. *)
Fixpoint compact (s : Semantic.SemanticStructure) : bool :=
  match s with
  | Semantic.Semantic _ actions children _ _ _ =>
      match actions with Some [] => false | _ => true end
      && match children with
         | Some [] => false
         | Some l => forallb compact l
         | None => true
         end
  end.

(** The names the walker gives the nodes a loop started at [node] meets,
    depth first; and those of a tree. *)
Fixpoint walkedNames (node : FiberNode) : list string :=
  match node with
  | Null => []
  | Fiber elementType _ _ _ child sibling =>
      walkerDisplayName elementType :: walkedNames child ++ walkedNames sibling
  end.

Definition walkedNamesFrom (root : FiberNode) : list string :=
  match root with
  | Null => []
  | Fiber elementType _ _ _ child _ => walkerDisplayName elementType :: walkedNames child
  end.

(** No props object in the chain that starts at [node], or below it,
    has a key twice; and the same of a tree. *)
Fixpoint uniqueKeys (node : FiberNode) : Prop :=
  match node with
  | Null => True
  | Fiber _ props memoizedProps pendingProps child sibling =>
      NoDup (keys (propsSource props memoizedProps pendingProps))
      ∧ uniqueKeys child ∧ uniqueKeys sibling
  end.

Definition uniqueKeysFrom (root : FiberNode) : Prop :=
  match root with
  | Null => True
  | Fiber _ props memoizedProps pendingProps child _ =>
      NoDup (keys (propsSource props memoizedProps pendingProps)) ∧ uniqueKeys child
  end.

(** The event and the function name of a handler; of a listed action;
    of a registry entry. *)
Definition named_handler (h : string * function) : string * string :=
  (fst h, if is_empty (fn_name (snd h)) then "anonymous" else fn_name (snd h)).

Definition listed_handler (a : Semantic.Action) : string * string :=
  (Semantic.event a, Semantic.handler a).

Definition filed_handler (p : string * ActionRegistryEntry) : string * string :=
  (event (snd p), functionName (snd p)).

(** A form with a field and a button, each with a handler. *)
Definition onChange_of_field : function :=
  Function_ "handleChange" "(e) => setInputValue(e.target.value)" 21.

Definition onClick_of_button : function := Function_ EmptyString "() => add()" 22.

Definition small_form : FiberNode :=
  Fiber (ETString "form") None (Some [("className", VString "add-task")]) None
    (Fiber (ETString "input") None
           (Some [("type", VString "text");
                  ("onChange", VFunction onChange_of_field)]) None Null
       (Fiber (ETString "button") None
              (Some [("onClick", VFunction onClick_of_button);
                     ("children", VString "Add")]) None Null Null))
    Null.

End SemanticTerms.

(** ** The action map *)
Module ActionMapTerms.
Import JS JSText Langact.

(** Every character of [s] passes [f]. *)
Fixpoint all_chars (f : ascii → bool) (s : string) : bool :=
  match s with
  | EmptyString => true
  | String c s' => f c && all_chars f s'
  end.

Definition other_than (c : ascii) (a : ascii) : bool := negb (Ascii.eqb a c).

(** A parameter as plain as a name: not empty, and without white space,
    comma or closing parenthesis. *)
Definition plain_char (a : ascii) : bool :=
  negb (is_space a) && other_than "," a && other_than ")" a.

Definition plainParam (p : string) : bool :=
  negb (is_empty p) && all_chars plain_char p.

(** [s] starts with a character that is not white space. *)
Definition starts_dark (s : string) : bool :=
  match s with
  | EmptyString => false
  | String a _ => negb (is_space a)
  end.

(** An entry whose function has the given name and text. *)
Definition entry_with (name text : string) : ActionRegistryEntry :=
  {| id := "action_0"; component := "button"; event := "onClick";
     path := "button"; semanticId := EmptyString; identifyingProps := [];
     description := "onClick handler on button at button";
     execute := Function_ name text 31;
     functionName := name; toString := text |}.

End ActionMapTerms.

(** ** The task list *)
Module TodoListTerms.
Import JS TodoList.

(** No task of the list has the id [n]. *)
Definition fresh (n : N) (st : State) : Prop :=
  Forall (λ task, id task ≠ n) (tasks st).

End TodoListTerms.

(** * Properties *)

Module JSFacts.
Import JS.

Lemma assoc_get_set_eq {V : Type} (k : string) (v : V) (m : list (string * V)) :
  assoc_get k (assoc_set k v m) = Some v.
Proof.
  induction m as [|[k' v'] m IH]; simpl.
  - by rewrite String.eqb_refl.
  - destruct (String.eqb k k') eqn:E; simpl; rewrite ?String.eqb_refl, ?E; done.
Qed.

Lemma assoc_get_set_ne {V : Type} (k k' : string) (v : V) (m : list (string * V)) :
  k ≠ k' → assoc_get k' (assoc_set k v m) = assoc_get k' m.
Proof.
  intros Hne. induction m as [|[k0 v0] m IH]; simpl.
  - apply String.eqb_neq in Hne. rewrite String.eqb_sym in Hne. by rewrite Hne.
  - destruct (String.eqb k k0) eqn:E; simpl.
    + apply String.eqb_eq in E as <-.
      assert (String.eqb k' k = false) as -> by (apply String.eqb_neq; congruence).
      done.
    + by rewrite IH.
Qed.

Lemma assoc_set_present {V : Type} (k : string) (v : V) (m : list (string * V)) :
  is_Some (assoc_get k m) → map fst (assoc_set k v m) = map fst m.
Proof.
  induction m as [|[k' v'] m IH]; simpl.
  - by intros [? ?].
  - destruct (String.eqb k k') eqn:E; simpl.
    + apply String.eqb_eq in E as ->. done.
    + intros H. by rewrite IH.
Qed.

Lemma assoc_set_absent {V : Type} (k : string) (v : V) (m : list (string * V)) :
  assoc_get k m = None → assoc_set k v m = m ++ [(k, v)].
Proof.
  induction m as [|[k' v'] m IH]; simpl; [done|].
  destruct (String.eqb k k'); [done|]. intros H. by rewrite IH.
Qed.

Lemma assoc_delete_absent {V : Type} (k : string) (m : list (string * V)) :
  assoc_get k m = None → assoc_delete k m = m.
Proof.
  induction m as [|[k' v'] m IH]; simpl; [done|].
  destruct (String.eqb k k'); [done|]. intros H. by rewrite IH.
Qed.

Lemma assoc_get_None {V : Type} (k : string) (m : list (string * V)) :
  assoc_get k m = None ↔ k ∉ map fst m.
Proof.
  induction m as [|[k' v'] m IH]; simpl.
  - split; [intros _; apply not_elem_of_nil | done].
  - destruct (String.eqb k k') eqn:E.
    + apply String.eqb_eq in E as ->. split; [done|]. intros []. left.
    + apply String.eqb_neq in E. rewrite IH, not_elem_of_cons. tauto.
Qed.

End JSFacts.

(** ** Reversal and trimming *)
Module TextFacts.
Import JS JSText ResolverTerms.

Lemma app_cons (c : ascii) (a b : string) : String c a +:+ b = String c (a +:+ b).
Proof. reflexivity. Qed.

Lemma app_assoc (a b c : string) : (a +:+ b) +:+ c = a +:+ (b +:+ c).
Proof. induction a as [|x a IH]; [done|]. rewrite !app_cons. by rewrite IH. Qed.

Lemma app_empty_r (a : string) : a +:+ EmptyString = a.
Proof. induction a as [|x a IH]; [done|]. rewrite app_cons. by rewrite IH. Qed.

Lemma rev_app_spec (s acc : string) :
  String.rev_app s acc = String.rev_app s EmptyString +:+ acc.
Proof.
  revert acc. induction s as [|c s IH]; intros acc; [done|].
  simpl. rewrite IH, (IH (String c EmptyString)). by rewrite app_assoc.
Qed.

Lemma rev_cons (c : ascii) (s : string) :
  String.rev (String c s) = String.rev s +:+ String c EmptyString.
Proof. unfold String.rev. simpl. apply rev_app_spec. Qed.

Lemma rev_snoc (s : string) (c : ascii) :
  String.rev (s +:+ String c EmptyString) = String c (String.rev s).
Proof.
  induction s as [|a s IH]; [done|].
  rewrite app_cons, !rev_cons, IH. done.
Qed.

Lemma rev_involutive (s : string) : String.rev (String.rev s) = s.
Proof.
  induction s as [|a s IH]; [done|]. by rewrite rev_cons, rev_snoc, IH.
Qed.

(** A string that is not empty ends in a character. *)
Lemma last_char (s : string) :
  s ≠ EmptyString → ∃ body c, s = body +:+ String c EmptyString.
Proof.
  intros Hne. destruct (String.rev s) as [|c r] eqn:E.
  - exfalso. apply Hne. by rewrite <- (rev_involutive s), E.
  - exists (String.rev r), c. by rewrite <- (rev_involutive s), E, rev_cons.
Qed.

Lemma trimStart_fixed (c : ascii) (s : string) :
  is_space c = false → trimStart (String c s) = String c s.
Proof. intros H. simpl. by rewrite H. Qed.

Lemma trimEnd_fixed (s : string) (c : ascii) :
  is_space c = false →
  trimEnd (s +:+ String c EmptyString) = s +:+ String c EmptyString.
Proof.
  intros H. unfold trimEnd. rewrite rev_snoc, (trimStart_fixed _ _ H).
  by rewrite <- rev_snoc, rev_involutive.
Qed.

(** [trim] changes a string only if it starts or ends with white
    space. *)
Lemma trim_changes (s : string) :
  trim s ≠ s →
  (∃ c rest, s = String c rest ∧ is_space c = true)
  ∨ (∃ body c, s = body +:+ String c EmptyString ∧ is_space c = true).
Proof.
  intros Hne. destruct s as [|a s]; [done|].
  destruct (is_space a) eqn:Ha; [left; eauto|].
  destruct (last_char (String a s)) as (body & c & Hs); [done|].
  destruct (is_space c) eqn:Hc; [right; eauto|].
  exfalso. apply Hne. unfold trim. rewrite (trimStart_fixed _ _ Ha).
  rewrite Hs. by apply trimEnd_fixed.
Qed.

Lemma lower_char_space (c : ascii) : is_space c = true → lower_char c = c.
Proof.
  unfold is_space, lower_char. intros H.
  destruct (Nat.leb 65 (nat_of_ascii c) && Nat.leb (nat_of_ascii c) 90) eqn:E;
    [|done].
  exfalso. apply andb_prop in E as [E1%Nat.leb_le E2%Nat.leb_le].
  apply orb_prop in H as [H|H%Nat.eqb_eq]; [|lia].
  apply andb_prop in H as [H1%Nat.leb_le H2%Nat.leb_le]. lia.
Qed.

Lemma toLowerCase_app (a b : string) :
  toLowerCase (a +:+ b) = toLowerCase a +:+ toLowerCase b.
Proof.
  induction a as [|x a IH]; [done|]. rewrite app_cons. simpl.
  by rewrite IH.
Qed.

(** White space at the end of a string leaves an empty last piece. *)
Lemma split_from_trailing (s : string) (c : ascii) :
  is_space c = true →
  ∀ (cur : string) (in_sep : bool),
    (in_sep = true → cur = EmptyString) →
    EmptyString ∈ split_from (s +:+ String c EmptyString) cur in_sep.
Proof.
  intros Hc. induction s as [|a s IH]; intros cur in_sep Hinv.
  - change (EmptyString +:+ String c EmptyString) with (String c EmptyString).
    simpl. rewrite Hc. destruct in_sep.
    + rewrite (Hinv eq_refl). left.
    + right. left.
  - rewrite app_cons. simpl. destruct (is_space a).
    + destruct in_sep; [by apply IH|]. right. by apply IH.
    + by apply IH.
Qed.

Lemma padded_has_empty_piece (s : string) :
  trim s ≠ s → EmptyString ∈ split_ws (toLowerCase s).
Proof.
  intros [(c & rest & -> & Hc) | (body & c & -> & Hc)]%trim_changes.
  - simpl. rewrite (lower_char_space _ Hc). unfold split_ws. simpl.
    rewrite Hc. left.
  - rewrite toLowerCase_app. simpl. rewrite (lower_char_space _ Hc).
    apply split_from_trailing; [done|]. discriminate.
Qed.

Lemma includes_empty (s : string) : includes s EmptyString = true.
Proof. by destruct s. Qed.

Lemma rev_append (a b : string) :
  String.rev (a +:+ b) = String.rev b +:+ String.rev a.
Proof.
  induction a as [|x a IH].
  - change (EmptyString +:+ b) with b. by rewrite app_empty_r.
  - by rewrite app_cons, !rev_cons, IH, app_assoc.
Qed.






End TextFacts.

(** ** The registration context *)
Module LangactContextFacts.
Import JS JSFacts LangactContext ContextTerms.

(** C9.  Registering an action under an id that is present replaces the
    entry of that id by the new action, in place: the id now reads as the
    new action, every other id reads as before, and the ids and their
    order are the same.  Unregistering an id that is absent gives back a
    map equal to the one before. *)
Theorem register_overwrites_unregister_absent_noop
    (actions : list (string * AiAction)) :
  (∀ action : AiAction,
     is_Some (assoc_get (id action) actions) →
     assoc_get (id action) (registerAction action actions) = Some action
     ∧ (∀ k, k ≠ id action →
          assoc_get k (registerAction action actions) = assoc_get k actions)
     ∧ map fst (registerAction action actions) = map fst actions)
  ∧ (∀ k : string,
       assoc_get k actions = None → unregisterAction k actions = actions).
Proof.
  split.
  - intros action Hpresent. unfold registerAction. split; [|split].
    + apply assoc_get_set_eq.
    + intros k Hk. apply assoc_get_set_ne. congruence.
    + by apply assoc_set_present.
  - intros k Habsent. by apply assoc_delete_absent.
Qed.

Lemma register_overwrites_witness :
  is_Some (assoc_get (id save_v2) [("user.save", save_v1); ("app.quit", quit)])
  ∧ registerAction save_v2 [("user.save", save_v1); ("app.quit", quit)]
    = [("user.save", save_v2); ("app.quit", quit)]
  ∧ assoc_get "user.save"
      (registerAction save_v2 [("user.save", save_v1); ("app.quit", quit)])
    = Some save_v2
  ∧ unregisterAction "missing" [("user.save", save_v1); ("app.quit", quit)]
    = [("user.save", save_v1); ("app.quit", quit)].
Proof.
  destruct (register_overwrites_unregister_absent_noop
              [("user.save", save_v1); ("app.quit", quit)]) as [Hreg Hunreg].
  assert (is_Some (assoc_get (id save_v2)
                     [("user.save", save_v1); ("app.quit", quit)])) as Hpresent
    by (by eexists).
  split; [exact Hpresent|]. split; [reflexivity|]. split.
  - exact (proj1 (Hreg save_v2 Hpresent)).
  - apply Hunreg. reflexivity.
Defined.

End LangactContextFacts.

(** ** Keyword scoring *)
Module CommandBarFacts.
Import JS JSFacts LangactContext CommandBar ScoringTerms.

Lemma scoreOf_from (d : string) (ws : list string) (n : nat) :
  foldl (λ currentScore word,
           if includes d word then S currentScore else currentScore) n ws
  = n + length (List.filter (includes d) ws).
Proof.
  revert n. induction ws as [|w ws IH]; intros n; simpl; [lia|].
  rewrite IH. destruct (includes d w); simpl; lia.
Qed.

Lemma scoreOf_overlap (command : string) (action : AiAction) :
  scoreOf (toLowerCase (description action)) (split_ws (toLowerCase command))
  = overlap command action.
Proof. unfold scoreOf, overlap. by rewrite scoreOf_from. Qed.

Lemma first_max_unique (score : AiAction → nat) (vs : list AiAction)
    (i i' : nat) (a a' : AiAction) :
  first_max score vs i a → first_max score vs i' a' → i = i' ∧ a = a'.
Proof.
  intros (Hi & _ & Hmax & Hbefore) (Hi' & _ & Hmax' & Hbefore').
  destruct (Nat.lt_trichotomy i i') as [Hlt | [-> | Hlt]].
  - pose proof (Hbefore' _ _ Hlt Hi).
    pose proof (Hmax a' (list_elem_of_lookup_2 _ _ _ Hi')). lia.
  - split; [done|congruence].
  - pose proof (Hbefore _ _ Hlt Hi').
    pose proof (Hmax' a (list_elem_of_lookup_2 _ _ _ Hi)). lia.
Qed.

(** What the outer loop has found after any number of rounds. *)
Lemma loop_finds_first_max (ws : list string) (vs : list AiAction) :
  let score a := scoreOf (toLowerCase (description a)) ws in
  (foldl (consider ws) (None, 0) vs = (None, 0) ∧ ∀ b, b ∈ vs → score b = 0)
  ∨ ∃ i a, foldl (consider ws) (None, 0) vs = (Some a, score a)
           ∧ first_max score vs i a.
Proof.
  intros score. induction vs as [|x vs IH] using rev_ind.
  - left. split; [done|]. intros b Hb. by apply elem_of_nil in Hb.
  - rewrite foldl_app. simpl.
    destruct IH as [[-> Hzero] | (i & a & -> & Hi & Hpos & Hmax & Hbefore)];
      unfold consider; simpl; fold (score x).
    + destruct (Nat.ltb_spec 0 (score x)) as [Hx | Hx].
      * right. exists (length vs), x. split; [done|]. repeat split.
        -- by rewrite lookup_app_r, Nat.sub_diag.
        -- done.
        -- intros b [Hb | Hb%list_elem_of_singleton]%elem_of_app.
           ++ rewrite (Hzero b Hb). lia.
           ++ by subst.
        -- intros j b Hj Hb. rewrite lookup_app_l in Hb by done.
           rewrite (Hzero b (list_elem_of_lookup_2 _ _ _ Hb)). done.
      * left. split; [done|].
        intros b [Hb | Hb%list_elem_of_singleton]%elem_of_app; [auto|].
        subst. lia.
    + destruct (Nat.ltb_spec (score a) (score x)) as [Hx | Hx].
      * right. exists (length vs), x. split; [done|]. repeat split.
        -- by rewrite lookup_app_r, Nat.sub_diag.
        -- lia.
        -- intros b [Hb | Hb%list_elem_of_singleton]%elem_of_app.
           ++ pose proof (Hmax b Hb). lia.
           ++ by subst.
        -- intros j b Hj Hb. rewrite lookup_app_l in Hb by done.
           pose proof (Hmax b (list_elem_of_lookup_2 _ _ _ Hb)). lia.
      * right. exists i, a. split; [done|]. repeat split.
        -- apply lookup_app_l_Some. done.
        -- done.
        -- intros b [Hb | Hb%list_elem_of_singleton]%elem_of_app; [auto|].
           by subst.
        -- intros j b Hj Hb.
           assert (i < length vs) by (by eapply lookup_lt_Some).
           rewrite lookup_app_l in Hb by lia. eauto.
Qed.

Lemma findBest_none (actions : list (string * AiAction)) (command : string) :
  (∀ b, b ∈ values actions → overlap command b = 0) →
  fst (findBest actions command) = None.
Proof.
  intros Hzero. unfold findBest.
  destruct (loop_finds_first_max (split_ws (toLowerCase command)) (values actions))
    as [[-> _] | (i & a & _ & Hi & Hpos & _)]; [done|].
  rewrite scoreOf_overlap in Hpos.
  rewrite (Hzero a (list_elem_of_lookup_2 _ _ _ Hi)) in Hpos. lia.
Qed.

Lemma findBest_first_max (actions : list (string * AiAction)) (command : string)
    (i : nat) (action : AiAction) :
  first_max (overlap command) (values actions) i action →
  fst (findBest actions command) = Some action.
Proof.
  intros Hfirst. unfold findBest.
  destruct (loop_finds_first_max (split_ws (toLowerCase command)) (values actions))
    as [[_ Hzero] | (i' & a' & -> & Hfirst')].
  - destruct Hfirst as (Hi & Hpos & _).
    pose proof (Hzero _ (list_elem_of_lookup_2 _ _ _ Hi)) as Hz.
    rewrite scoreOf_overlap in Hz. lia.
  - simpl. f_equal.
    assert (first_max (overlap command) (values actions) i' a') as Hfirst''.
    { destruct Hfirst' as (H1 & H2 & H3 & H4).
      repeat split; [done|by rewrite <- scoreOf_overlap|..].
      - intros b Hb. rewrite <- !scoreOf_overlap. by apply H3.
      - intros j b Hj Hb. rewrite <- !scoreOf_overlap. by eapply H4. }
    by destruct (first_max_unique _ _ _ _ _ _ Hfirst'' Hfirst).
Qed.

Lemma xyz123_pieces : split_ws (toLowerCase "xyz123") = ["xyz123"].
Proof. reflexivity. Qed.

(** C2, as the code has it.  For a command that is not blank: the score
    of an action is [overlap]; when every action scores zero the status
    becomes the fixed answer and nothing else changes; otherwise there is
    a first action with the greatest score, its handler is called with no
    arguments, the status quotes its description, and the query is
    emptied once the handler has returned.  The command [delete
    groceries] selects the groceries action of the two-task set, in either
    order; the command [xyz123] matches nothing in a set none of whose
    lower-cased descriptions contains it. *)
Theorem local_scoring (call : function → list value → completion) :
  (∀ (actions : list (string * AiAction)) (command : string) (st : State),
     blank command = false →
     (∀ action,
        scoreOf (toLowerCase (description action)) (split_ws (toLowerCase command))
        = overlap command action)
     ∧ ((∀ b, b ∈ values actions → overlap command b = 0)
        ∨ ∃ i action, first_max (overlap command) (values actions) i action)
     ∧ ((∀ b, b ∈ values actions → overlap command b = 0) →
        findAndExecuteAction call (Some actions) command st
        = ({| query := query st; status := unknown_status; invoked := invoked st |},
           Returns))
     ∧ (∀ i action,
          first_max (overlap command) (values actions) i action →
          status (fst (findAndExecuteAction call (Some actions) command st))
          = executing_status (description action)
          ∧ invoked (fst (findAndExecuteAction call (Some actions) command st))
            = invoked st ++ [(handler action, [])]
          ∧ snd (findAndExecuteAction call (Some actions) command st)
            = call (handler action) []
          ∧ (call (handler action) [] = Returns →
             query (fst (findAndExecuteAction call (Some actions) command st))
             = EmptyString)))
  ∧ (∀ (i1 i2 : string) (h1 h2 : function) (actions : list (string * AiAction))
       (st : State),
       actions = [(i1, groceries i1 h1); (i2, dog i2 h2)]
       ∨ actions = [(i2, dog i2 h2); (i1, groceries i1 h1)] →
       status (fst (findAndExecuteAction call (Some actions) "delete groceries" st))
       = executing_status "delete task 'Buy groceries'"
       ∧ invoked (fst (findAndExecuteAction call (Some actions) "delete groceries" st))
         = invoked st ++ [(h1, [])])
  ∧ (∀ (actions : list (string * AiAction)) (st : State),
       (∀ b, b ∈ values actions →
             includes (toLowerCase (description b)) "xyz123" = false) →
       findAndExecuteAction call (Some actions) "xyz123" st
       = ({| query := query st; status := unknown_status; invoked := invoked st |},
          Returns)).
Proof.
  split; [|split].
  - intros actions command st Hblank. split; [|split; [|split]].
    + intros action. apply scoreOf_overlap.
    + unfold findBest.
      destruct (loop_finds_first_max (split_ws (toLowerCase command))
                                     (values actions))
        as [[_ Hzero] | (i & a & _ & H1 & H2 & H3 & H4)].
      * left. intros b Hb. rewrite <- scoreOf_overlap. by apply Hzero.
      * right. exists i, a. repeat split; [done|by rewrite <- scoreOf_overlap|..].
        -- intros b Hb. rewrite <- !scoreOf_overlap. by apply H3.
        -- intros j b Hj Hb. rewrite <- !scoreOf_overlap. by eapply H4.
    + intros Hzero. unfold findAndExecuteAction.
      by rewrite Hblank, (findBest_none _ _ Hzero).
    + intros i action Hfirst. unfold findAndExecuteAction.
      rewrite Hblank, (findBest_first_max _ _ _ _ Hfirst).
      destruct (call (handler action) []) eqn:Hcall; simpl; repeat split; done.
  - intros i1 i2 h1 h2 actions st [-> | ->]; unfold findAndExecuteAction;
      simpl; destruct (call h1 []); done.
  - intros actions st Hno. unfold findAndExecuteAction.
    change (blank "xyz123") with false. cbv iota.
    rewrite findBest_none; [done|].
    intros b Hb. unfold overlap. rewrite xyz123_pieces. simpl.
    by rewrite (Hno b Hb).
Qed.

Lemma local_scoring_witness :
  blank "add" = false
  ∧ first_max (overlap "add") (values [("task.add", add_task)]) 0 add_task
  ∧ query (fst (findAndExecuteAction (λ _ _, Returns)
                  (Some [("task.add", add_task)]) "add" typed_in)) = EmptyString.
Proof.
  assert (first_max (overlap "add") (values [("task.add", add_task)]) 0 add_task)
    as Hfirst.
  { repeat split.
    - vm_compute. lia.
    - intros b Hb%list_elem_of_singleton. by subst.
    - intros j b Hj. lia. }
  split; [reflexivity|]. split; [exact Hfirst|].
  destruct (local_scoring (λ _ _, Returns)) as [Hgeneral _].
  destruct (Hgeneral [("task.add", add_task)] "add" typed_in eq_refl)
    as (_ & _ & _ & Hmatch).
  destruct (Hmatch 0 add_task Hfirst) as (_ & _ & _ & Hquery).
  by apply Hquery.
Defined.

(** The command [xyz123] does match an action whose description contains
    it: the status is not the fixed answer, and the handler is called. *)
Lemma xyz123_matches_a_description_that_contains_it :
  findAndExecuteAction (λ _ _, Returns) (Some [("job.run", run_job)]) "xyz123" typed_in
  = ({| query := EmptyString;
        status := executing_status "Run job XYZ123";
        invoked := [(handler run_job, [])] |}, Returns)
  ∧ executing_status "Run job XYZ123" ≠ unknown_status.
Proof. split; [reflexivity|discriminate]. Qed.

(** When the handler throws, the exception leaves the function before
    the query is emptied. *)
Lemma throwing_handler_keeps_the_query :
  findAndExecuteAction (λ _ _, Throws (VString "boom"))
                       (Some [("task.add", add_task)]) "add" typed_in
  = ({| query := "typed";
        status := executing_status "Add a new task";
        invoked := [(handler add_task, [])] |}, Throws (VString "boom")).
Proof. reflexivity. Qed.

End CommandBarFacts.

(** ** Tree walker *)
Module WalkerFacts.
Import JS JSFacts Langact WalkerTerms.

(** *** The loop over the props *)

(** Once an iteration has raised, the loop is over. *)
Lemma copy_loop_raised (invoke : function → list value → result value)
    (source : list (string * value)) (ks : list string) (e : error) :
  foldl (λ acc key, bind acc (λ props, copyProp invoke source props key))
        (Raise e) ks
  = Raise e.
Proof. induction ks as [|k ks IH]; [done|]. exact IH. Qed.

(** Without a property named [hasOwnProperty] every key passes the
    test, and no function is called. *)
Lemma copy_loop_unshadowed (invoke : function → list value → result value)
    (source : list (string * value)) (ks : list string) :
  unshadowed source →
  ∀ acc,
    foldl (λ acc key, bind acc (λ props, copyProp invoke source props key))
          (Ok acc) ks
    = Ok (foldl (λ props key, store key (normalize (prop_get source key)) props)
                acc ks).
Proof.
  intros Hplain. induction ks as [|k ks IH]; intros acc; [done|].
  cbn [foldl bind]. unfold copyProp at 2, hasOwnProperty.
  rewrite Hplain. cbn [bind]. apply IH.
Qed.

Lemma normalizeProps_unshadowed (invoke : function → list value → result value)
    (source : list (string * value)) :
  unshadowed source → normalizeProps invoke source = Ok (storedProps source).
Proof. intros H. unfold normalizeProps. by rewrite copy_loop_unshadowed. Qed.

(** What the loop leaves under a key when every key passes, for any
    keys and any object built so far. *)
Lemma store_loop_get (source : list (string * value)) (ks : list string)
    (acc : list (string * Normalized)) (k : string) :
  assoc_get k
    (foldl (λ props key, store key (normalize (prop_get source key)) props) acc ks)
  = if bool_decide (k ∈ ks) && negb (String.eqb k "__proto__")
    then Some (normalize (prop_get source k))
    else assoc_get k acc.
Proof.
  revert acc. induction ks as [|k0 ks IH]; intros acc; [done|].
  cbn [foldl]. rewrite IH. destruct (decide (k ∈ ks)) as [Hin | Hnin].
  - rewrite (bool_decide_eq_true_2 _ Hin).
    rewrite (bool_decide_eq_true_2 (k ∈ k0 :: ks)) by (by right). cbn [andb].
    destruct (String.eqb k "__proto__") eqn:Hk; cbn [negb]; [|done].
    apply String.eqb_eq in Hk as ->. unfold store.
    destruct (String.eqb k0 "__proto__") eqn:Hk0; [done|].
    apply assoc_get_set_ne. intros ->. by rewrite String.eqb_refl in Hk0.
  - rewrite (bool_decide_eq_false_2 _ Hnin). cbn [andb].
    destruct (decide (k = k0)) as [-> | Hne].
    + rewrite bool_decide_eq_true_2 by left. cbn [andb]. unfold store.
      destruct (String.eqb k0 "__proto__"); cbn [negb];
        [done|apply assoc_get_set_eq].
    + rewrite bool_decide_eq_false_2 by (rewrite not_elem_of_cons; done).
      cbn [andb]. unfold store.
      destruct (String.eqb k0 "__proto__"); [done|].
      apply assoc_get_set_ne. congruence.
Qed.

Lemma storedProps_get (source : list (string * value)) (k : string) :
  assoc_get k (storedProps source)
  = if String.eqb k "__proto__" then None else normalize <$> assoc_get k source.
Proof.
  unfold storedProps. rewrite store_loop_get. unfold keys, prop_get.
  destruct (assoc_get k source) as [v|] eqn:Hget; simpl.
  - rewrite bool_decide_eq_true_2.
    + by destruct (String.eqb k "__proto__").
    + destruct (decide (k ∈ map fst source)) as [|Hnin]; [done|].
      apply assoc_get_None in Hnin. congruence.
  - rewrite bool_decide_eq_false_2 by (by apply assoc_get_None).
    by destruct (String.eqb k "__proto__").
Qed.

(** A property named [hasOwnProperty] that is not a function makes the
    first iteration raise. *)
Lemma normalizeProps_raises (invoke : function → list value → result value)
    (source : list (string * value)) (v : value) :
  assoc_get "hasOwnProperty" source = Some v →
  (∀ f, v ≠ VFunction f) →
  normalizeProps invoke source = Raise TypeError.
Proof.
  intros Hown Hv. unfold normalizeProps.
  destruct source as [|[k0 v0] source]; [done|].
  set (step := λ acc key,
         bind acc (λ props, copyProp invoke ((k0, v0) :: source) props key)).
  unfold keys. cbn [map fst foldl].
  assert (step (Ok []) k0 = Raise TypeError) as ->.
  { unfold step, copyProp, hasOwnProperty. cbn [bind]. rewrite Hown.
    destruct v; try done. by destruct (Hv f). }
  unfold step. apply copy_loop_raised.
Qed.

(** A property named [hasOwnProperty] that is a function is asked
    about every key, and a key it denies is not stored. *)
Lemma copy_loop_denied (invoke : function → list value → result value)
    (source : list (string * value)) (f : function) (ks : list string) :
  assoc_get "hasOwnProperty" source = Some (VFunction f) →
  (∀ key, ∃ answer, invoke f [VString key] = Ok answer ∧ truthy answer = false) →
  ∀ acc,
    foldl (λ acc key, bind acc (λ props, copyProp invoke source props key))
          (Ok acc) ks
    = Ok acc.
Proof.
  intros Hown Hdeny. induction ks as [|k ks IH]; intros acc; [done|].
  cbn [foldl bind]. unfold copyProp at 2, hasOwnProperty. rewrite Hown.
  destruct (Hdeny k) as (answer & -> & Hfalse). cbn [bind]. rewrite Hfalse.
  apply IH.
Qed.

(** *** The loop over the children *)

(** The loop of [fiberToComponentTree] as the source writes it: when
    it comes to an end, each node of the chain was converted, and what
    was pushed are the conversions. *)
Lemma childrenFrom_chain (invoke : function → list value → result value)
    (node : FiberNode) :
  ∀ cs, childrenFrom invoke node = Ok cs →
        (λ c, Ok (Some c)) <$> cs
        = fiberToComponentTree invoke <$> siblingChain node.
Proof.
  induction node as [|et p m pp child _ sibling IH]; intros cs.
  - intros [= <-]. done.
  - cbn [childrenFrom siblingChain fmap list_fmap fiberToComponentTree].
    destruct (normalizeProps invoke (propsSource p m pp)) as [stored|e];
      [|done].
    cbn [bind].
    destruct (childrenFrom invoke child) as [children|e]; [|done].
    cbn [bind].
    destruct (childrenFrom invoke sibling) as [rest|e]; [|done].
    cbn [bind]. intros [= <-]. cbn [fmap list_fmap]. f_equal. by apply IH.
Qed.

Lemma childrenFrom_returns (invoke : function → list value → result value)
    (node : FiberNode) :
  unshadowedChain node → ∃ cs, childrenFrom invoke node = Ok cs.
Proof.
  induction node as [|et p m pp child IHc sibling IHs]; [by eexists|].
  intros (Hplain & Hc & Hs). cbn [childrenFrom].
  rewrite (normalizeProps_unshadowed _ _ Hplain). cbn [bind].
  destruct (IHc Hc) as [children ->]. destruct (IHs Hs) as [rest ->].
  by eexists.
Qed.

Lemma fiberToComponentTree_returns (invoke : function → list value → result value)
    (root : FiberNode) :
  unshadowedFrom root → ∃ r, fiberToComponentTree invoke root = Ok r.
Proof.
  destruct root as [|et p m pp child sibling]; [by eexists|].
  intros (Hplain & Hc). cbn [fiberToComponentTree].
  rewrite (normalizeProps_unshadowed _ _ Hplain). cbn [bind].
  destruct (childrenFrom_returns invoke child Hc) as [children ->].
  by eexists.
Qed.

(** C5, as the code has it.  The walker answers [null] for [null],
    without an exception, and for nothing else.  When it answers with a
    tree, the children of the tree are the conversions of the nodes met
    from the node's [child] along [sibling], one for each, in that order.
    It does answer when no props object it reads has a property named
    [hasOwnProperty]; it raises a [TypeError] at a node whose props have
    such a property that is not a function. *)
Theorem walker_null_iff_and_children
    (invoke : function → list value → result value) (T : FiberNode) :
  (fiberToComponentTree invoke T = Ok None ↔ T = Null)
  ∧ (∀ t, fiberToComponentTree invoke T = Ok (Some t) →
          (λ c, Ok (Some c)) <$> ct_children t
          = fiberToComponentTree invoke <$> siblingChain (childOf T)
          ∧ length (ct_children t) = length (siblingChain (childOf T)))
  ∧ (unshadowedFrom T → ∃ r, fiberToComponentTree invoke T = Ok r)
  ∧ (∀ elementType props memoizedProps pendingProps child sibling v,
       T = Fiber elementType props memoizedProps pendingProps child sibling →
       assoc_get "hasOwnProperty" (propsSource props memoizedProps pendingProps)
       = Some v →
       (∀ f, v ≠ VFunction f) →
       fiberToComponentTree invoke T = Raise TypeError).
Proof.
  split; [|split; [|split]].
  - destruct T as [|et p m pp child sibling]; [done|].
    split; [|done]. cbn [fiberToComponentTree].
    destruct (normalizeProps invoke (propsSource p m pp)); [|done]. cbn [bind].
    by destruct (childrenFrom invoke child).
  - intros t. destruct T as [|et p m pp child sibling]; [done|].
    cbn [fiberToComponentTree childOf].
    destruct (normalizeProps invoke (propsSource p m pp)) as [stored|e];
      [|done].
    cbn [bind].
    destruct (childrenFrom invoke child) as [children|e] eqn:Hc; [|done].
    cbn [bind]. intros [= <-]. cbn [ct_children].
    pose proof (childrenFrom_chain invoke child children Hc) as Hchain.
    split; [exact Hchain|].
    rewrite <- (length_fmap (λ c, Ok (Some c))), Hchain. by rewrite length_fmap.
  - apply fiberToComponentTree_returns.
  - intros et p m pp child sibling v -> Hown Hv. cbn [fiberToComponentTree].
    by rewrite (normalizeProps_raises invoke _ v Hown Hv).
Qed.

Lemma walker_children_witness :
  unshadowedFrom list_of_three
  ∧ ∃ t, fiberToComponentTree silent list_of_three = Ok (Some t)
         ∧ length (ct_children t) = 3.
Proof.
  assert (unshadowedFrom list_of_three) as Hplain by (by repeat split).
  split; [exact Hplain|].
  destruct (walker_null_iff_and_children silent list_of_three)
    as (_ & Hchildren & _).
  eexists. split; [reflexivity|].
  destruct (Hchildren _ eq_refl) as [_ Hlen]. rewrite Hlen. reflexivity.
Defined.

(** The node with a prop named [hasOwnProperty] that is an object: the
    walker raises, whatever functions do. *)
Lemma walker_raises_on_shadowed_props :
  shadowed_by_object ≠ Null
  ∧ fiberToComponentTree silent shadowed_by_object = Raise TypeError
  ∧ fiberToComponentTree denying shadowed_by_object = Raise TypeError.
Proof. split; [discriminate|]. split; reflexivity. Qed.

(** C4, as the code has it.  The props the walker reads are the first
    of [props], [memoizedProps], [pendingProps] that is there at all, with
    or without properties, and no props when none is; what the answer
    holds as props is what the loop over them stores.  When they have no
    property named [hasOwnProperty] the loop does not fail, and under
    every key other than [__proto__] it stores the normalized value of
    the prop: for a function its name ([anonymous] when it has none) and
    its whole text; for an object the name of its constructor ([Object]
    when it has none) and its keys, whatever the values under them; a
    primitive as it is; under [__proto__] it stores nothing.  When they
    have such a property, the loop raises if it is not a function, and
    stores no prop that the function denies. *)
Theorem walker_props (invoke : function → list value → result value)
    (elementType : ElementType)
    (props memoizedProps pendingProps : option (list (string * value)))
    (child sibling : FiberNode) :
  let source := firstPresent [props; memoizedProps; pendingProps] in
  let node := Fiber elementType props memoizedProps pendingProps child sibling in
  (∀ t, fiberToComponentTree invoke node = Ok (Some t) →
        normalizeProps invoke source = Ok (ct_props t))
  ∧ (unshadowed source →
     ∃ stored,
       normalizeProps invoke source = Ok stored
       ∧ (∀ key, key ≠ "__proto__" →
            assoc_get key stored = normalize <$> assoc_get key source)
       ∧ (∀ key f, key ≠ "__proto__" →
            assoc_get key source = Some (VFunction f) →
            assoc_get key stored
            = Some (NFunction
                      (if is_empty (fn_name f) then "anonymous" else fn_name f)
                      (fn_source f)))
       ∧ (∀ key ctor fields, key ≠ "__proto__" →
            assoc_get key source = Some (VObject ctor fields) →
            assoc_get key stored
            = Some (NObject (if is_empty ctor then "Object" else ctor)
                            (map fst fields)))
       ∧ assoc_get "__proto__" stored = None)
  ∧ (unshadowedFrom node → ∃ t, fiberToComponentTree invoke node = Ok (Some t))
  ∧ (∀ ctor fields fields', map fst fields = map fst fields' →
       normalize (VObject ctor fields) = normalize (VObject ctor fields'))
  ∧ (∀ v, assoc_get "hasOwnProperty" source = Some v →
          (∀ f, v ≠ VFunction f) →
          normalizeProps invoke source = Raise TypeError
          ∧ fiberToComponentTree invoke node = Raise TypeError)
  ∧ (∀ f, assoc_get "hasOwnProperty" source = Some (VFunction f) →
          (∀ key, ∃ answer,
             invoke f [VString key] = Ok answer ∧ truthy answer = false) →
          normalizeProps invoke source = Ok []).
Proof.
  intros source node.
  assert (propsSource props memoizedProps pendingProps = source) as Hsource.
  { by destruct props, memoizedProps, pendingProps. }
  split; [|split; [|split; [|split; [|split]]]].
  - intros t. unfold node. cbn [fiberToComponentTree]. rewrite Hsource.
    destruct (normalizeProps invoke source) as [stored|e]; [|done]. cbn [bind].
    destruct (childrenFrom invoke child); [|done]. cbn [bind].
    by intros [= <-].
  - intros Hplain. exists (storedProps source).
    split; [by apply normalizeProps_unshadowed|].
    assert (∀ key, key ≠ "__proto__" →
              assoc_get key (storedProps source)
              = normalize <$> assoc_get key source) as Hget.
    { intros key Hkey. rewrite storedProps_get.
      apply String.eqb_neq in Hkey. by rewrite Hkey. }
    split; [exact Hget|]. split; [|split].
    + intros key f Hkey Hf. by rewrite Hget, Hf.
    + intros key ctor fields Hkey Hf. by rewrite Hget, Hf.
    + by rewrite storedProps_get.
  - intros Hplain.
    destruct (fiberToComponentTree_returns invoke node Hplain) as [r Hr].
    destruct r as [t|]; [by exists t|].
    exfalso. revert Hr. unfold node. cbn [fiberToComponentTree].
    destruct (normalizeProps invoke (propsSource props memoizedProps pendingProps));
      [|done].
    cbn [bind]. by destruct (childrenFrom invoke child).
  - intros ctor fields fields' Hkeys. simpl. unfold keys. by rewrite Hkeys.
  - intros v Hown Hv.
    pose proof (normalizeProps_raises invoke source v Hown Hv) as Hraise.
    split; [exact Hraise|]. unfold node. cbn [fiberToComponentTree].
    by rewrite Hsource, Hraise.
  - intros f Hown Hdeny. unfold normalizeProps.
    by apply (copy_loop_denied invoke source f).
Qed.

(** The first prop set that is there is taken even when it is empty: the
    properties of the second one are not read. *)
Lemma empty_first_source_is_taken :
  fiberToComponentTree silent stale_props = Ok (Some (Component "div" [] []))
  ∧ fiberToComponentTree silent stale_props
    ≠ Ok (Some (Component "div" [("title", NPrimitive (VString "x"))] [])).
Proof. split; [reflexivity|discriminate]. Qed.

(** A prop named [hasOwnProperty] that is a function and answers
    [false]: the walker stores no prop of the node, not even the click
    handler. *)
Example denied_props_are_not_stored :
  fiberToComponentTree denying shadowed_by_function
  = Ok (Some (Component "button" [] [])).
Proof. reflexivity. Qed.

End WalkerFacts.

(** ** Action extractor *)
Module ExtractorFacts.
Import JS JSFacts Langact ExtractorTerms.

(** *** The semantic identifier *)

Lemma identifying_loop_get (source : list (string * value)) (names : list string)
    (acc : list (string * value)) (k : string) :
  assoc_get k
    (foldl (λ identifyingProps prop,
              if defined (prop_get source prop)
              then assoc_set prop (prop_get source prop) identifyingProps
              else identifyingProps) acc names)
  = if bool_decide (k ∈ names) && defined (prop_get source k)
    then Some (prop_get source k)
    else assoc_get k acc.
Proof.
  revert acc. induction names as [|n names IH]; intros acc; simpl; [done|].
  rewrite IH. destruct (decide (k ∈ names)) as [Hin | Hnin].
  - rewrite (bool_decide_eq_true_2 _ Hin).
    rewrite (bool_decide_eq_true_2 (k ∈ n :: names)) by (by right). simpl.
    destruct (defined (prop_get source k)) eqn:Hk; [done|].
    destruct (defined (prop_get source n)) eqn:Hn; [|done].
    apply assoc_get_set_ne. intros ->. congruence.
  - rewrite (bool_decide_eq_false_2 _ Hnin). simpl.
    destruct (decide (k = n)) as [-> | Hne].
    + rewrite bool_decide_eq_true_2 by left. simpl.
      destruct (defined (prop_get source n)); [apply assoc_get_set_eq|done].
    + rewrite bool_decide_eq_false_2 by (rewrite not_elem_of_cons; done). simpl.
      destruct (defined (prop_get source n)); [|done].
      apply assoc_get_set_ne. congruence.
Qed.

(** The identifying props hold the six names the source lists, each with
    the value the node's props have for it, and nothing else. *)
Lemma identifyingPropsOf_get (source : list (string * value)) (k : string) :
  prop_get (identifyingPropsOf source) k
  = if bool_decide (k ∈ identifyingNames) then prop_get source k else VUndefined.
Proof.
  unfold prop_get at 1. unfold identifyingPropsOf.
  rewrite identifying_loop_get. simpl.
  destruct (bool_decide (k ∈ identifyingNames)); simpl; [|done].
  by destruct (prop_get source k).
Qed.

(** The precedence that is in force: [num], [index], a truthy [id], the
    instance number.  The branch for [key] is never taken. *)
Lemma semanticId_precedence (source : list (string * value)) (instanceNumber : nat) :
  semanticIdOf (identifyingPropsOf source) instanceNumber
  = if defined (prop_get source "num") then tagged "num" (prop_get source "num")
    else if defined (prop_get source "index")
    then tagged "index" (prop_get source "index")
    else if truthy (prop_get source "id") then tagged "id" (prop_get source "id")
    else if Nat.ltb 0 instanceNumber
    then "[instance=" +:+ pretty instanceNumber +:+ "]"
    else EmptyString.
Proof.
  unfold semanticIdOf. rewrite !identifyingPropsOf_get.
  rewrite !bool_decide_eq_true_2 by (unfold identifyingNames; listed).
  rewrite (bool_decide_eq_false_2 ("key" ∈ identifyingNames))
    by (unfold identifyingNames; listed).
  done.
Qed.

(** C3, at a node that has a [key] prop and none of [num], [index], [id]:
    the identifying props never hold [key], so the semantic identifier of
    the node's action is empty and its description carries no tag. *)
Theorem key_prop_gives_no_semanticId :
  (∀ source, prop_get (identifyingPropsOf source) "key" = VUndefined)
  ∧ map (λ e, (semanticId (snd e), description (snd e)))
        (createActionRegistry keyed_item)
    = [(EmptyString, "onClick handler on li at li")]
  ∧ tagged "key" (VString "row-1") = "[key=row-1]".
Proof.
  split; [|split; reflexivity].
  intros source. rewrite identifyingPropsOf_get.
  by rewrite bool_decide_eq_false_2 by (unfold identifyingNames; listed).
Qed.

(** *** Action ids *)

Lemma functionIdOf_inj (n m : nat) : functionIdOf n = functionIdOf m → n = m.
Proof.
  unfold functionIdOf. intros H.
  apply (inj (String.app "action_")) in H. by apply (inj pretty) in H.
Qed.

Lemma dense_fresh (st : State) :
  Dense st → assoc_get (functionIdOf (actionId st)) (actionRegistry st) = None.
Proof.
  intros [Hkeys _]. apply assoc_get_None. rewrite Hkeys.
  intros (m & Heq & Hm%elem_of_seq)%list_elem_of_fmap.
  apply functionIdOf_inj in Heq. lia.
Qed.

Lemma extractHandler_spec (cn sid : string) (cp : list string)
    (ip source : list (string * value)) (st : State) (key : string) :
  Dense st →
  Dense (extractHandler cn sid cp ip source st key)
  ∧ handler_of <$> actionRegistry (extractHandler cn sid cp ip source st key)
    = (handler_of <$> actionRegistry st) ++ option_list (handlerAt source key)
  ∧ componentCounts (extractHandler cn sid cp ip source st key) = componentCounts st
  ∧ visits (extractHandler cn sid cp ip source st key) = visits st.
Proof.
  intros HD. unfold extractHandler, handlerAt.
  destruct (prop_get source key) as [| | | | | | |f];
    try (simpl; rewrite app_nil_r; done).
  destruct (startsWith key "on"); [|simpl; rewrite app_nil_r; done].
  cbn [actionRegistry actionId componentCounts visits option_list].
  rewrite (assoc_set_absent _ _ _ (dense_fresh st HD)).
  destruct HD as [Hkeys Hids]. repeat split.
  - cbn [actionRegistry actionId]. rewrite map_app, Hkeys, seq_S, map_app. done.
  - cbn [actionRegistry]. apply Forall_app. split; [done|]. by constructor.
  - by rewrite fmap_app.
Qed.

Lemma extractHandlers_spec (cn sid : string) (cp : list string)
    (ip source : list (string * value)) (ks : list string) (st : State) :
  Dense st →
  Dense (foldl (extractHandler cn sid cp ip source) st ks)
  ∧ handler_of <$> actionRegistry (foldl (extractHandler cn sid cp ip source) st ks)
    = (handler_of <$> actionRegistry st) ++ omap (handlerAt source) ks
  ∧ componentCounts (foldl (extractHandler cn sid cp ip source) st ks)
    = componentCounts st
  ∧ visits (foldl (extractHandler cn sid cp ip source) st ks) = visits st.
Proof.
  revert st. induction ks as [|k ks IH]; intros st HD; simpl.
  - by rewrite app_nil_r.
  - destruct (extractHandler_spec cn sid cp ip source st k HD)
      as (HD1 & Hreg1 & Hc1 & Hv1).
    destruct (IH _ HD1) as (HD2 & Hreg2 & Hc2 & Hv2).
    split; [done|]. rewrite Hreg2, Hreg1, Hc2, Hc1, Hv2, Hv1.
    repeat split. rewrite <- app_assoc. f_equal.
    by destruct (handlerAt source k).
Qed.

Lemma visitNode_dense (et : ElementType)
    (p m pp : option (list (string * value))) (path : list string) (st : State) :
  Dense st →
  Dense (fst (visitNode et p m pp path st))
  ∧ handler_of <$> actionRegistry (fst (visitNode et p m pp path st))
    = (handler_of <$> actionRegistry st) ++ handlersOf (propsSource p m pp).
Proof.
  intros HD. unfold visitNode. simpl.
  match goal with
  | |- context [foldl ?f ?s ?ks] =>
      destruct (extractHandlers_spec
                  (extractorDisplayName et)
                  (semanticIdOf (identifyingPropsOf (propsSource p m pp))
                     (default 0 (componentCounts st
                                   !! componentKeyOf path (extractorDisplayName et))
                      + 1 - 1))
                  (path ++ [instanceIdentifierOf (extractorDisplayName et)
                              (default 0 (componentCounts st
                                   !! componentKeyOf path (extractorDisplayName et))
                               + 1 - 1)])
                  (identifyingPropsOf (propsSource p m pp))
                  (propsSource p m pp) ks s HD) as (HD' & Hreg & _)
  end.
  split; [exact HD'|exact Hreg].
Qed.

Lemma traverseChildren_dense (node : FiberNode) :
  ∀ (path : list string) (st : State),
    Dense st →
    Dense (traverseChildren node path st)
    ∧ handler_of <$> actionRegistry (traverseChildren node path st)
      = (handler_of <$> actionRegistry st) ++ discovered node.
Proof.
  induction node as [|et p m pp child IHc sibling IHs]; intros path st HD.
  - simpl. by rewrite app_nil_r.
  - cbn [traverseChildren discovered].
    destruct (visitNode et p m pp path st) as [st1 ownPath] eqn:Hvisit.
    destruct (visitNode_dense et p m pp path st HD) as [HD1 Hreg1].
    rewrite Hvisit in HD1, Hreg1. simpl in HD1, Hreg1.
    destruct (IHc ownPath st1 HD1) as [HD2 Hreg2].
    destruct (IHs path _ HD2) as [HD3 Hreg3].
    split; [done|]. rewrite Hreg3, Hreg2, Hreg1. by rewrite <- !app_assoc.
Qed.

Lemma indexingPass_dense (root : FiberNode) :
  Dense (indexingPass root)
  ∧ handler_of <$> actionRegistry (indexingPass root) = discoveredFrom root.
Proof.
  assert (Dense initial) as HD0 by (split; [done|constructor]).
  unfold indexingPass. destruct root as [|et p m pp child sibling]; [done|].
  cbn [traverseAndExtractActions discoveredFrom].
  destruct (visitNode et p m pp [] initial) as [st1 ownPath] eqn:Hvisit.
  destruct (visitNode_dense et p m pp [] initial HD0) as [HD1 Hreg1].
  rewrite Hvisit in HD1, Hreg1. simpl in HD1, Hreg1.
  destruct (traverseChildren_dense child ownPath st1 HD1) as [HD2 Hreg2].
  split; [done|]. by rewrite Hreg2, Hreg1.
Qed.


Example functionIdOf_12 : functionIdOf 12 = "action_12".
Proof. reflexivity. Qed.

(** *** Instance identifiers *)

Lemma occurrences_app (key : string) (vs ws : list Visit) :
  occurrences key (vs ++ ws) = occurrences key vs + occurrences key ws.
Proof. unfold occurrences. by rewrite List.filter_app, length_app. Qed.

Lemma extractHandlers_frame (cn sid : string) (cp : list string)
    (ip source : list (string * value)) (ks : list string) (st : State) :
  componentCounts (foldl (extractHandler cn sid cp ip source) st ks)
  = componentCounts st
  ∧ visits (foldl (extractHandler cn sid cp ip source) st ks) = visits st.
Proof.
  revert st. induction ks as [|k ks IH]; intros st; [done|].
  simpl. destruct (IH (extractHandler cn sid cp ip source st k)) as [-> ->].
  unfold extractHandler.
  destruct (prop_get source k); try done. by destruct (startsWith k "on").
Qed.

Lemma visitNode_counted (et : ElementType)
    (p m pp : option (list (string * value))) (path : list string) (st : State) :
  Counted st → Counted (fst (visitNode et p m pp path st)).
Proof.
  intros [Hcounts Hlabels]. unfold visitNode. cbn [fst].
  match goal with
  | |- Counted (foldl (extractHandler ?cn ?sid ?cp ?ip ?src) ?s ?ks) =>
      destruct (extractHandlers_frame cn sid cp ip src ks s) as [Hc Hv]
  end.
  cbn [componentCounts visits] in Hc, Hv.
  split.
  - intros key. rewrite Hc, Hv, occurrences_app.
    set (own := componentKeyOf path (extractorDisplayName et)).
    unfold occurrences at 2, keyOfVisit. cbn [List.filter visit_path visit_name].
    fold own. destruct (decide (own = key)) as [<- | Hne].
    + rewrite lookup_insert_eq, String.eqb_refl. simpl. rewrite Hcounts. done.
    + rewrite lookup_insert_ne by done.
      apply String.eqb_neq in Hne. rewrite Hne. simpl. rewrite Hcounts. lia.
  - intros i v. rewrite Hv. intros Hi.
    destruct (decide (i < length (visits st))) as [Hlt | Hge].
    + rewrite lookup_app_l in Hi by done.
      rewrite take_app_le by lia. by apply Hlabels.
    + assert (i = length (visits st)) as ->.
      { apply lookup_lt_Some in Hi. rewrite length_app in Hi. simpl in Hi. lia. }
      rewrite lookup_app_r, Nat.sub_diag in Hi by done. injection Hi as <-.
      rewrite take_app_length. cbn [visit_identifier visit_name keyOfVisit visit_path].
      rewrite Nat.add_sub. by rewrite Hcounts.
Qed.

Lemma traverseChildren_counted (node : FiberNode) :
  ∀ (path : list string) (st : State),
    Counted st → Counted (traverseChildren node path st).
Proof.
  induction node as [|et p m pp child IHc sibling IHs]; intros path st HC; [done|].
  cbn [traverseChildren].
  pose proof (visitNode_counted et p m pp path st HC) as HC1.
  destruct (visitNode et p m pp path st) as [st1 ownPath]. auto.
Qed.

Lemma indexingPass_counted (root : FiberNode) : Counted (indexingPass root).
Proof.
  assert (Counted initial) as HC0.
  { split; [done|]. intros i v Hi. by destruct i. }
  unfold indexingPass. destruct root as [|et p m pp child sibling]; [done|].
  cbn [traverseAndExtractActions].
  pose proof (visitNode_counted et p m pp [] initial HC0) as HC1.
  destruct (visitNode et p m pp [] initial) as [st1 ownPath].
  by apply traverseChildren_counted.
Qed.

Lemma assoc_set_Forall {V : Type} (P : string * V → Prop) (k : string) (v : V)
    (m : list (string * V)) :
  Forall P m → P (k, v) → Forall P (assoc_set k v m).
Proof.
  intros Hm Hkv. induction Hm as [|[k' v'] m Hx Hm IH]; simpl.
  - by constructor.
  - destruct (String.eqb k k'); constructor; done.
Qed.

Lemma extractHandlers_filed (v : Visit) (sid : string)
    (ip source : list (string * value)) (ks : list string) (st : State) :
  v ∈ visits st → Filed st →
  Filed (foldl (extractHandler (visit_name v) sid
                  (visit_path v ++ [visit_identifier v]) ip source) st ks).
Proof.
  revert st. induction ks as [|k ks IH]; intros st Hv HF; [done|].
  simpl. apply IH.
  - unfold extractHandler.
    destruct (prop_get source k); try done. by destruct (startsWith k "on").
  - unfold extractHandler.
    destruct (prop_get source k); try done.
    destruct (startsWith k "on"); [|done].
    unfold Filed. cbn [actionRegistry visits].
    apply assoc_set_Forall; [done|]. by exists v.
Qed.

Lemma visitNode_filed (et : ElementType)
    (p m pp : option (list (string * value))) (path : list string) (st : State) :
  Filed st → Filed (fst (visitNode et p m pp path st)).
Proof.
  intros HF. unfold visitNode. cbn [fst].
  match goal with
  | |- Filed (foldl (extractHandler ?cn ?sid (?pa ++ [?ident]) ?ip ?src) ?s ?ks) =>
      apply (extractHandlers_filed
               {| visit_path := pa; visit_name := cn; visit_identifier := ident |}
               sid ip src ks s)
  end.
  - cbn [visits]. apply elem_of_app. right. by apply list_elem_of_singleton.
  - unfold Filed in *. cbn [actionRegistry visits].
    eapply Forall_impl; [exact HF|].
    intros entry (v & Hv & Hrest). exists v. split; [|done].
    apply elem_of_app. by left.
Qed.

Lemma traverseChildren_filed (node : FiberNode) :
  ∀ (path : list string) (st : State),
    Filed st → Filed (traverseChildren node path st).
Proof.
  induction node as [|et p m pp child IHc sibling IHs]; intros path st HF; [done|].
  cbn [traverseChildren].
  pose proof (visitNode_filed et p m pp path st HF) as HF1.
  destruct (visitNode et p m pp path st) as [st1 ownPath]. auto.
Qed.

Lemma indexingPass_filed (root : FiberNode) : Filed (indexingPass root).
Proof.
  assert (Filed initial) as HF0 by constructor.
  unfold indexingPass. destruct root as [|et p m pp child sibling]; [done|].
  cbn [traverseAndExtractActions].
  pose proof (visitNode_filed et p m pp [] initial HF0) as HF1.
  destruct (visitNode et p m pp [] initial) as [st1 ownPath].
  by apply traverseChildren_filed.
Qed.

(** *** Keys of plain names *)

Lemma append_cons (c : ascii) (a b : string) :
  String c a +:+ b = String c (a +:+ b).
Proof. reflexivity. Qed.

Lemma has_gt_app (a b : string) : has_gt (a +:+ b) = has_gt a || has_gt b.
Proof.
  induction a as [|c a IH]; [done|].
  rewrite append_cons. simpl. rewrite IH. by destruct (Ascii.eqb c ">").
Qed.

Lemma pieces_free (x : string) : has_gt x = false → pieces x = [x].
Proof.
  induction x as [|c x IH]; simpl; [done|].
  destruct (Ascii.eqb c ">"); [done|]. simpl. intros H. by rewrite IH.
Qed.

Lemma pieces_app (x rest : string) :
  has_gt x = false → pieces (x +:+ ">" +:+ rest) = x :: pieces rest.
Proof.
  induction x as [|c x IH]; [done|].
  rewrite append_cons. simpl.
  destruct (Ascii.eqb c ">"); [done|]. simpl. intros H. by rewrite IH.
Qed.

Lemma pieces_join (l : list string) :
  l ≠ [] → Forall (λ x, has_gt x = false) l → pieces (join ">" l) = l.
Proof.
  induction l as [|x l IH]; [done|]. intros _ Hl.
  apply Forall_cons in Hl as [Hx Hl].
  destruct l as [|y l]; simpl.
  - by apply pieces_free.
  - rewrite pieces_app by done. f_equal. by apply IH.
Qed.

Lemma append_assoc (a b c : string) : (a +:+ b) +:+ c = a +:+ (b +:+ c).
Proof.
  induction a as [|x a IH]; [done|]. rewrite !append_cons. by rewrite IH.
Qed.

Lemma join_snoc (l : list string) (n : string) :
  l ≠ [] → join ">" l +:+ ">" +:+ n = join ">" (l ++ [n]).
Proof.
  induction l as [|x l IH]; [done|]. intros _.
  destruct l as [|y l]; [done|].
  change (join ">" (x :: y :: l)) with (x +:+ ">" +:+ join ">" (y :: l)).
  change (join ">" ((x :: y :: l) ++ [n]))
    with (x +:+ ">" +:+ join ">" ((y :: l) ++ [n])).
  rewrite <- IH by done. by rewrite !append_assoc.
Qed.

Lemma plain_free (s : string) : plain s = true → has_gt s = false.
Proof. unfold plain. destruct (is_empty s), (has_gt s); done. Qed.

Lemma pieces_key (p : list string) (n : string) :
  Forall (λ x, plain x = true) p → plain n = true →
  pieces (componentKeyOf p n) = (if p is [] then [EmptyString] else p) ++ [n].
Proof.
  intros Hp Hn. unfold componentKeyOf. destruct p as [|x p].
  - simpl. by rewrite pieces_free by (by apply plain_free).
  - rewrite join_snoc by done. apply pieces_join.
    + by destruct p.
    + apply Forall_app. split.
      * eapply Forall_impl; [exact Hp|]. intros. by apply plain_free.
      * constructor; [by apply plain_free|constructor].
Qed.

(** Plain paths and names have a key of their own. *)
Lemma componentKeyOf_inj (p p' : list string) (n n' : string) :
  Forall (λ x, plain x = true) p → plain n = true →
  Forall (λ x, plain x = true) p' → plain n' = true →
  componentKeyOf p n = componentKeyOf p' n' → p = p' ∧ n = n'.
Proof.
  intros Hp Hn Hp' Hn' Hkey.
  pose proof (pieces_key p n Hp Hn) as H1.
  pose proof (pieces_key p' n' Hp' Hn') as H2.
  rewrite Hkey, H2 in H1. apply app_inj_tail in H1 as [Hpaths ->].
  split; [|done].
  destruct p as [|x p], p' as [|x' p']; try done.
  - injection Hpaths as ? ?; subst. apply Forall_cons in Hp' as [Hx _]. done.
  - injection Hpaths as ? ?; subst. apply Forall_cons in Hp as [Hx _]. done.
Qed.

Lemma pretty_N_go_free (x : N) (s : string) :
  has_gt s = false → has_gt (pretty_N_go x s) = false.
Proof.
  revert s. induction (N.lt_wf_0 x) as [x _ IH]; intros s Hs.
  assert (x = 0 ∨ 0 < x)%N as [-> | Hx] by lia.
  - by rewrite pretty_N_go_0.
  - rewrite pretty_N_go_step by done. apply IH; [by apply N.div_lt|].
    simpl. rewrite Hs. unfold pretty_N_char. by repeat case_match.
Qed.

Lemma pretty_free (n : nat) : has_gt (pretty n) = false.
Proof.
  unfold pretty, pretty_nat, pretty, pretty_N.
  destruct (decide (N.of_nat n = 0%N)); [done|]. by apply pretty_N_go_free.
Qed.

Lemma is_empty_app (a b : string) : is_empty a = false → is_empty (a +:+ b) = false.
Proof. by destruct a. Qed.

Lemma instanceIdentifierOf_plain (name : string) (k : nat) :
  plain name = true → plain (instanceIdentifierOf name k) = true.
Proof.
  intros Hname. unfold instanceIdentifierOf. destruct (Nat.ltb 0 k); [|done].
  unfold plain in *. apply andb_true_iff in Hname as [Hne Hfree].
  apply negb_true_iff in Hne, Hfree.
  rewrite is_empty_app by done. rewrite !has_gt_app, Hfree, pretty_free. done.
Qed.

Lemma visitNode_visits (et : ElementType)
    (p m pp : option (list (string * value))) (path : list string) (st : State) :
  ∃ k,
    visits (fst (visitNode et p m pp path st))
    = visits st ++ [ {| visit_path := path;
                        visit_name := extractorDisplayName et;
                        visit_identifier :=
                          instanceIdentifierOf (extractorDisplayName et) k |} ]
    ∧ snd (visitNode et p m pp path st)
      = path ++ [instanceIdentifierOf (extractorDisplayName et) k].
Proof.
  eexists. unfold visitNode. cbn [fst snd]. split; [|reflexivity].
  match goal with
  | |- visits (foldl (extractHandler ?cn ?sid ?cp ?ip ?src) ?s ?ks) = _ =>
      destruct (extractHandlers_frame cn sid cp ip src ks s) as [_ ->]
  end.
  reflexivity.
Qed.

Lemma traverseChildren_plain (node : FiberNode) :
  ∀ (path : list string) (st : State),
    Forall (λ x, plain x = true) path → plainNames node →
    Forall plainVisit (visits st) →
    Forall plainVisit (visits (traverseChildren node path st)).
Proof.
  induction node as [|et p m pp child IHc sibling IHs];
    intros path st Hpath Hnames Hst; [done|].
  destruct Hnames as (Hname & Hchild & Hsibling).
  cbn [traverseChildren].
  destruct (visitNode_visits et p m pp path st) as (k & Hvisits & Hown).
  destruct (visitNode et p m pp path st) as [st1 ownPath].
  cbn [fst snd] in Hvisits, Hown. subst ownPath.
  apply IHs; [done|done|]. apply IHc; [|done|].
  - apply Forall_app. split; [done|].
    constructor; [by apply instanceIdentifierOf_plain|constructor].
  - rewrite Hvisits. apply Forall_app. split; [done|].
    constructor; [|constructor]. split; done.
Qed.

Lemma indexingPass_plain (root : FiberNode) :
  plainTree root → Forall plainVisit (visits (indexingPass root)).
Proof.
  unfold indexingPass. destruct root as [|et p m pp child sibling];
    [constructor|].
  intros [Hname Hchild]. cbn [traverseAndExtractActions].
  destruct (visitNode_visits et p m pp [] initial) as (k & Hvisits & Hown).
  destruct (visitNode et p m pp [] initial) as [st1 ownPath].
  cbn [fst snd] in Hvisits, Hown. subst ownPath.
  apply traverseChildren_plain; [|done|].
  - constructor; [by apply instanceIdentifierOf_plain|constructor].
  - rewrite Hvisits. constructor; [|constructor]. split; [done|constructor].
Qed.

Lemma occurrences_pairs (v : Visit) (ws : list Visit) :
  plainVisit v → Forall plainVisit ws →
  occurrences (keyOfVisit v) ws = length (List.filter (samePair v) ws).
Proof.
  intros [Hvn Hvp] Hws. unfold occurrences. f_equal.
  apply List.filter_ext_in. intros w Hw%list_elem_of_In.
  rewrite Forall_forall in Hws. destruct (Hws w Hw) as [Hwn Hwp].
  unfold samePair, keyOfVisit.
  destruct (String.eqb_spec (componentKeyOf (visit_path w) (visit_name w))
                            (componentKeyOf (visit_path v) (visit_name v)))
    as [Hkey | Hkey].
  - apply componentKeyOf_inj in Hkey as [-> ->]; [|done..].
    by rewrite bool_decide_eq_true_2, String.eqb_refl.
  - symmetry. apply andb_false_iff.
    destruct (decide (visit_path w = visit_path v)) as [Hp | Hp].
    + right. apply String.eqb_neq. intros Hn. apply Hkey. by rewrite Hp, Hn.
    + left. by apply bool_decide_eq_false_2.
Qed.

Lemma pair_identifiers (root : FiberNode) (i : nat) (v : Visit) :
  plainTree root →
  visits (indexingPass root) !! i = Some v →
  visit_identifier v
  = match length (List.filter (samePair v) (take i (visits (indexingPass root)))) with
    | 0 => visit_name v
    | S n => visit_name v +:+ "[" +:+ pretty (S n) +:+ "]"
    end.
Proof.
  intros Hplain Hi.
  pose proof (indexingPass_plain root Hplain) as Hall.
  destruct (indexingPass_counted root) as [_ Hlabels].
  rewrite (Hlabels i v Hi).
  rewrite occurrences_pairs.
  - unfold instanceIdentifierOf.
    by destruct (length (List.filter (samePair v) (take i (visits (indexingPass root))))).
  - rewrite Forall_forall in Hall. apply Hall. by eapply list_elem_of_lookup_2.
  - by apply Forall_take.
Qed.

(** The labelling that is in force.  Calls are counted by their key, the path
    joined with [>] followed by [>] and the component name: a call with a
    key that no earlier call of the pass had is given the bare name as its
    identifier, and a call that [n] earlier calls share their key with is
    given [name[n]].  In a tree where no component name is empty or holds
    a [>], the calls with one key are the calls with one path and name, so
    that the first node of a path and name gets the bare name and the one
    after [n] others gets [name[n]].  The [path] of a registry entry is
    the path of the call that filed it, with that identifier at its end.
    Two sibling [Row]s under one parent get paths that end in [Row] and
    [Row[1]]. *)
Theorem instance_identifiers :
  (∀ (root : FiberNode) (i : nat) (v : Visit),
     visits (indexingPass root) !! i = Some v →
     visit_identifier v
     = match occurrences (keyOfVisit v) (take i (visits (indexingPass root))) with
       | 0 => visit_name v
       | S n => visit_name v +:+ "[" +:+ pretty (S n) +:+ "]"
       end)
  ∧ (∀ (root : FiberNode) (i : nat) (v : Visit),
       plainTree root →
       visits (indexingPass root) !! i = Some v →
       visit_identifier v
       = match length (List.filter (samePair v)
                         (take i (visits (indexingPass root)))) with
         | 0 => visit_name v
         | S n => visit_name v +:+ "[" +:+ pretty (S n) +:+ "]"
         end)
  ∧ (∀ (root : FiberNode) (key : string) (entry : ActionRegistryEntry),
       (key, entry) ∈ createActionRegistry root →
       ∃ v, v ∈ visits (indexingPass root)
            ∧ component entry = visit_name v
            ∧ path entry = join " > " (visit_path v ++ [visit_identifier v]))
  ∧ map visit_identifier (visits (indexingPass two_rows)) = ["div"; "Row"; "Row[1]"]
  ∧ map (λ p, path (snd p)) (createActionRegistry two_rows)
    = ["div > Row"; "div > Row[1]"].
Proof.
  split; [|split; [|split; [|split; reflexivity]]].
  - intros root i v Hi.
    destruct (indexingPass_counted root) as [_ Hlabels].
    rewrite (Hlabels i v Hi). unfold instanceIdentifierOf.
    generalize (occurrences (keyOfVisit v) (take i (visits (indexingPass root)))).
    intros [|n]; reflexivity.
  - intros root i v Hplain Hi. by apply pair_identifiers.
  - intros root key entry Hentry.
    pose proof (indexingPass_filed root) as HF. unfold Filed in HF.
    rewrite Forall_forall in HF. by apply (HF (key, entry)).
Qed.

Lemma instance_identifiers_witness :
  plainTree two_rows
  ∧ visits (indexingPass two_rows) !! 2
    = Some {| visit_path := ["div"]; visit_name := "Row";
              visit_identifier := "Row[1]" |}
  ∧ length (List.filter
              (samePair {| visit_path := ["div"]; visit_name := "Row";
                           visit_identifier := "Row[1]" |})
              (take 2 (visits (indexingPass two_rows)))) = 1
  ∧ "Row[1]" = "Row" +:+ "[" +:+ pretty 1 +:+ "]".
Proof.
  assert (plainTree two_rows) as Hplain by (by repeat split).
  split; [exact Hplain|]. split; [reflexivity|]. split; [reflexivity|].
  destruct instance_identifiers as (_ & Hpairs & _).
  exact (Hpairs two_rows 2
           {| visit_path := ["div"]; visit_name := "Row"; visit_identifier := "Row[1]" |}
           Hplain eq_refl).
Defined.

(** C7, at a tree with a component named [Menu>Item] under [nav],
    before a [Menu] that holds an [Item].  The [Item] under [nav], [Menu]
    is the first node with that path and that name: no earlier call had
    that path and that name.  Yet it is labelled [Item[1]], and the path
    of its action ends in [Item[1]]: the component [Menu>Item] under [nav]
    has the same key, the path joined with [>] before [>] and the
    name. *)
Lemma first_of_its_pair_is_numbered :
  visits (indexingPass colliding_names) !! 3
  = Some {| visit_path := ["nav"; "Menu"];
            visit_name := "Item";
            visit_identifier := "Item[1]" |}
  ∧ List.filter
      (λ v, bool_decide (visit_path v = ["nav"; "Menu"])
            && String.eqb (visit_name v) "Item")
      (take 3 (visits (indexingPass colliding_names)))
    = []
  ∧ map (λ p, path (snd p)) (createActionRegistry colliding_names)
    = ["nav > Menu>Item"; "nav > Menu > Item[1]"].
Proof. split; [|split]; vm_compute; reflexivity. Qed.

End ExtractorFacts.

(** ** Debounced re-indexing *)
Module ReindexingFacts.
Import JS Reindexing ReindexingTerms.

Lemma OneTimer_length (s : State) : OneTimer s → length (pending s) ≤ 1.
Proof. intros [-> | (h & due & -> & _)]; simpl; lia. Qed.

Lemma debouncedUpdate_pending (s : State) :
  OneTimer s → pending (debouncedUpdate s) = [(nextHandle s, now s + delay)].
Proof.
  intros [Hnone | (h & due & Hone & Href)]; unfold debouncedUpdate; simpl.
  - rewrite Hnone. by destruct (updateTimeoutRef s).
  - rewrite Hone, Href. simpl. by rewrite Pos.eqb_refl.
Qed.

Lemma debouncedUpdate_OneTimer (s : State) :
  OneTimer s → OneTimer (debouncedUpdate s).
Proof.
  intros H. right. exists (nextHandle s), (now s + delay).
  split; [by apply debouncedUpdate_pending|done].
Qed.

Lemma advance_OneTimer (t : nat) (s : State) : OneTimer s → OneTimer (advance t s).
Proof.
  intros [Hnone | (h & due & Hone & Href)]; unfold OneTimer, advance; simpl.
  - left. by rewrite Hnone.
  - rewrite Hone. simpl. destruct (Nat.ltb t due); [right; eauto|by left].
Qed.

Lemma cleanup_OneTimer (s : State) : OneTimer s → OneTimer (cleanup s).
Proof.
  intros [Hnone | (h & due & Hone & Href)]; unfold OneTimer, cleanup; simpl; left.
  - rewrite Hnone. by destruct (updateTimeoutRef s).
  - rewrite Hone, Href. simpl. by rewrite Pos.eqb_refl.
Qed.

Lemma rerender_OneTimer (s : State) : OneTimer s → OneTimer (rerender s).
Proof.
  intros H. destruct (cleanup_OneTimer s H) as [Hnone | (h & due & Hone & Href)].
  - by left.
  - right. by exists h, due.
Qed.

Lemma step_OneTimer (s : State) (e : Event) : OneTimer s → OneTimer (step s e).
Proof.
  intros H. destruct e as [t ms | t | t | t]; simpl.
  - unfold observerCallback.
    destruct (observing (advance t s) && shouldUpdate ms).
    + by apply debouncedUpdate_OneTimer, advance_OneTimer.
    + by apply advance_OneTimer.
  - by apply rerender_OneTimer, advance_OneTimer.
  - by apply cleanup_OneTimer, advance_OneTimer.
  - by apply advance_OneTimer.
Qed.

Lemma run_OneTimer (events : list Event) :
  ∀ s, OneTimer s → OneTimer (run s events).
Proof.
  induction events as [|e events IH]; intros s H; [done|].
  simpl. by apply IH, step_OneTimer.
Qed.

Lemma mount_OneTimer (t : nat) : OneTimer (mount t).
Proof. by left. Qed.

(** The rest of a burst: while the timer armed at [t] is pending, every
    later batch re-arms it, and no pass runs. *)
Lemma burst_rearms (later : list (nat * list MutationRecord)) :
  ∀ (t : nat) (s : State),
    observing s = true → now s = t →
    (∃ h, pending s = [(h, t + delay)] ∧ updateTimeoutRef s = Some h) →
    burst t later →
    observing (run s (events_of later)) = true
    ∧ now (run s (events_of later)) = last_time t later
    ∧ (∃ h, pending (run s (events_of later)) = [(h, last_time t later + delay)]
            ∧ updateTimeoutRef (run s (events_of later)) = Some h)
    ∧ passes (run s (events_of later)) = passes s.
Proof.
  induction later as [|[t' ms] later IH]; intros t s Hobs Hnow Hpend Hburst.
  - simpl. unfold last_time. simpl. done.
  - destruct Hburst as (Hle & Hlt & Hq & Hrest).
    destruct Hpend as (h & Hpend & Href).
    assert (pending (advance t' s) = [(h, t + delay)]) as Hpend'.
    { unfold advance. simpl. rewrite Hpend. simpl.
      destruct (Nat.ltb_spec t' (t + delay)); [done|lia]. }
    assert (passes (advance t' s) = passes s) as Hpasses'.
    { unfold advance. simpl. rewrite Hpend. simpl.
      destruct (Nat.leb_spec (t + delay) t'); [lia|]. by rewrite app_nil_r. }
    assert (now (advance t' s) = t') as Hnow' by (simpl; lia).
    assert (OneTimer (advance t' s)) as Hone.
    { right. exists h, (t + delay). done. }
    set (s1 := step s (Mutations t' ms)).
    assert (s1 = debouncedUpdate (advance t' s)) as Hs1.
    { unfold s1. simpl. unfold observerCallback. simpl. by rewrite Hobs, Hq. }
    destruct (IH t' s1) as (Hobs2 & Hnow2 & Hpend2 & Hpasses2).
    + rewrite Hs1. exact Hobs.
    + rewrite Hs1. exact Hnow'.
    + exists (nextHandle (advance t' s)). rewrite Hs1. split; [|done].
      rewrite (debouncedUpdate_pending _ Hone). by rewrite Hnow'.
    + done.
    + change (run s (events_of ((t', ms) :: later))) with (run s1 (events_of later)).
      assert (last_time t ((t', ms) :: later) = last_time t' later) as ->.
      { unfold last_time. cbn [map fst]. rewrite last_cons.
        by destruct (last (map fst later)). }
      split; [done|]. split; [done|]. split; [done|].
      rewrite Hpasses2, Hs1. simpl. exact Hpasses'.
Qed.

Lemma run_app (s : State) (es es' : list Event) :
  run s (es ++ es') = run (run s es) es'.
Proof. apply foldl_app. Qed.

(** C8.  In every state the component can reach after it was mounted:
    a batch of records that qualifies, delivered while the observer is
    connected, leaves exactly one timer armed, due 100ms later, whatever
    was armed before; at most one timer is armed; and when no timer is
    armed and a burst of qualifying batches arrives, each less than 100ms
    after the one before, then once time has passed the burst's last
    batch by 100ms exactly one more pass has run, 100ms after that last
    batch. *)
Theorem debounce_coalesces :
  delay = 100
  ∧ (∀ (t0 : nat) (events : list Event) (mutations : list MutationRecord),
       observing (run (mount t0) events) = true →
       shouldUpdate mutations = true →
       pending (observerCallback mutations (run (mount t0) events))
       = [(nextHandle (run (mount t0) events), now (run (mount t0) events) + 100)])
  ∧ (∀ (t0 : nat) (events : list Event),
       length (pending (run (mount t0) events)) ≤ 1)
  ∧ (∀ (t0 : nat) (events : list Event) (t1 : nat) (first : list MutationRecord)
       (later : list (nat * list MutationRecord)) (T : nat),
       pending (run (mount t0) events) = [] →
       observing (run (mount t0) events) = true →
       now (run (mount t0) events) ≤ t1 →
       shouldUpdate first = true →
       burst t1 later →
       last_time t1 later + 100 ≤ T →
       passes (run (run (mount t0) events)
                   (Mutations t1 first :: events_of later ++ [Wait T]))
       = passes (run (mount t0) events) ++ [last_time t1 later + 100]).
Proof.
  split; [done|]. split; [|split].
  - intros t0 events mutations Hobs Hq.
    unfold observerCallback. rewrite Hobs, Hq. simpl.
    apply debouncedUpdate_pending, run_OneTimer, mount_OneTimer.
  - intros t0 events. apply OneTimer_length, run_OneTimer, mount_OneTimer.
  - intros t0 events t1 first later T.
    generalize (run_OneTimer events (mount t0) (mount_OneTimer t0)).
    generalize (run (mount t0) events). intros s0 Hone Hpend Hobs Hnow Hq Hburst HT.
    change (run s0 (Mutations t1 first :: events_of later ++ [Wait T]))
      with (run (step s0 (Mutations t1 first)) (events_of later ++ [Wait T])).
    rewrite run_app.
    set (s1 := step s0 (Mutations t1 first)).
    change (run (run s1 (events_of later)) [Wait T])
      with (advance T (run s1 (events_of later))).
    assert (s1 = debouncedUpdate (advance t1 s0)) as Hs1.
    { unfold s1. simpl. unfold observerCallback. simpl. by rewrite Hobs, Hq. }
    assert (passes s1 = passes s0) as Hpasses1.
    { rewrite Hs1. simpl. rewrite Hpend. simpl. by rewrite app_nil_r. }
    destruct (burst_rearms later t1 s1) as (_ & _ & (h & Hpend2 & _) & Hpasses2).
    + rewrite Hs1. exact Hobs.
    + rewrite Hs1. simpl. lia.
    + exists (nextHandle (advance t1 s0)). rewrite Hs1. split; [|done].
      rewrite debouncedUpdate_pending by (by apply advance_OneTimer).
      simpl. do 2 f_equal. lia.
    + done.
    + unfold advance. cbn [passes]. rewrite Hpend2, Hpasses2, Hpasses1. simpl.
      fold delay.
      destruct (Nat.leb_spec (last_time t1 later + delay) T); [done|].
      unfold delay in *. lia.
Qed.

Lemma debounce_coalesces_witness :
  burst 10 [(50, [added]); (120, [typed])]
  ∧ passes (run (run (mount 0) [])
                (Mutations 10 [added]
                 :: events_of [(50, [added]); (120, [typed])] ++ [Wait 500]))
    = [0; 220].
Proof.
  assert (burst 10 [(50, [added]); (120, [typed])]) as Hburst.
  { simpl. unfold delay. repeat split; lia. }
  split; [exact Hburst|].
  destruct debounce_coalesces as (_ & _ & _ & Hcoalesce).
  apply (Hcoalesce 0 [] 10 [added] [(50, [added]); (120, [typed])] 500);
    [reflexivity|reflexivity|simpl; lia|reflexivity|exact Hburst|].
  unfold last_time. simpl. lia.
Defined.

(** Batches that are 100ms apart are two bursts: the first timer fires
    before the second batch arms the next. *)
Example batches_100ms_apart :
  passes (run (mount 0) [Mutations 10 [added]; Mutations 110 [added]; Wait 500])
  = [0; 110; 210].
Proof. reflexivity. Qed.

End ReindexingFacts.

(** ** Asking the completion endpoint *)
Module LLMCommandBarFacts.
Import JS JSFacts LLMCommandBar ResolverTerms.

Lemma messageContent_body (content : value) :
  messageContent (completion_body content) = Ok content.
Proof. reflexivity. Qed.

(** A string as content never makes the extraction raise. *)
Lemma extractAction_string
    (JSON_parse : string → option value) (data : value) (c : string) :
  messageContent data = Ok (VString c) →
  ∃ actionId parameters, extractAction JSON_parse data = Ok (actionId, parameters).
Proof.
  intros Hc. unfold extractAction. rewrite Hc. simpl.
  destruct (is_empty c); simpl; [eauto|].
  unfold parseResponse. simpl.
  destruct (JSON_parse (trim c)) as [v|]; simpl; [|eauto].
  destruct v; simpl; eauto.
Qed.



(** A text that parses to something other than an object: [null] has no
    properties to read, which raises and leads to the fallback; any other
    value has neither property, which leaves the id empty. *)
Lemma extractAction_not_an_object
    (JSON_parse : string → option value) (data : value) (c : string) (v : value) :
  messageContent data = Ok (VString c) →
  is_empty c = false →
  JSON_parse (trim c) = Some v →
  match v with
  | VObject _ _ => True
  | VNull | VUndefined =>
      extractAction JSON_parse data = Ok (VString (removeQuotes (trim c)), VArray [])
  | _ => extractAction JSON_parse data = Ok (VString EmptyString, VArray [])
  end.
Proof.
  intros Hc Hne Hparse. unfold extractAction. rewrite Hc. simpl. rewrite Hne. simpl.
  unfold parseResponse. simpl. rewrite Hparse. by destruct v.
Qed.


Lemma getProperty_own {V : Type} (k : string) (v : V) (m : list (string * V)) :
  assoc_get k m = Some v → getProperty k m = Own v.
Proof. intros H. unfold getProperty. by rewrite H. Qed.



Lemma resolve_loading (call : function → list value → completion)
    (registry : list (string * Langact.ActionRegistryEntry))
    (actionId parameters : value) (st : State) :
  loading (resolve call registry actionId parameters st) = false.
Proof.
  unfold resolve.
  destruct (if truthy actionId && negb (is_literal "none" actionId)
            then getProperty (to_string actionId) registry else Missing)
    as [action| |].
  - destruct (spread parameters) as [args|err]; [|done].
    by destruct (call (Langact.execute action) args).
  - done.
  - by destruct (is_literal "none" actionId).
Qed.

Lemma resolve_query (call : function → list value → completion)
    (registry : list (string * Langact.ActionRegistryEntry))
    (actionId parameters : value) (st : State) :
  query (resolve call registry actionId parameters st) = query st.
Proof.
  unfold resolve.
  destruct (if truthy actionId && negb (is_literal "none" actionId)
            then getProperty (to_string actionId) registry else Missing)
    as [action| |].
  - destruct (spread parameters) as [args|err]; [|done].
    by destruct (call (Langact.execute action) args).
  - done.
  - by destruct (is_literal "none" actionId).
Qed.

Lemma sendQueryToLLM_success (call : function → list value → completion)
    (JSON_parse : string → option value)
    (registry : list (string * Langact.ActionRegistryEntry))
    (q statusText : string) (data actionId parameters : value) (st : State) :
  blank q = false →
  extractAction JSON_parse data = Ok (actionId, parameters) →
  sendQueryToLLM call JSON_parse (Some registry) q (Response true statusText (Ok data)) st
  = resolve call registry actionId parameters (answered st).
Proof. intros Hq Hx. unfold sendQueryToLLM. by rewrite Hq, Hx. Qed.





(** The answer with the action id and the parameters as JSON. *)
Example answer_json :
  sendQueryToLLM (λ _ _, Returns) sample_parse (Some [("action_3", action_3)])
    "add hello" (Response true "OK" (Ok (completion_body (VString sample_text))))
    asked
  = {| query := EmptyString;
       status := Executing (VString "action_3") (VArray [VString "hello"]);
       loading := false;
       invoked := [(addTask, [VString "hello"])] |}.
Proof. reflexivity. Qed.

(** The model answers with the bare word [constructor], and the
    registry has no entry of that name: the lookup finds what every
    plain object inherits under it, the status becomes the executing one,
    the call raises, and the status ends as the execution error; it is
    not the status of an id that is not valid. *)
Example inherited_name_is_taken_for_an_entry :
  assoc_get "constructor" [("action_3", action_3)] = None
  ∧ sendQueryToLLM (λ _ _, Returns) sample_parse (Some [("action_3", action_3)])
      "add hello"
      (Response true "OK" (Ok (completion_body (VString "constructor"))))
      asked
    = {| query := EmptyString; status := ExecutionError TypeError;
         loading := false; invoked := [] |}
  ∧ ExecutionError TypeError ≠ InvalidActionId.
Proof. split; [reflexivity|]. split; [reflexivity|discriminate]. Qed.

(** The answer whose [actionId] is [none]. *)
Example answer_none :
  sendQueryToLLM (λ _ _, Returns) none_parse (Some [("action_3", action_3)])
    "add hello" (Response true "OK" (Ok (completion_body (VString none_text))))
    asked
  = {| query := EmptyString; status := NoSuitableAction;
       loading := false; invoked := [] |}.
Proof. reflexivity. Qed.

(** A content that is no JSON text: [Run action_9] with the id in double
    quotes, and a blank before it.  The id tried is the trimmed text
    without the quotes. *)
Example answer_not_json :
  sendQueryToLLM (λ _ _, Returns) (λ _, None) (Some [("action_3", action_3)])
    "add hello"
    (Response true "OK"
       (Ok (completion_body (VString (" Run " +:+ quoted "action_9")))))
    asked
  = {| query := EmptyString; status := InvalidActionId;
       loading := false; invoked := [] |}
  ∧ extractAction (λ _, None)
      (completion_body (VString (" Run " +:+ quoted "action_9")))
    = Ok (VString "Run action_9", VArray []).
Proof. split; reflexivity. Qed.

Lemma get_truthy (v : value) (k : string) :
  truthy v = true → ∃ x, get v k = Ok x.
Proof. destruct v; simpl; try done; eauto. Qed.

Lemma get0_truthy (v : value) : truthy v = true → ∃ x, get0 v = Ok x.
Proof. destruct v; simpl; try done; eauto. Qed.

(** Reading the content raises only for a body that is [null] or
    [undefined]. *)
Lemma messageContent_raises (data : value) (err : error) :
  messageContent data = Raise err → data = VNull ∨ data = VUndefined.
Proof.
  unfold messageContent, and_then.
  destruct data; simpl; try done; try (by left); try (by right).
  intros H. exfalso.
  destruct (truthy (prop_get fields "choices")) eqn:H1; [|done].
  destruct (get0_truthy _ H1) as [choice Hchoice]. rewrite Hchoice in H. simpl in H.
  destruct (truthy choice) eqn:H2; [|done].
  destruct (get_truthy choice "message" H2) as [message Hmessage].
  rewrite Hmessage in H. simpl in H.
  destruct (truthy message) eqn:H3; [|done].
  destruct (get_truthy message "content" H3) as [content Hcontent].
  by rewrite Hcontent in H.
Qed.

(** The extraction raises only for such a body, or for a content that
    is truthy and not a string. *)
Lemma extractAction_raises (JSON_parse : string → option value)
    (data : value) (err : error) :
  extractAction JSON_parse data = Raise err →
  (data = VNull ∨ data = VUndefined)
  ∨ ∃ content, messageContent data = Ok content
               ∧ truthy content = true
               ∧ ∀ c, content ≠ VString c.
Proof.
  unfold extractAction.
  destruct (messageContent data) as [content|e] eqn:Hcontent; simpl.
  - intros H. right. exists content. split; [done|].
    destruct (truthy content) eqn:Htruthy; [|done]. split; [done|].
    intros c ->.
    destruct (extractAction_string JSON_parse data c Hcontent) as (a & ps & Hok).
    unfold extractAction in Hok. rewrite Hcontent in Hok.
    cbn [bind] in Hok. rewrite Htruthy in Hok. congruence.
  - intros _. left. by eapply messageContent_raises.
Qed.

(** C10, as the code has it.  For a query that is not blank and a
    successful response with body [data]: whenever the action id is
    extracted without an exception the query is empty at the end, also
    when the id is [none] or names no action and nothing is called; the
    extraction raises no exception when the first choice's content is a
    string, and none when the content or anything on the way to it is
    falsy; it raises only for a body that is [null] or [undefined] and
    for a content that is truthy and not a string; and when it raises,
    the status reports the error, nothing is called, and the query is
    left as it was. *)
Theorem query_cleared_after_extraction
    (call : function → list value → completion)
    (JSON_parse : string → option value)
    (registry : list (string * Langact.ActionRegistryEntry))
    (q statusText : string) (data : value) (st : State) :
  blank q = false →
  (∀ actionId parameters,
     extractAction JSON_parse data = Ok (actionId, parameters) →
     query (sendQueryToLLM call JSON_parse (Some registry) q
              (Response true statusText (Ok data)) st) = EmptyString
     ∧ (actionId = VString "none"
        ∨ truthy actionId = false
        ∨ assoc_get (to_string actionId) registry = None →
        invoked (sendQueryToLLM call JSON_parse (Some registry) q
                   (Response true statusText (Ok data)) st) = invoked st))
  ∧ (∀ c, messageContent data = Ok (VString c) →
          ∃ actionId parameters,
            extractAction JSON_parse data = Ok (actionId, parameters))
  ∧ (∀ v, messageContent data = Ok v → truthy v = false →
          extractAction JSON_parse data = Ok (VString EmptyString, VArray []))
  ∧ (∀ err, extractAction JSON_parse data = Raise err →
            (data = VNull ∨ data = VUndefined)
            ∨ ∃ content, messageContent data = Ok content
                         ∧ truthy content = true
                         ∧ ∀ c, content ≠ VString c)
  ∧ (∀ err, extractAction JSON_parse data = Raise err →
            sendQueryToLLM call JSON_parse (Some registry) q
              (Response true statusText (Ok data)) st
            = {| query := query st; status := Failed err;
                 loading := false; invoked := invoked st |}).
Proof.
  intros Hq. split; [|split; [|split; [|split]]].
  - intros actionId parameters Hx.
    rewrite (sendQueryToLLM_success _ _ _ _ _ _ _ _ _ Hq Hx).
    split; [by rewrite resolve_query|].
    unfold resolve. intros [-> | [-> | Hmissing]]; [done| |].
    + simpl. by destruct (is_literal "none" actionId).
    + unfold getProperty. rewrite Hmissing.
      destruct (truthy actionId && negb (is_literal "none" actionId));
        [destruct (existsb (String.eqb (to_string actionId)) objectPrototype);
         [done|]|];
        by destruct (is_literal "none" actionId).
  - intros c. apply extractAction_string.
  - intros v Hv Hfalsy. unfold extractAction. rewrite Hv. simpl. by rewrite Hfalsy.
  - intros err. apply extractAction_raises.
  - intros err Hx. unfold sendQueryToLLM. by rewrite Hq, Hx.
Qed.

Lemma query_cleared_witness :
  blank "add hello" = false
  ∧ extractAction none_parse (completion_body (VString none_text))
    = Ok (VString "none", VArray [])
  ∧ query (sendQueryToLLM (λ _ _, Returns) none_parse (Some [("action_3", action_3)])
             "add hello"
             (Response true "OK" (Ok (completion_body (VString none_text))))
             asked)
    = EmptyString.
Proof.
  split; [reflexivity|]. split; [reflexivity|].
  destruct (query_cleared_after_extraction (λ _ _, Returns) none_parse
              [("action_3", action_3)] "add hello" "OK"
              (completion_body (VString none_text)) asked eq_refl)
    as (Hcleared & _).
  exact (proj1 (Hcleared (VString "none") (VArray []) eq_refl)).
Defined.

(** A successful response whose body is [null], and one whose first
    choice has a number as content: reading [choices] of [null] raises,
    and so does calling [trim] on a number, in the inner [try] and again
    in its [catch]; the outer [catch] reports the error, and the query
    stays as it was. *)
Lemma query_kept_when_extraction_raises :
  sendQueryToLLM (λ _ _, Returns) (λ _, None) (Some [("action_3", action_3)])
    "add hello" (Response true "OK" (Ok VNull)) asked
  = {| query := "add hello"; status := Failed TypeError;
       loading := false; invoked := [] |}
  ∧ sendQueryToLLM (λ _ _, Returns) (λ _, None) (Some [("action_3", action_3)])
      "add hello" (Response true "OK" (Ok (completion_body (VNumber "5")))) asked
    = {| query := "add hello"; status := Failed TypeError;
         loading := false; invoked := [] |}.
Proof. split; reflexivity. Qed.

End LLMCommandBarFacts.

(** ** Association lists, further *)
Module AssocFacts.
Import JS JSFacts.

Lemma assoc_get_delete_eq {V : Type} (k : string) (m : list (string * V)) :
  assoc_get k (assoc_delete k m) = None.
Proof.
  induction m as [|[k' v'] m IH]; simpl; [done|].
  destruct (String.eqb k k') eqn:E; simpl; [done|]. by rewrite E.
Qed.

Lemma assoc_get_delete_ne {V : Type} (k k' : string) (m : list (string * V)) :
  k ≠ k' → assoc_get k' (assoc_delete k m) = assoc_get k' m.
Proof.
  intros Hne. induction m as [|[k0 v0] m IH]; simpl; [done|].
  destruct (String.eqb k k0) eqn:E; simpl.
  - apply String.eqb_eq in E as <-.
    assert (String.eqb k' k = false) as -> by (apply String.eqb_neq; congruence).
    done.
  - by rewrite IH.
Qed.

Lemma assoc_delete_keys {V : Type} (k : string) (m : list (string * V)) :
  map fst (assoc_delete k m) = List.filter (λ k', negb (String.eqb k k')) (map fst m).
Proof.
  induction m as [|[k' v'] m IH]; simpl; [done|].
  destruct (String.eqb k k'); simpl; by rewrite IH.
Qed.

Lemma assoc_delete_sublist {V : Type} (k : string) (m : list (string * V)) :
  sublist (assoc_delete k m) m.
Proof.
  induction m as [|[k' v'] m IH]; simpl; [done|].
  destruct (String.eqb k k'); by constructor.
Qed.

Lemma assoc_set_keys {V : Type} (k : string) (v : V) (m : list (string * V)) :
  map fst (assoc_set k v m)
  = match assoc_get k m with
    | Some _ => map fst m
    | None => map fst m ++ [k]
    end.
Proof.
  destruct (assoc_get k m) eqn:E.
  - apply assoc_set_present. by rewrite E.
  - rewrite (assoc_set_absent _ _ _ E), map_app. done.
Qed.

Lemma assoc_set_NoDup {V : Type} (k : string) (v : V) (m : list (string * V)) :
  NoDup (map fst m) → NoDup (map fst (assoc_set k v m)).
Proof.
  intros H. rewrite assoc_set_keys. destruct (assoc_get k m) eqn:E; [done|].
  apply NoDup_app. split; [done|]. split; [|apply NoDup_singleton].
  intros x Hx Hk. apply list_elem_of_singleton in Hk as ->.
  by apply assoc_get_None in E.
Qed.

Lemma assoc_delete_NoDup {V : Type} (k : string) (m : list (string * V)) :
  NoDup (map fst m) → NoDup (map fst (assoc_delete k m)).
Proof.
  intros H. eapply sublist_NoDup; [exact H|].
  apply (fmap_sublist fst), assoc_delete_sublist.
Qed.

Lemma assoc_set_all {V : Type} (P : string * V → Prop) (k : string) (v : V)
    (m : list (string * V)) :
  P (k, v) → Forall P m → Forall P (assoc_set k v m).
Proof.
  intros Hk. induction 1 as [|[k' v'] m Hp Hm IH]; simpl.
  - by constructor.
  - destruct (String.eqb k k'); constructor; done.
Qed.

Lemma assoc_delete_all {V : Type} (P : string * V → Prop) (k : string)
    (m : list (string * V)) :
  Forall P m → Forall P (assoc_delete k m).
Proof.
  induction 1 as [|[k' v'] m Hp Hm IH]; simpl; [constructor|].
  destruct (String.eqb k k'); [done|]. by constructor.
Qed.

(** Under unique keys a pair of the list is what its key reads as. *)
Lemma assoc_get_elem {V : Type} (k : string) (v : V) (m : list (string * V)) :
  NoDup (map fst m) → (k, v) ∈ m → assoc_get k m = Some v.
Proof.
  induction m as [|[k' v'] m IH]; simpl; intros Hnd Hin.
  - by apply elem_of_nil in Hin.
  - apply NoDup_cons in Hnd as [Hk' Hnd].
    apply elem_of_cons in Hin as [Heq|Hin].
    + injection Heq as -> ->. by rewrite String.eqb_refl.
    + destruct (String.eqb k k') eqn:E; [|by apply IH].
      apply String.eqb_eq in E as ->. exfalso. apply Hk'.
      apply list_elem_of_fmap. by exists (k', v).
Qed.

End AssocFacts.

(** ** The hook and the provider's map *)
Module HookFacts.
Import JS JSFacts AssocFacts LangactContext UseAiAction HookTerms.

Lemma register_Keyed (action : AiAction) (actions : list (string * AiAction)) :
  Keyed actions → Keyed (registerAction action actions).
Proof.
  intros [Hnd Hid]. split.
  - by apply assoc_set_NoDup.
  - by apply assoc_set_all.
Qed.

Lemma unregister_Keyed (k : string) (actions : list (string * AiAction)) :
  Keyed actions → Keyed (unregisterAction k actions).
Proof.
  intros [Hnd Hid]. split.
  - by apply assoc_delete_NoDup.
  - by apply assoc_delete_all.
Qed.

Lemma step_Keyed (actions : list (string * AiAction)) (e : Event) :
  Keyed actions → Keyed (step actions e).
Proof.
  intros H. destruct e; simpl; unfold effect, cleanup;
    auto using register_Keyed, unregister_Keyed.
Qed.

(** X1.  Whatever components mount, render again and unmount, starting
    from the provider's empty map: no id is in the map twice, and every
    action in it is stored under its own id. *)
Theorem provider_map_stays_keyed (events : list Event) :
  Keyed (run [] events).
Proof.
  unfold run. assert (Keyed []) as H by (split; constructor).
  revert H. generalize (@nil (string * AiAction)).
  induction events as [|e events IH]; intros actions H; simpl; [done|].
  apply IH. by apply step_Keyed.
Qed.

(** X2.  A component that mounts with an id no one has registered and
    unmounts again leaves the map as it was before. *)
Theorem mount_unmount_restores
    (actions : list (string * AiAction)) (action : AiAction) :
  assoc_get (id action) actions = None →
  run actions [Mount action; Unmount action] = actions.
Proof.
  intros Hfresh. simpl. unfold effect, cleanup, registerAction, unregisterAction.
  rewrite (assoc_set_absent _ _ _ Hfresh).
  induction actions as [|[k v] m IH]; simpl.
  - by rewrite String.eqb_refl.
  - simpl in Hfresh. destruct (String.eqb (id action) k); [done|].
    by rewrite IH.
Qed.

Lemma mount_unmount_restores_witness :
  run [(id print, print)] [Mount export_v1; Unmount export_v1]
  = [(id print, print)].
Proof. apply mount_unmount_restores. reflexivity. Defined.

(** X3.  The cleanup of the hook removes the id whoever registered it:
    afterwards the id reads as absent, also when another component had
    registered an action under it, and every other id reads as before. *)
Theorem cleanup_removes_the_id_only
    (actions : list (string * AiAction)) (action : AiAction) :
  assoc_get (id action) (cleanup action actions) = None
  ∧ (∀ k, k ≠ id action →
       assoc_get k (cleanup action actions) = assoc_get k actions)
  ∧ sublist (cleanup action actions) actions.
Proof.
  unfold cleanup, unregisterAction. split; [|split].
  - apply assoc_get_delete_eq.
  - intros k Hk. apply assoc_get_delete_ne. congruence.
  - apply assoc_delete_sublist.
Qed.

(** X4.  When a component renders again with a new action object of the
    same id, the effect is cleaned up and runs anew: the action leaves its
    place and goes to the end of the map, behind every other action. *)
Theorem update_moves_the_action_last
    (actions : list (string * AiAction)) (previous action : AiAction) :
  id action = id previous →
  step actions (Update previous action)
  = unregisterAction (id previous) actions ++ [(id action, action)].
Proof.
  intros Hid. simpl. unfold effect, cleanup, registerAction.
  apply assoc_set_absent. rewrite Hid. apply assoc_get_delete_eq.
Qed.

Lemma update_moves_the_action_last_witness :
  step [(id export_v1, export_v1); (id print, print)] (Update export_v1 export_v2)
  = [(id print, print); (id export_v2, export_v2)].
Proof.
  exact (update_moves_the_action_last
           [(id export_v1, export_v1); (id print, print)] export_v1 export_v2
           eq_refl).
Defined.

End HookFacts.

(** ** Keyword scoring, further *)
Module LocalBarFacts.
Import JS JSFacts TextFacts LangactContext CommandBar ScoringTerms.

Lemma findBest_Some (actions : list (string * AiAction)) (command : string)
    (action : AiAction) :
  fst (findBest actions command) = Some action → action ∈ values actions.
Proof.
  unfold findBest.
  destruct (CommandBarFacts.loop_finds_first_max
              (split_ws (toLowerCase command)) (values actions))
    as [[-> _] | (i & a & -> & Hi & _)]; [done|].
  intros [= <-]. by eapply list_elem_of_lookup_2.
Qed.

(** X5.  One run of the bar calls at most one handler, with no
    arguments, and only the handler of an action that is registered;
    when it calls one, the status quotes that action; outside a provider
    and for a blank command it changes nothing at all. *)
Theorem local_bar_calls_at_most_one_registered_handler
    (call : function → list value → completion)
    (context : option (list (string * AiAction))) (command : string) (st : State) :
  (invoked (fst (findAndExecuteAction call context command st)) = invoked st
   ∨ ∃ actions action,
       context = Some actions ∧ action ∈ values actions
       ∧ invoked (fst (findAndExecuteAction call context command st))
         = invoked st ++ [(handler action, [])]
       ∧ status (fst (findAndExecuteAction call context command st))
         = executing_status (description action))
  ∧ (context = None ∨ blank command = true →
     findAndExecuteAction call context command st = (st, Returns)).
Proof.
  split.
  - destruct context as [actions|]; [|by left]. simpl.
    destruct (blank command); [by left|].
    destruct (fst (findBest actions command)) as [a|] eqn:Hbest; [|by left].
    right. exists actions, a. apply findBest_Some in Hbest.
    destruct (call (handler a) []); done.
  - intros [-> | Hblank]; [done|]. destruct context; [|done]. simpl.
    by rewrite Hblank.
Qed.

(** X6.  A command with white space before or after it splits into an
    empty piece as well, and every description includes the empty piece:
    every registered action then scores at least one, and with any
    action registered the bar runs one, whatever the words of the
    command are. *)
Theorem padded_command_matches_every_action
    (call : function → list value → completion)
    (actions : list (string * AiAction)) (command : string) (st : State) :
  trim command ≠ command →
  blank command = false →
  actions ≠ [] →
  (∀ action,
     0 < scoreOf (toLowerCase (description action)) (split_ws (toLowerCase command)))
  ∧ ∃ action,
      action ∈ values actions
      ∧ invoked (fst (findAndExecuteAction call (Some actions) command st))
        = invoked st ++ [(handler action, [])].
Proof.
  intros Hpad Hblank Hne.
  assert (∀ action,
            0 < scoreOf (toLowerCase (description action))
                        (split_ws (toLowerCase command))) as Hscore.
  { intros action. unfold scoreOf. rewrite CommandBarFacts.scoreOf_from. simpl.
    pose proof (padded_has_empty_piece _ Hpad) as Hin.
    assert (EmptyString ∈ List.filter (includes (toLowerCase (description action)))
                                      (split_ws (toLowerCase command))) as Hf.
    { apply list_elem_of_In, filter_In. split; [by apply list_elem_of_In|].
      apply includes_empty. }
    destruct (List.filter _ _); [by apply elem_of_nil in Hf|simpl; lia]. }
  split; [exact Hscore|].
  simpl. rewrite Hblank.
  destruct (fst (findBest actions command)) as [a|] eqn:Hbest.
  - exists a. split; [by eapply findBest_Some|].
    destruct (call (handler a) []); done.
  - exfalso. unfold findBest in Hbest.
    destruct (CommandBarFacts.loop_finds_first_max
                (split_ws (toLowerCase command)) (values actions))
      as [[_ Hzero] | (i & a & Heq & _)].
    + destruct actions as [|[k a] actions]; [done|].
      specialize (Hzero a). specialize (Hscore a).
      rewrite Hzero in Hscore; [lia|]. simpl. left.
    + by rewrite Heq in Hbest.
Qed.

Lemma padded_command_witness :
  trim " zzz" ≠ " zzz"
  ∧ ∃ action,
      action ∈ values [("task.add", add_task)]
      ∧ invoked (fst (findAndExecuteAction (λ _ _, Returns)
                        (Some [("task.add", add_task)]) " zzz" typed_in))
        = invoked typed_in ++ [(handler action, [])].
Proof.
  assert (trim " zzz" ≠ " zzz") as Hpad by (vm_compute; discriminate).
  split; [exact Hpad|].
  apply (padded_command_matches_every_action
           (λ _ _, Returns) [("task.add", add_task)] " zzz" typed_in);
    [exact Hpad|reflexivity|discriminate].
Defined.

End LocalBarFacts.

(** ** The scheduler, further *)
Module SchedulerFacts.
Import JS Reindexing ReindexingTerms SchedulerTerms.

(** X7.  The observer asks for a pass exactly when some record of the
    batch is a change of the child list or a change of an attribute of
    an INPUT, BUTTON or SELECT element; records of any other kind, before
    or after it, make no difference. *)
Theorem shouldUpdate_iff_a_record_qualifies (mutations : list MutationRecord) :
  shouldUpdate mutations = existsb qualifies mutations
  ∧ (shouldUpdate mutations = true
     ↔ ∃ mutation, mutation ∈ mutations
         ∧ (type mutation = childList
            ∨ type mutation = attributes ∧ interactive (tagName mutation) = true)).
Proof.
  assert (shouldUpdate mutations = existsb qualifies mutations) as Heq.
  { induction mutations as [|m ms IH]; [done|]. simpl. unfold qualifies.
    destruct (type m); simpl; [|done|done].
    destruct (interactive (tagName m)); done. }
  split; [exact Heq|]. rewrite Heq, existsb_exists. split.
  - intros (m & Hin%list_elem_of_In & Hq). exists m. split; [done|].
    unfold qualifies in Hq. destruct (type m); [right|left|]; done.
  - intros (m & Hin%list_elem_of_In & Hq). exists m. split; [done|].
    unfold qualifies. destruct Hq as [-> | [-> ->]]; done.
Qed.

Lemma cleanup_quiet (s : State) :
  OneTimer s → pending (cleanup s) = [] ∧ observing (cleanup s) = false.
Proof.
  intros [Hnone | (h & due & Hone & Href)]; simpl; split; try done.
  - rewrite Hnone. by destruct (updateTimeoutRef s).
  - rewrite Hone, Href. simpl. by rewrite Pos.eqb_refl.
Qed.

Lemma step_quiet (s : State) (e : Event) :
  afterUnmount e = true →
  pending s = [] → observing s = false →
  pending (step s e) = [] ∧ observing (step s e) = false
  ∧ passes (step s e) = passes s.
Proof.
  intros He Hp Ho.
  assert (∀ t, pending (advance t s) = [] ∧ observing (advance t s) = false
               ∧ passes (advance t s) = passes s) as Hadv.
  { intros t. unfold advance. simpl. rewrite Hp. simpl.
    by rewrite app_nil_r. }
  destruct e as [t ms | t | t | t]; cbn [step]; [|done| |apply Hadv];
    destruct (Hadv t) as (H1 & H2 & H3).
  - unfold observerCallback. by rewrite H2.
  - unfold cleanup. cbn [pending observing passes]. rewrite H1, H3.
    by destruct (updateTimeoutRef (advance t s)).
Qed.

Lemma run_quiet (events : list Event) :
  ∀ s, Forall (λ e, afterUnmount e = true) events →
       pending s = [] → observing s = false →
       pending (run s events) = [] ∧ passes (run s events) = passes s.
Proof.
  induction events as [|e events IH]; intros s Hall Hp Ho; [done|].
  apply Forall_cons in Hall as [He Hall]. simpl.
  destruct (step_quiet s e He Hp Ho) as (H1 & H2 & H3).
  destruct (IH (step s e) Hall H1 H2) as [H4 H5]. by rewrite H5.
Qed.

(** X8.  Unmounting is final.  Whatever happened since the component
    was mounted, once the cleanup of the observer effect has run no
    timer is pending, and as long as the component is not rendered again
    no batch of records and no passing of time brings another pass. *)
Theorem no_pass_after_teardown
    (t0 t : nat) (before after : list Event) :
  Forall (λ e, afterUnmount e = true) after →
  let torn := run (mount t0) (before ++ [Teardown t]) in
  pending torn = []
  ∧ pending (run torn after) = []
  ∧ passes (run torn after) = passes torn.
Proof.
  intros Hall torn.
  assert (pending torn = [] ∧ observing torn = false) as [Hp Ho].
  { unfold torn, run. rewrite foldl_app. cbn [foldl step].
    apply cleanup_quiet, ReindexingFacts.advance_OneTimer.
    apply ReindexingFacts.run_OneTimer, ReindexingFacts.mount_OneTimer. }
  split; [exact Hp|]. by apply run_quiet.
Qed.

Lemma no_pass_after_teardown_witness :
  passes (run (run (mount 0) ([Mutations 10 [added]] ++ [Teardown 50]))
              [Mutations 60 [added]; Wait 500])
  = [0].
Proof.
  destruct (no_pass_after_teardown 0 50 [Mutations 10 [added]]
              [Mutations 60 [added]; Wait 500]) as (_ & _ & ->).
  - repeat constructor.
  - reflexivity.
Defined.

End SchedulerFacts.

(** ** Asking the completion endpoint, further *)
Module RemoteBarFacts.
Import JS JSFacts LLMCommandBar ResolverTerms.

(** What the last part of the function can do to the state. *)
Lemma resolve_outcome (call : function → list value → completion)
    (registry : list (string * Langact.ActionRegistryEntry))
    (actionId parameters : value) (st : State) :
  status (resolve call registry actionId parameters st) ≠ Thinking
  ∧ (invoked (resolve call registry actionId parameters st) = invoked st
     ∨ ∃ entry args,
         assoc_get (to_string actionId) registry = Some entry
         ∧ spread parameters = Ok args
         ∧ invoked (resolve call registry actionId parameters st)
           = invoked st ++ [(Langact.execute entry, args)]).
Proof.
  unfold resolve, getProperty.
  destruct (truthy actionId && negb (is_literal "none" actionId)).
  - destruct (assoc_get (to_string actionId) registry) as [entry|] eqn:Hget.
    + destruct (spread parameters) as [args|err] eqn:Hspread.
      * destruct (call (Langact.execute entry) args); simpl;
          (split; [done|]); right; eauto.
      * simpl. split; [done|]. by left.
    + destruct (existsb (String.eqb (to_string actionId)) objectPrototype).
      * simpl. split; [done|]. by left.
      * destruct (is_literal "none" actionId); simpl; split; try done; by left.
  - destruct (is_literal "none" actionId); simpl; split; try done; by left.
Qed.

(** X9.  Whatever the endpoint answers and whatever the model wrote,
    one submission calls at most one function, and only the function of
    an entry of the registry, with arguments spread from the parameters;
    when it calls one the query has been emptied.  A submission that got
    as far as the request never ends with the status still at Thinking. *)
Theorem remote_bar_calls_at_most_one_registry_entry
    (call : function → list value → completion)
    (JSON_parse : string → option value)
    (context : option (list (string * Langact.ActionRegistryEntry)))
    (q : string) (outcome : Outcome) (st : State) :
  (invoked (sendQueryToLLM call JSON_parse context q outcome st) = invoked st
   ∨ ∃ registry actionId entry args,
       context = Some registry
       ∧ assoc_get actionId registry = Some entry
       ∧ invoked (sendQueryToLLM call JSON_parse context q outcome st)
         = invoked st ++ [(Langact.execute entry, args)]
       ∧ query (sendQueryToLLM call JSON_parse context q outcome st) = EmptyString)
  ∧ (sendQueryToLLM call JSON_parse context q outcome st = st
     ∨ status (sendQueryToLLM call JSON_parse context q outcome st) ≠ Thinking
       ∧ loading (sendQueryToLLM call JSON_parse context q outcome st) = false).
Proof.
  unfold sendQueryToLLM.
  destruct context as [registry|]; [|split; by left].
  destruct (blank q); [split; by left|].
  destruct outcome as [err | ok statusText json];
    [split; [by left|by right]|].
  destruct ok; simpl; [|split; [by left|by right]].
  destruct json as [data|err]; [|split; [by left|by right]].
  destruct (extractAction JSON_parse data) as [[actionId parameters]|err];
    [|split; [by left|by right]].
  set (st1 := setQuery EmptyString (setStatus Thinking (setLoading true st))).
  destruct (resolve_outcome call registry actionId parameters st1)
    as [Hstatus Hcalls].
  split.
  - destruct Hcalls as [Hsame | (entry & args & Hget & _ & Hinv)]; [by left|].
    right. exists registry, (to_string actionId), entry, args.
    split; [done|]. split; [done|]. split; [done|].
    by rewrite LLMCommandBarFacts.resolve_query.
  - right. split; [done|]. apply LLMCommandBarFacts.resolve_loading.
Qed.

(** X10.  A request that fails before the body is read changes the
    status and nothing else: when [fetch] rejects or the body cannot be
    read the status carries the error, when the response is not a success
    it carries the status text; the query stays as typed, no function is
    called, and [loading] is false again. *)
Theorem failed_request_keeps_the_query
    (call : function → list value → completion)
    (JSON_parse : string → option value)
    (registry : list (string * Langact.ActionRegistryEntry))
    (q : string) (st : State) :
  blank q = false →
  (∀ err,
     sendQueryToLLM call JSON_parse (Some registry) q (Rejected err) st
     = {| query := query st; status := Failed err;
          loading := false; invoked := invoked st |})
  ∧ (∀ statusText json,
       sendQueryToLLM call JSON_parse (Some registry) q
         (Response false statusText json) st
       = {| query := query st; status := ApiError statusText;
            loading := false; invoked := invoked st |})
  ∧ (∀ statusText err,
       sendQueryToLLM call JSON_parse (Some registry) q
         (Response true statusText (Raise err)) st
       = {| query := query st; status := Failed err;
            loading := false; invoked := invoked st |}).
Proof.
  intros Hq. unfold sendQueryToLLM. rewrite Hq. repeat split.
Qed.

Lemma failed_request_witness :
  sendQueryToLLM (λ _ _, Returns) sample_parse (Some [("action_3", action_3)])
    "add hello" (Response false "Too Many Requests" (Ok VNull)) asked
  = {| query := "add hello"; status := ApiError "Too Many Requests";
       loading := false; invoked := [] |}.
Proof.
  destruct (failed_request_keeps_the_query (λ _ _, Returns) sample_parse
              [("action_3", action_3)] "add hello" asked eq_refl)
    as (_ & Hhttp & _).
  apply Hhttp.
Defined.

End RemoteBarFacts.

(** ** The registry's entries *)
Module RegistryFacts.
Import JS JSFacts AssocFacts Langact ExtractorTerms RegistryTerms.

Section Entries.
(** A property of entries that every entry has when it is filed. *)
Variable P : ActionRegistryEntry → Prop.
Hypothesis filed_with :
  ∀ (functionId componentName propKey semanticId : string)
    (currentPath : list string) (identifyingProps : list (string * value))
    (propValue : function),
    startsWith propKey "on" = true →
    P {| id := functionId;
         component := componentName;
         event := propKey;
         path := join " > " currentPath;
         semanticId := semanticId;
         identifyingProps := identifyingProps;
         description := descriptionOf propKey componentName semanticId currentPath;
         execute := propValue;
         functionName := str_or (fn_name propValue) "anonymous";
         toString := fn_source propValue |}.

Lemma extractHandlers_every (cn sid : string) (cp : list string)
    (ip source : list (string * value)) (ks : list string) :
  ∀ st, Every P st → Every P (foldl (extractHandler cn sid cp ip source) st ks).
Proof.
  induction ks as [|k ks IH]; intros st H; [done|].
  simpl. apply IH. unfold extractHandler.
  destruct (prop_get source k); try done.
  destruct (startsWith k "on") eqn:Hon; [|done].
  unfold Every. cbn [actionRegistry].
  apply assoc_set_all; [|done]. by apply filed_with.
Qed.

Lemma visitNode_every (et : ElementType)
    (p m pp : option (list (string * value))) (path : list string) (st : State) :
  Every P st → Every P (fst (visitNode et p m pp path st)).
Proof. intros H. unfold visitNode. cbn [fst]. by apply extractHandlers_every. Qed.

Lemma traverseChildren_every (node : FiberNode) :
  ∀ (path : list string) (st : State),
    Every P st → Every P (traverseChildren node path st).
Proof.
  induction node as [|et p m pp child IHc sibling IHs]; intros path st H; [done|].
  cbn [traverseChildren].
  pose proof (visitNode_every et p m pp path st H) as H1.
  destruct (visitNode et p m pp path st) as [st1 ownPath]. auto.
Qed.

Lemma createActionRegistry_every (root : FiberNode) :
  Forall (λ p, P (snd p)) (createActionRegistry root).
Proof.
  assert (Every P initial) as H0 by constructor.
  unfold createActionRegistry, indexingPass.
  destruct root as [|et p m pp child sibling]; [done|].
  cbn [traverseAndExtractActions].
  pose proof (visitNode_every et p m pp [] initial H0) as H1.
  destruct (visitNode et p m pp [] initial) as [st1 ownPath].
  by apply traverseChildren_every.
Qed.

End Entries.

Lemma createActionRegistry_consistent (root : FiberNode) :
  Forall (λ p, Consistent (snd p)) (createActionRegistry root).
Proof.
  apply createActionRegistry_every.
  intros functionId componentName propKey sid currentPath ip f Hon.
  by repeat split.
Qed.

(** X11.  Every entry of a registry hangs together, for every tree: its
    event starts with [on]; its function name is the name of the function
    it executes, [anonymous] for a function without one, and its text is
    that function's text; its description is its event, [handler on], its
    component, its semantic identifier when it has one, [at], and its
    path. *)
Theorem registry_entries_are_consistent (root : FiberNode) :
  Forall (λ p, Consistent (snd p)) (createActionRegistry root).
Proof.
  apply createActionRegistry_every.
  intros functionId componentName propKey sid currentPath ip f Hon.
  unfold Consistent. cbn [event execute functionName toString description
                          component semanticId path].
  split; [exact Hon|]. by repeat split.
Qed.

(** X12.  The identifying props of a node hold a name exactly when it
    is one of [id], [num], [index], [value], [name], [className] and the
    node's props define it, and then with the value the node's props
    have, unchanged. *)
Theorem identifying_props_are_the_defined_listed_props
    (source : list (string * value)) (k : string) :
  assoc_get k (identifyingPropsOf source)
  = if bool_decide (k ∈ identifyingNames) && defined (prop_get source k)
    then Some (prop_get source k)
    else None.
Proof. unfold identifyingPropsOf. by rewrite ExtractorFacts.identifying_loop_get. Qed.

End RegistryFacts.

(** ** The semantic structure *)
Module SemanticFacts.
Import JS JSFacts AssocFacts Langact WalkerTerms ExtractorTerms SemanticTerms
       RegistryTerms.

Lemma ComponentTree_nested_ind (P : ComponentTree → Prop) :
  (∀ name props children, Forall P children → P (Component name props children)) →
  ∀ t, P t.
Proof.
  intros H. fix IH 1. intros [name props children]. apply H.
  induction children as [|c cs IHcs]; constructor; [apply IH|exact IHcs].
Qed.

Lemma namesOf_semanticOf (name : string) (props : list (string * Normalized))
    (children : list ComponentTree) :
  namesOf (Semantic.semanticOf (Component name props children))
  = name :: concat (map (λ t, namesOf (Semantic.semanticOf t)) children).
Proof. destruct children; [done|]. simpl. by rewrite map_map. Qed.

Lemma listedActions_semanticOf (name : string) (props : list (string * Normalized))
    (children : list ComponentTree) :
  listedActions (Semantic.semanticOf (Component name props children))
  = fst (foldl (Semantic.extractProp props) ([], []) (keys props))
    ++ concat (map (λ t, listedActions (Semantic.semanticOf t)) children).
Proof.
  assert (∀ A (l : list A), default [] (Semantic.unlessEmpty l) = l) as Hd
    by (by intros A []).
  destruct children; simpl; rewrite Hd; [done|]. by rewrite map_map.
Qed.

(** X13.  A structure has no empty [actions] and no empty [children],
    at any depth: an array that would be empty is not there at all. *)
Theorem semantic_structure_is_compact (tree : ComponentTree) :
  compact (Semantic.semanticOf tree) = true.
Proof.
  induction tree as [name props children IH] using ComponentTree_nested_ind.
  simpl. apply andb_true_intro. split.
  - by destruct (fst (foldl (Semantic.extractProp props) ([], []) (keys props))).
  - destruct children as [|c cs]; [done|]. simpl.
    apply Forall_cons in IH as [Hc Hcs]. rewrite Hc. simpl.
    apply forallb_forall. intros s (t & <- & Ht)%in_map_iff.
    rewrite Forall_forall in Hcs. apply Hcs. by apply list_elem_of_In.
Qed.

Lemma names_of_chain (invoke : function → list value → result value)
    (node : FiberNode) :
  ∀ cs, childrenFrom invoke node = Ok cs →
        concat (map (λ t, namesOf (Semantic.semanticOf t)) cs) = walkedNames node.
Proof.
  induction node as [|et p m pp child IHc sibling IHs]; intros cs.
  - by intros [= <-].
  - cbn [childrenFrom walkedNames].
    destruct (normalizeProps invoke (propsSource p m pp)) as [stored|e];
      [|done].
    cbn [bind].
    destruct (childrenFrom invoke child) as [children|e]; [|done].
    cbn [bind].
    destruct (childrenFrom invoke sibling) as [rest|e]; [|done].
    cbn [bind]. intros [= <-]. cbn [map concat].
    by rewrite namesOf_semanticOf, (IHc children), (IHs rest).
Qed.

(** X14.  The walker and the semantic structure drop no node and move
    none.  When the walker answers with a tree, the component names of
    the structure made of it, depth first, are the names of the root and
    of every node below it, in the order the child and sibling links
    give; it answers with no tree, and there is no structure, exactly for
    no root; and it raises only on a tree in which some props object has
    a property named [hasOwnProperty]. *)
Theorem semantic_structure_keeps_every_node
    (invoke : function → list value → result value) (root : FiberNode) :
  match fiberToComponentTree invoke root with
  | Ok tree =>
      match Semantic.createSemanticStructure tree with
      | Some s => root ≠ Null ∧ namesOf s = walkedNamesFrom root
      | None => root = Null
      end
  | Raise _ => root ≠ Null ∧ ¬ unshadowedFrom root
  end.
Proof.
  destruct root as [|et p m pp child sibling]; [done|].
  destruct (fiberToComponentTree invoke (Fiber et p m pp child sibling))
    as [tree|e] eqn:Hwalk.
  - revert Hwalk. cbn [fiberToComponentTree].
    destruct (normalizeProps invoke (propsSource p m pp)) as [stored|e];
      [|done].
    cbn [bind].
    destruct (childrenFrom invoke child) as [children|e] eqn:Hc; [|done].
    cbn [bind]. intros [= <-]. cbn [Semantic.createSemanticStructure].
    split; [done|].
    by rewrite namesOf_semanticOf, (names_of_chain invoke child children Hc).
  - split; [done|]. intros Hplain.
    destruct (WalkerFacts.fiberToComponentTree_returns invoke _ Hplain)
      as [r Hr].
    congruence.
Qed.

(** The actions of one node, whatever its keys. *)
Lemma extractProp_actions (props : list (string * Normalized)) (ks : list string) :
  ∀ acc,
    fst (foldl (Semantic.extractProp props) acc ks)
    = fst acc
      ++ omap (λ key,
                 match Semantic.propOf props key with
                 | NFunction __name _ =>
                     if startsWith key "on"
                     then Some {| Semantic.event := key;
                                  Semantic.handler := str_or __name "anonymous";
                                  Semantic.path := "props." +:+ key |}
                     else None
                 | _ => None
                 end) ks.
Proof.
  induction ks as [|k ks IH]; intros acc; simpl; [by rewrite app_nil_r|].
  rewrite IH. unfold Semantic.extractProp. cbn [fst].
  destruct (Semantic.propOf props k); try done.
  destruct (startsWith k "on"); [|done]. by rewrite <- app_assoc.
Qed.

Lemma propOf_storedProps (source : list (string * value)) (key : string) :
  key ≠ "__proto__" →
  Semantic.propOf (storedProps source) key = normalize (prop_get source key).
Proof.
  intros Hkey. unfold Semantic.propOf, prop_get.
  rewrite WalkerFacts.storedProps_get.
  apply String.eqb_neq in Hkey. rewrite Hkey.
  by destruct (assoc_get key source).
Qed.

Lemma store_loop_keys (source : list (string * value)) (ks : list string) :
  ∀ acc,
    NoDup (keys acc ++ ks) →
    keys (foldl (λ props key, store key (normalize (prop_get source key)) props)
                acc ks)
    = keys acc ++ List.filter (λ k, negb (String.eqb k "__proto__")) ks.
Proof.
  unfold keys. induction ks as [|k ks IH]; intros acc Hnd.
  - cbn [foldl List.filter]. by rewrite app_nil_r.
  - cbn [foldl List.filter]. unfold store at 2.
    destruct (String.eqb k "__proto__"); cbn [negb].
    + apply IH. apply NoDup_app in Hnd as (H1 & H2 & H3).
      apply NoDup_cons in H3 as [_ H3]. apply NoDup_app.
      split; [done|]. split; [|done].
      intros x Hx Hin. apply (H2 x Hx). by right.
    + assert (assoc_get k acc = None) as Hfresh.
      { apply assoc_get_None. intros Hin.
        apply NoDup_app in Hnd as (_ & Hdisj & _). apply (Hdisj k Hin). left. }
      assert (map fst (assoc_set k (normalize (prop_get source k)) acc)
              = map fst acc ++ [k]) as Hk.
      { by rewrite assoc_set_keys, Hfresh. }
      rewrite IH.
      * rewrite Hk. by rewrite <- app_assoc.
      * rewrite Hk. by rewrite <- app_assoc.
Qed.

(** The walker keeps the keys of a props object, in their order, but
    for [__proto__]. *)
Lemma storedProps_keys (source : list (string * value)) :
  NoDup (keys source) →
  keys (storedProps source)
  = List.filter (λ k, negb (String.eqb k "__proto__")) (keys source).
Proof. intros H. unfold storedProps. by rewrite store_loop_keys. Qed.

Lemma str_or_anonymous (name : string) :
  str_or (str_or name "anonymous") "anonymous" = str_or name "anonymous".
Proof. by destruct name. Qed.

(** The actions the structure lists for a node are the handlers of the
    node. *)
Lemma node_actions (source : list (string * value)) :
  NoDup (keys source) →
  listed_handler
    <$> fst (foldl (Semantic.extractProp (storedProps source)) ([], [])
                   (keys (storedProps source)))
  = named_handler <$> handlersOf source.
Proof.
  intros Hnd. rewrite extractProp_actions, storedProps_keys by done.
  cbn [fst app]. unfold handlersOf. clear Hnd.
  induction (keys source) as [|k ks IH]; [done|].
  cbn [List.filter omap list_omap].
  destruct (String.eqb k "__proto__") eqn:Hk; cbn [negb].
  - apply String.eqb_eq in Hk as ->.
    assert (handlerAt source "__proto__" = None) as ->; [|exact IH].
    unfold handlerAt. by destruct (prop_get source "__proto__").
  - apply String.eqb_neq in Hk. cbn [omap list_omap].
    rewrite (propOf_storedProps _ _ Hk). unfold handlerAt.
    destruct (prop_get source k) as [| | | | | | |f]; simpl; try exact IH.
    destruct (startsWith k "on"); [|exact IH].
    rewrite !fmap_cons. f_equal; [|exact IH].
    unfold listed_handler, named_handler. simpl. f_equal.
    rewrite str_or_anonymous. done.
Qed.

Lemma actions_of_chain (invoke : function → list value → result value)
    (node : FiberNode) :
  uniqueKeys node → unshadowedChain node →
  ∀ cs, childrenFrom invoke node = Ok cs →
        listed_handler
          <$> concat (map (λ t, listedActions (Semantic.semanticOf t)) cs)
        = named_handler <$> discovered node.
Proof.
  induction node as [|et p m pp child IHc sibling IHs]; intros Hu Hplain cs.
  - by intros [= <-].
  - destruct Hu as (Hnd & Hcu & Hsu). destruct Hplain as (Hown & Hcp & Hsp).
    cbn [childrenFrom discovered].
    rewrite (WalkerFacts.normalizeProps_unshadowed invoke _ Hown). cbn [bind].
    destruct (childrenFrom invoke child) as [children|e]; [|done].
    cbn [bind].
    destruct (childrenFrom invoke sibling) as [rest|e]; [|done].
    cbn [bind]. intros [= <-]. cbn [map concat].
    rewrite listedActions_semanticOf, !fmap_app.
    rewrite node_actions, (IHc Hcu Hcp children), (IHs Hsu Hsp rest) by done.
    by rewrite <- app_assoc.
Qed.

Lemma listed_paths (tree : ComponentTree) :
  Forall (λ a, Semantic.path a = "props." +:+ Semantic.event a)
         (listedActions (Semantic.semanticOf tree)).
Proof.
  induction tree as [name props children IH] using ComponentTree_nested_ind.
  rewrite listedActions_semanticOf. apply Forall_app. split.
  - rewrite extractProp_actions. cbn [fst app].
    induction (keys props) as [|k ks IHks]; [constructor|]. cbn [omap list_omap].
    destruct (Semantic.propOf props k); try exact IHks.
    destruct (startsWith k "on"); [|exact IHks]. by constructor.
  - induction IH as [|c cs Hc _ IHcs]; [constructor|]. simpl.
    apply Forall_app. by split.
Qed.

Lemma filed_handlers (registry : list (string * ActionRegistryEntry)) :
  Forall (λ p, Consistent (snd p)) registry →
  filed_handler <$> registry = named_handler <$> (handler_of <$> registry).
Proof.
  induction 1 as [|[k e] registry (_ & Hname & _) _ IH]; [done|].
  rewrite !fmap_cons. f_equal; [|exact IH].
  unfold filed_handler, named_handler, handler_of. simpl in *. by rewrite Hname.
Qed.

(** X15.  The structure and the registry tell of the same handlers.
    For a tree whose props objects have no key twice and no property
    named [hasOwnProperty], the walker answers with a tree, and the
    actions the structure made of it lists, depth first, are the entries
    of the registry, in the registry's order, one for one: same event,
    same function name; and the path of a listed action is [props.]
    before its event. *)
Theorem structure_lists_the_registry_s_handlers
    (invoke : function → list value → result value) (root : FiberNode) :
  uniqueKeysFrom root →
  unshadowedFrom root →
  root ≠ Null →
  ∃ tree s,
    fiberToComponentTree invoke root = Ok tree
    ∧ Semantic.createSemanticStructure tree = Some s
    ∧ listed_handler <$> listedActions s
      = filed_handler <$> createActionRegistry root
    ∧ Forall (λ a, Semantic.path a = "props." +:+ Semantic.event a)
             (listedActions s).
Proof.
  intros Hu Hplain Hroot.
  destruct root as [|et p m pp child sibling]; [done|].
  destruct Hu as [Hnd Hc]. destruct Hplain as [Hown Hcp].
  destruct (WalkerFacts.childrenFrom_returns invoke child Hcp)
    as [children Hchildren].
  exists (Some (Component (walkerDisplayName et)
                          (storedProps (propsSource p m pp)) children)).
  eexists. split.
  { cbn [fiberToComponentTree].
    rewrite (WalkerFacts.normalizeProps_unshadowed invoke _ Hown). cbn [bind].
    by rewrite Hchildren. }
  split; [reflexivity|]. split.
  - rewrite filed_handlers by apply RegistryFacts.createActionRegistry_consistent.
    destruct (ExtractorFacts.indexingPass_dense (Fiber et p m pp child sibling))
      as [_ Hreg].
    unfold createActionRegistry. rewrite Hreg. cbn [discoveredFrom].
    rewrite listedActions_semanticOf, !fmap_app.
    by rewrite node_actions, (actions_of_chain invoke child Hc Hcp children).
  - apply listed_paths.
Qed.

Lemma structure_lists_witness :
  uniqueKeysFrom small_form ∧ unshadowedFrom small_form ∧ small_form ≠ Null
  ∧ ∃ tree s,
      fiberToComponentTree silent small_form = Ok tree
      ∧ Semantic.createSemanticStructure tree = Some s
      ∧ listed_handler <$> listedActions s
        = filed_handler <$> createActionRegistry small_form
      ∧ filed_handler <$> createActionRegistry small_form
        = [("onChange", "handleChange"); ("onClick", "anonymous")].
Proof.
  assert (uniqueKeysFrom small_form) as Hu.
  { repeat split; by apply (bool_decide_unpack _). }
  assert (unshadowedFrom small_form) as Hplain by (by repeat split).
  assert (small_form ≠ Null) as Hroot by discriminate.
  split; [exact Hu|]. split; [exact Hplain|]. split; [exact Hroot|].
  destruct (structure_lists_the_registry_s_handlers silent small_form
              Hu Hplain Hroot) as (tree & s & Hwalk & Hs & Hsame & _).
  exists tree, s. split; [exact Hwalk|]. split; [exact Hs|].
  split; [exact Hsame|reflexivity].
Defined.

(** The node with a prop named [hasOwnProperty] that is a function and
    answers [false]: the structure lists no action, and the registry has
    the click handler. *)
Example denied_handler_is_filed_and_not_listed :
  fiberToComponentTree denying shadowed_by_function
  = Ok (Some (Component "button" [] []))
  ∧ listedActions (Semantic.semanticOf (Component "button" [] [])) = []
  ∧ filed_handler <$> createActionRegistry shadowed_by_function
    = [("onClick", "press")].
Proof. split; [|split]; reflexivity. Qed.

(** What the loop leaves under a name, for any keys. *)
Lemma extractProp_named (props : list (string * Normalized)) (ks : list string)
    (k : string) :
  ∀ acc,
    assoc_get k (snd (foldl (Semantic.extractProp props) acc ks))
    = if bool_decide (k ∈ ks) && existsb (String.eqb k) Semantic.meaningful
      then Some (Semantic.propOf props k)
      else assoc_get k (snd acc).
Proof.
  induction ks as [|k0 ks IH]; intros acc; [done|].
  cbn [foldl]. rewrite IH. destruct (decide (k ∈ ks)) as [Hin | Hnin].
  - rewrite (bool_decide_eq_true_2 _ Hin).
    rewrite (bool_decide_eq_true_2 (k ∈ k0 :: ks)) by (by right). cbn [andb].
    destruct (existsb (String.eqb k) Semantic.meaningful) eqn:Hk; [done|].
    unfold Semantic.extractProp. cbn [snd].
    destruct (existsb (String.eqb k0) Semantic.meaningful) eqn:Hk0; [|done].
    apply assoc_get_set_ne. intros ->. congruence.
  - rewrite (bool_decide_eq_false_2 _ Hnin). cbn [andb].
    unfold Semantic.extractProp. cbn [snd].
    destruct (decide (k = k0)) as [-> | Hne].
    + rewrite bool_decide_eq_true_2 by left. cbn [andb].
      destruct (existsb (String.eqb k0) Semantic.meaningful);
        [apply assoc_get_set_eq|done].
    + rewrite bool_decide_eq_false_2 by (rewrite not_elem_of_cons; done).
      cbn [andb].
      destruct (existsb (String.eqb k0) Semantic.meaningful); [|done].
      apply assoc_get_set_ne. congruence.
Qed.

(** X16.  What the structure tells of a node's own props, when these
    have no property named [hasOwnProperty] and the walker answers with a
    tree.  Under each of the names [id], [type], [value], [placeholder],
    [href] the structure made of the tree holds what the walker stores
    for the prop, when the node has the prop, and it holds nothing under
    any other name; its text is the node's [children] prop when that is a
    string that is not empty; its class name is what the walker stores
    for a [className] prop that is truthy. *)
Theorem structure_carries_the_meaningful_props
    (invoke : function → list value → result value) (elementType : ElementType)
    (props memoizedProps pendingProps : option (list (string * value)))
    (child sibling : FiberNode) (tree : ComponentTree) :
  let source := propsSource props memoizedProps pendingProps in
  unshadowed source →
  fiberToComponentTree invoke
    (Fiber elementType props memoizedProps pendingProps child sibling)
  = Ok (Some tree) →
  Semantic.component (Semantic.semanticOf tree) = walkerDisplayName elementType
  ∧ (∀ k, assoc_get k (Semantic.named (Semantic.semanticOf tree))
          = if existsb (String.eqb k) Semantic.meaningful
            then normalize <$> assoc_get k source
            else None)
  ∧ Semantic.text (Semantic.semanticOf tree)
    = match prop_get source "children" with
      | VString t => if is_empty t then None else Some t
      | _ => None
      end
  ∧ Semantic.className (Semantic.semanticOf tree)
    = if truthy (prop_get source "className")
      then Some (normalize (prop_get source "className"))
      else None.
Proof.
  intros source Hplain. cbn [fiberToComponentTree]. fold source.
  rewrite (WalkerFacts.normalizeProps_unshadowed invoke _ Hplain). cbn [bind].
  destruct (childrenFrom invoke child) as [children|e]; [|done].
  cbn [bind]. intros [= <-].
  cbn [Semantic.semanticOf Semantic.component Semantic.named Semantic.text
       Semantic.className].
  split; [done|]. split; [|split].
  - intros k. rewrite extractProp_named. cbn [snd assoc_get].
    destruct (existsb (String.eqb k) Semantic.meaningful) eqn:Hk;
      [|by rewrite andb_false_r].
    rewrite andb_true_r.
    assert (k ≠ "__proto__") as Hproto by (by intros ->).
    unfold Semantic.propOf. rewrite WalkerFacts.storedProps_get.
    apply String.eqb_neq in Hproto. rewrite Hproto.
    destruct (decide (k ∈ keys (storedProps source))) as [Hin | Hnin].
    + rewrite (bool_decide_eq_true_2 _ Hin).
      destruct (assoc_get k source) eqn:E; [done|].
      exfalso. apply (assoc_get_None k (storedProps source)); [|exact Hin].
      by rewrite WalkerFacts.storedProps_get, Hproto, E.
    + rewrite (bool_decide_eq_false_2 _ Hnin).
      apply assoc_get_None in Hnin.
      rewrite WalkerFacts.storedProps_get, Hproto in Hnin. by rewrite Hnin.
  - unfold Semantic.textOf. rewrite propOf_storedProps by done.
    by destruct (prop_get source "children").
  - unfold Semantic.classNameOf. rewrite propOf_storedProps by done.
    by destruct (prop_get source "className").
Qed.

Lemma structure_carries_witness :
  unshadowed [("className", VString "add-task")]
  ∧ ∃ tree,
      fiberToComponentTree silent small_form = Ok (Some tree)
      ∧ Semantic.component (Semantic.semanticOf tree) = "form"
      ∧ Semantic.className (Semantic.semanticOf tree)
        = Some (NPrimitive (VString "add-task")).
Proof.
  split; [reflexivity|]. eexists. split; [reflexivity|].
  destruct (structure_carries_the_meaningful_props silent
              (ETString "form") None (Some [("className", VString "add-task")])
              None
              (Fiber (ETString "input") None
                 (Some [("type", VString "text");
                        ("onChange", VFunction onChange_of_field)]) None Null
                 (Fiber (ETString "button") None
                    (Some [("onClick", VFunction onClick_of_button);
                           ("children", VString "Add")]) None Null Null))
              Null _ eq_refl eq_refl)
    as (Hname & _ & _ & Hclass).
  split; [exact Hname|exact Hclass].
Defined.

End SemanticFacts.

(** ** The action map *)
Module ActionMapFacts.
Import JS JSText JSFacts AssocFacts TextFacts Langact ExtractorTerms ActionMap
       ActionMapTerms.

(** *** The map beside the registry *)



Lemma llm_loop_keys (registry : list (string * ActionRegistryEntry))
    (ks : list string) :
  ∀ acc,
    NoDup (keys acc ++ ks) →
    (∀ k, k ∈ ks → is_Some (assoc_get k registry)) →
    keys (foldl (λ llmActionMap actionId,
                   match assoc_get actionId registry with
                   | Some action => assoc_set actionId (entryOf action) llmActionMap
                   | None => llmActionMap
                   end) acc ks)
    = keys acc ++ ks.
Proof.
  unfold keys. induction ks as [|k ks IH]; intros acc Hnd Hall; simpl.
  - by rewrite app_nil_r.
  - destruct (Hall k) as [a Ha]; [left|]. rewrite Ha.
    assert (assoc_get k acc = None) as Hfresh.
    { apply assoc_get_None. intros Hin.
      apply NoDup_app in Hnd as (_ & Hdisj & _). apply (Hdisj k Hin). left. }
    assert (map fst (assoc_set k (entryOf a) acc) = map fst acc ++ [k]) as Hk.
    { by rewrite assoc_set_keys, Hfresh. }
    rewrite IH.
    + rewrite Hk. by rewrite <- List.app_assoc.
    + rewrite Hk. by rewrite <- List.app_assoc.
    + intros k' Hk'. apply Hall. by right.
Qed.

Lemma createLLMActionMap_keys (registry : list (string * ActionRegistryEntry)) :
  NoDup (keys registry) → keys (createLLMActionMap registry) = keys registry.
Proof.
  intros Hnd. unfold createLLMActionMap. rewrite llm_loop_keys; [done|done|].
  intros k Hk. destruct (assoc_get k registry) eqn:E; [by eexists|].
  by apply assoc_get_None in E.
Qed.

Lemma createActionRegistry_NoDup (root : FiberNode) :
  NoDup (keys (createActionRegistry root)).
Proof.
  destruct (ExtractorFacts.indexingPass_dense root) as [[Hkeys _] _].
  unfold createActionRegistry, keys. rewrite Hkeys.
  apply NoDup_fmap_2; [|apply NoDup_seq].
  intros n m. apply ExtractorFacts.functionIdOf_inj.
Qed.


(** *** Parameters *)

Lemma all_chars_app (f : ascii → bool) (a b : string) :
  all_chars f (a +:+ b) = all_chars f a && all_chars f b.
Proof.
  induction a as [|x a IH]; [done|]. rewrite app_cons. simpl.
  by rewrite IH, andb_assoc.
Qed.

Lemma all_chars_impl (f g : ascii → bool) (s : string) :
  (∀ a, f a = true → g a = true) → all_chars f s = true → all_chars g s = true.
Proof.
  intros Hfg. induction s as [|x s IH]; [done|]. simpl.
  intros [Hx Hs]%andb_prop. by rewrite (Hfg _ Hx), IH.
Qed.

Lemma cut_here (c : ascii) (before rest : string) :
  all_chars (other_than c) before = true →
  cut c (before +:+ String c rest) = Some (before, rest).
Proof.
  induction before as [|x before IH].
  - intros _. change (EmptyString +:+ String c rest) with (String c rest).
    simpl. by rewrite Ascii.eqb_refl.
  - cbn [all_chars]. intros [Hx Hb]%andb_prop. rewrite app_cons. simpl.
    unfold other_than in Hx. apply negb_true_iff in Hx. by rewrite Hx, IH.
Qed.

Lemma cut_none (c : ascii) (s : string) :
  all_chars (other_than c) s = true → cut c s = None.
Proof.
  induction s as [|x s IH]; [done|]. simpl.
  intros [Hx Hs]%andb_prop.
  unfold other_than in Hx. apply negb_true_iff in Hx. by rewrite Hx, IH.
Qed.

Lemma split_whole (c : ascii) (s : string) :
  all_chars (other_than c) s = true → split c s = [s].
Proof.
  induction s as [|x s IH]; [done|]. simpl.
  intros [Hx Hs]%andb_prop.
  unfold other_than in Hx. apply negb_true_iff in Hx. by rewrite Hx, IH.
Qed.

Lemma split_here (c : ascii) (before rest : string) :
  all_chars (other_than c) before = true →
  split c (before +:+ String c rest) = before :: split c rest.
Proof.
  induction before as [|x before IH].
  - intros _. change (EmptyString +:+ String c rest) with (String c rest).
    simpl. by rewrite Ascii.eqb_refl.
  - cbn [all_chars]. intros [Hx Hb]%andb_prop. rewrite app_cons. simpl.
    unfold other_than in Hx. apply negb_true_iff in Hx. by rewrite Hx, IH.
Qed.

Lemma all_chars_rev (f : ascii → bool) (s : string) :
  all_chars f (String.rev s) = all_chars f s.
Proof.
  induction s as [|x s IH]; [done|].
  rewrite rev_cons, all_chars_app, IH. simpl. by rewrite andb_true_r, andb_comm.
Qed.

Lemma starts_dark_app (a b : string) :
  starts_dark a = true → starts_dark (a +:+ b) = true.
Proof. by destruct a. Qed.

(** A string that starts and ends with something other than white space
    is its own trimming. *)
Lemma trim_dark (s : string) :
  starts_dark s = true → starts_dark (String.rev s) = true → trim s = s.
Proof.
  intros Hs Hr. unfold trim, trimEnd.
  assert (∀ x, starts_dark x = true → trimStart x = x) as Hfix.
  { intros [|a x]; [done|]. simpl. intros Ha%negb_true_iff. by rewrite Ha. }
  by rewrite (Hfix s Hs), (Hfix _ Hr), rev_involutive.
Qed.

Lemma plainParam_dark (p : string) :
  plainParam p = true →
  starts_dark p = true ∧ starts_dark (String.rev p) = true
  ∧ all_chars (other_than ",") p = true ∧ all_chars (other_than ")") p = true.
Proof.
  unfold plainParam. intros [Hne Hall]%andb_prop.
  assert (∀ x, is_empty x = false → all_chars plain_char x = true →
               starts_dark x = true) as Hstart.
  { intros [|a x]; [done|]. simpl. intros _ [Ha _]%andb_prop.
    unfold plain_char in Ha. by apply andb_prop in Ha as [[Ha _]%andb_prop _]. }
  apply negb_true_iff in Hne. split; [by apply Hstart|]. split.
  - apply Hstart; [|by rewrite all_chars_rev].
    destruct p as [|a p]; [done|]. rewrite rev_cons.
    by destruct (String.rev p).
  - split; (eapply all_chars_impl; [|exact Hall]); intros a Ha;
      unfold plain_char in Ha; apply andb_prop in Ha as [[_ H1]%andb_prop H2];
      done.
Qed.

Lemma trim_plainParam (p : string) : plainParam p = true → trim p = p.
Proof. intros (H1 & H2 & _)%plainParam_dark. by apply trim_dark. Qed.

Lemma trim_after_space (p : string) :
  plainParam p = true → trim (String " " p) = p.
Proof.
  intros Hp. unfold trim. change (trimStart (String " " p)) with (trimStart p).
  by apply trim_plainParam.
Qed.

(** The list [a, b, c] written out with a comma and a space between its
    items: how it starts and ends, what it holds, and how it splits. *)
Lemma joined_params (ps : list string) :
  Forall (λ p, plainParam p = true) ps →
  ps ≠ [] →
  starts_dark (join ", " ps) = true
  ∧ starts_dark (String.rev (join ", " ps)) = true
  ∧ all_chars (other_than ")") (join ", " ps) = true
  ∧ map trim (split "," (join ", " ps)) = ps.
Proof.
  induction 1 as [|p ps Hp Hps IH]; [done|]. intros _.
  destruct (plainParam_dark p Hp) as (Hs & He & Hcomma & Hparen).
  destruct ps as [|q ps].
  - cbn [join]. rewrite split_whole by done. simpl.
    by rewrite trim_plainParam.
  - destruct IH as (IHs & IHe & IHparen & IHsplit); [done|].
    change (join ", " (p :: q :: ps))
      with (p +:+ ", " +:+ join ", " (q :: ps)).
    split; [exact (starts_dark_app _ _ Hs)|]. split; [|split].
    + rewrite !rev_append. exact (starts_dark_app _ _ (starts_dark_app _ _ IHe)).
    + by rewrite !all_chars_app, Hparen, IHparen.
    + change (", " +:+ join ", " (q :: ps))
        with (String "," (String " " (join ", " (q :: ps)))).
      rewrite split_here by done. cbn [split]. cbn [Ascii.eqb Bool.eqb].
      cbn [map]. rewrite trim_plainParam by done. f_equal.
      destruct (split "," (join ", " (q :: ps))) as [|x xs] eqn:Hx; [done|].
      cbn [map] in *. by change (trim (String " " x)) with (trim x).
Qed.

Lemma cut_rest (f : ascii → bool) (c : ascii) (s before rest : string) :
  cut c s = Some (before, rest) → all_chars f s = true → all_chars f rest = true.
Proof.
  revert before. induction s as [|x s IH]; intros before; [done|]. simpl.
  destruct (Ascii.eqb x c).
  - intros [= _ <-]. by intros [_ Hs]%andb_prop.
  - destruct (cut c s) as [[b r]|]; [|done].
    intros [= _ <-]. intros [_ Hs]%andb_prop. by eapply IH.
Qed.

(** X18.  When the text of an entry's function has, as its first
    parenthesis, the opening of a parameter list of plain names with a
    comma and a space between them, the map's object for the entry gives
    exactly these names as its parameters, in their order, and its
    signature is the function name before the list in parentheses;
    whatever comes before the list and after it. *)
Theorem plain_parameter_list_is_read_back
    (entry : ActionRegistryEntry) (before rest : string) (ps : list string) :
  all_chars (other_than "(") before = true →
  Forall (λ p, plainParam p = true) ps →
  Langact.toString entry = before +:+ "(" +:+ join ", " ps +:+ ")" +:+ rest →
  parameters (entryOf entry) = ps
  ∧ signature (entryOf entry)
    = Langact.functionName entry +:+ "(" +:+ join ", " ps +:+ ")".
Proof.
  intros Hbefore Hps Htext.
  assert (paramStringOf (Langact.toString entry) = join ", " ps) as Hparams.
  { rewrite Htext. unfold paramStringOf, matchParens.
    change (before +:+ "(" +:+ join ", " ps +:+ ")" +:+ rest)
      with (before +:+ String "(" (join ", " ps +:+ String ")" rest)).
    rewrite (cut_here _ _ _ Hbefore).
    destruct ps as [|p ps]; [done|].
    destruct (joined_params (p :: ps) Hps) as (Hs & He & Hparen & _); [done|].
    rewrite (cut_here _ _ _ Hparen). by apply trim_dark. }
  unfold entryOf. cbn [parameters signature]. rewrite Hparams. split; [|done].
  unfold parametersOf. destruct ps as [|p ps]; [done|].
  destruct (joined_params (p :: ps) Hps) as (Hs & _ & _ & Hsplit); [done|].
  destruct (join ", " (p :: ps)); [done|]. exact Hsplit.
Qed.

Lemma plain_parameter_list_witness :
  parameters (entryOf (entry_with "handleAddTask" "(title, due) => add(title, due)"))
  = ["title"; "due"]
  ∧ signature (entryOf (entry_with "handleAddTask" "(title, due) => add(title, due)"))
    = "handleAddTask(title, due)".
Proof.
  apply (plain_parameter_list_is_read_back
           (entry_with "handleAddTask" "(title, due) => add(title, due)")
           EmptyString " => add(title, due)" ["title"; "due"]).
  - reflexivity.
  - repeat constructor.
  - reflexivity.
Defined.

(** X19.  A function text without an opening parenthesis, or without a
    closing one, gives no parameters and the signature of a function
    without any: so does an arrow function of one parameter written
    without parentheses whose body has none either. *)
Theorem text_without_parentheses_gives_no_parameters
    (entry : ActionRegistryEntry) :
  all_chars (other_than "(") (Langact.toString entry) = true
  ∨ all_chars (other_than ")") (Langact.toString entry) = true →
  parameters (entryOf entry) = []
  ∧ signature (entryOf entry) = Langact.functionName entry +:+ "()".
Proof.
  intros Hnone.
  assert (paramStringOf (Langact.toString entry) = EmptyString) as Hparams.
  { unfold paramStringOf, matchParens. destruct Hnone as [Hopen | Hclose].
    - by rewrite (cut_none _ _ Hopen).
    - destruct (cut "(" (Langact.toString entry)) as [[b r]|] eqn:Hcut; [|done].
      by rewrite (cut_none _ _ (cut_rest _ _ _ _ _ Hcut Hclose)). }
  unfold entryOf. cbn [parameters signature]. by rewrite Hparams.
Qed.

Lemma text_without_parentheses_witness :
  parameters (entryOf (entry_with "double" "x => x * 2")) = []
  ∧ signature (entryOf (entry_with "double" "x => x * 2")) = "double()".
Proof.
  apply (text_without_parentheses_gives_no_parameters
           (entry_with "double" "x => x * 2")).
  left. reflexivity.
Defined.

End ActionMapFacts.

(** ** The task list *)
Module TodoListFacts.
Import JS TodoList TodoListTerms.

Lemma filter_keeps_all (n : N) (ts : list Task) :
  Forall (λ task, id task ≠ n) ts →
  List.filter (λ task, negb (N.eqb (id task) n)) ts = ts.
Proof.
  induction 1 as [|task ts Hne _ IH]; [done|]. simpl.
  apply N.eqb_neq in Hne. by rewrite Hne, IH.
Qed.

(** X20.  Adding a task and deleting it again gives back the list of
    tasks as it was, when the input is not blank and the time stamp that
    became the id of the new task is the id of no other task; the input
    field stays cleared. *)
Theorem add_then_delete_restores_the_tasks (now : N) (st : State) :
  blank (inputValue st) = false →
  fresh now st →
  handleDeleteTask now (handleAddTask now st)
  = {| tasks := tasks st; inputValue := EmptyString |}.
Proof.
  intros Hinput Hfresh. unfold handleAddTask. rewrite Hinput.
  unfold handleDeleteTask. cbn [tasks inputValue]. f_equal.
  rewrite List.filter_app. simpl. rewrite N.eqb_refl. simpl.
  by rewrite app_nil_r, filter_keeps_all.
Qed.

Lemma add_then_delete_witness :
  handleDeleteTask 1700000000000%N
    (handleAddTask 1700000000000%N (setInputValue " Call mum " initial))
  = {| tasks := tasks initial; inputValue := EmptyString |}.
Proof.
  apply (add_then_delete_restores_the_tasks
           1700000000000%N (setInputValue " Call mum " initial)).
  - reflexivity.
  - repeat constructor; discriminate.
Defined.

(** X21.  A task whose time stamp is already the id of another task
    takes that task with it when it is deleted: deleting by id removes
    every task of the id, and leaves the tasks of every other id where
    they were. *)
Theorem delete_removes_every_task_of_the_id (n : N) (st : State) :
  Forall (λ task, id task ≠ n) (tasks (handleDeleteTask n st))
  ∧ (∀ m, m ≠ n →
       List.filter (λ task, N.eqb (id task) m) (tasks (handleDeleteTask n st))
       = List.filter (λ task, N.eqb (id task) m) (tasks st))
  ∧ sublist (tasks (handleDeleteTask n st)) (tasks st)
  ∧ inputValue (handleDeleteTask n st) = inputValue st.
Proof.
  unfold handleDeleteTask. cbn [tasks inputValue].
  split; [|split; [|split; [|done]]].
  - induction (tasks st) as [|task ts IH]; [constructor|]. simpl.
    destruct (N.eqb (id task) n) eqn:E; simpl; [exact IH|].
    constructor; [by apply N.eqb_neq|exact IH].
  - intros m Hm. induction (tasks st) as [|task ts IH]; [done|]. simpl.
    destruct (N.eqb (id task) n) eqn:E; simpl.
    + apply N.eqb_eq in E.
      assert (N.eqb (id task) m = false) as -> by (apply N.eqb_neq; congruence).
      exact IH.
    + by rewrite IH.
  - induction (tasks st) as [|task ts IH]; [done|]. simpl.
    destruct (negb (N.eqb (id task) n)); by constructor.
Qed.

End TodoListFacts.

(** ** From the tree to the call *)
Module PipelineFacts.
Import JS JSFacts AssocFacts Langact ExtractorTerms SemanticTerms LLMCommandBar.

Lemma assoc_get_Some_elem {V : Type} (k : string) (v : V) (m : list (string * V)) :
  assoc_get k m = Some v → (k, v) ∈ m.
Proof.
  induction m as [|[k' v'] m IH]; simpl; [done|].
  destruct (String.eqb k k') eqn:E.
  - apply String.eqb_eq in E as ->. intros [= ->]. left.
  - intros H. right. by apply IH.
Qed.

Lemma functionIdOf_not_none (n : nat) : is_literal "none" (VString (functionIdOf n)) = false.
Proof. reflexivity. Qed.

Lemma functionIdOf_truthy (n : nat) : truthy (VString (functionIdOf n)) = true.
Proof. reflexivity. Qed.

(** X22.  Every id the model is offered can be executed.  After an
    [updateActionMaps] that has set the state, for an id of the action
    map and parameters that are an array or a string, the last part of
    the remote bar finds the id in the registry and calls the function of
    its entry with the spread parameters, that function being a handler
    of the tree under the entry's event; the status is the executing one,
    or the execution error when the call throws, and never that the id is
    not valid. *)
Theorem offered_id_is_executed
    (call : function → list value → completion)
    (invoke : function → list value → result value)
    (fiberRoot : FiberNode) (maps : ActionMap.Maps) (k : string)
    (parameters : value) (args : list value) (st : State) :
  ActionMap.updateActionMaps invoke fiberRoot = Ok maps →
  k ∈ keys (ActionMap.llmActionMap maps) →
  spread parameters = Ok args →
  let registry := ActionMap.actionRegistry maps in
  ∃ entry,
    assoc_get k registry = Some entry
    ∧ (Langact.event entry, execute entry) ∈ discoveredFrom fiberRoot
    ∧ invoked (resolve call registry (VString k) parameters st)
      = invoked st ++ [(execute entry, args)]
    ∧ status (resolve call registry (VString k) parameters st)
      = match call (execute entry) args with
        | Returns => Executing (VString k) parameters
        | Throws e => ExecutionError (Thrown e)
        end.
Proof.
  intros Hmaps Hk Hspread registry. subst registry.
  destruct fiberRoot as [|et p m pp child sibling].
  { injection Hmaps as <-. by apply elem_of_nil in Hk. }
  cbn [ActionMap.updateActionMaps] in Hmaps.
  destruct (fiberToComponentTree invoke (Fiber et p m pp child sibling))
    as [tree|e]; [|done].
  cbn [bind] in Hmaps. injection Hmaps as <-.
  cbn [ActionMap.llmActionMap ActionMap.actionRegistry] in *.
  rewrite ActionMapFacts.createLLMActionMap_keys in Hk
    by apply ActionMapFacts.createActionRegistry_NoDup.
  set (root := Fiber et p m pp child sibling) in *.
  destruct (ExtractorFacts.indexingPass_dense root) as [[Hkeys _] Hhandlers].
  fold (createActionRegistry root) in Hkeys, Hhandlers.
  set (registry := createActionRegistry root) in *.
  assert (∃ n, k = functionIdOf n) as [n ->].
  { unfold keys in Hk. rewrite Hkeys in Hk.
    apply list_elem_of_fmap in Hk as (n & -> & _). by exists n. }
  destruct (assoc_get (functionIdOf n) registry) as [entry|] eqn:Hget;
    [|by apply assoc_get_None in Hget].
  exists entry. split; [done|]. split.
  - rewrite <- Hhandlers. apply list_elem_of_fmap.
    exists (functionIdOf n, entry). split; [done|].
    by apply assoc_get_Some_elem.
  - unfold resolve.
    rewrite functionIdOf_truthy, functionIdOf_not_none. cbn [andb negb].
    change (to_string (VString (functionIdOf n))) with (functionIdOf n).
    rewrite (LLMCommandBarFacts.getProperty_own _ _ _ Hget), Hspread.
    by destruct (call (execute entry) args).
Qed.

Lemma offered_id_witness :
  ∃ maps,
    ActionMap.updateActionMaps WalkerTerms.silent small_form = Ok maps
    ∧ "action_1" ∈ keys (ActionMap.llmActionMap maps)
    ∧ ∃ entry,
        assoc_get "action_1" (ActionMap.actionRegistry maps) = Some entry
        ∧ invoked (resolve (λ _ _, Returns) (ActionMap.actionRegistry maps)
                     (VString "action_1") (VArray []) ResolverTerms.asked)
          = [(execute entry, [])].
Proof.
  eexists. split; [reflexivity|].
  match goal with
  | |- ?K ∈ keys (ActionMap.llmActionMap ?M) ∧ _ =>
      assert (K ∈ keys (ActionMap.llmActionMap M)) as Hk
        by (vm_compute; right; left)
  end.
  split; [exact Hk|].
  destruct (offered_id_is_executed (λ _ _, Returns) WalkerTerms.silent small_form
              _ "action_1" (VArray []) [] ResolverTerms.asked eq_refl Hk eq_refl)
    as (entry & Hget & _ & Hinvoked & _).
  exists entry. split; [exact Hget|exact Hinvoked].
Defined.

End PipelineFacts.
